(** * MetabolicSuite: the formulation engine and the benchmark harness

    A shallow embedding of the parts of [metabolicsuite/api.py] and
    [metabolicsuite/benchmark.py] that carry the algorithmic content:

    - [evaluate_gpr_expression] (api.py), the gene-rule evaluator;
    - [apply_constraints] and the bound-scaling loop of [solve_eflux] (api.py);
    - the [try]/[except] boundary of the seven [solve_*] endpoints (api.py);
    - [BenchmarkComparator.compare] and
      [BiGGModelCatalog.get_benchmark_models] (benchmark.py);
    - in the modules whose names end in [Laws]: the solves and
      [run_benchmark] of [COBRApyBenchmark], [compare_result_sets],
      [generate_summary] and the two tables of [LaTeXReportGenerator]
      (benchmark.py), with further properties of the parts above.

    Python values are modelled as follows.  A [str] is a list of characters
    whose code points lie below 256 ([list ascii]); a [float] is an IEEE 754
    binary64 number, Rocq's primitive [float]; a [dict] keyed by strings is
    a [gmap string _]; [None] is [option]'s [None]; an exception is an
    explicit outcome. *)

From Stdlib Require Import ZArith Ascii String List Bool Lia.
From Stdlib Require Import Floats.
From stdpp Require Import base option list gmap strings sorting.

Local Open Scope Z_scope.

(* Decimal float literals such as [0.2] stand for the nearest binary64 number. *)
Set Warnings "-inexact-float".

(** ** What a call does: it returns, it raises, or it is still running when
    the step budget of the model is used up *)

(** An exception, with the text that [str(e)] gives. *)
Inductive exn : Type :=
| ValueError (msg : string)
| KeyError (msg : string)
| OtherError (msg : string).

Definition exn_str (e : exn) : string :=
  match e with
  | ValueError msg | KeyError msg | OtherError msg => msg
  end.

(** What [max] and [min] raise on an empty list. *)
Definition empty_sequence : exn := ValueError "arg is an empty sequence".

Inductive outcome (A : Type) : Type :=
| Return (a : A)
| Raise (e : exn)
| Diverge.

Arguments Return {A} a.
Arguments Raise {A} e.
Arguments Diverge {A}.

Definition bind {A B} (o : outcome A) (k : A -> outcome B) : outcome B :=
  match o with
  | Return a => k a
  | Raise e => Raise e
  | Diverge => Diverge
  end.

(** A list comprehension: the items are computed from left to right and the
    first one that does not return ends it. *)
Fixpoint collect {A} (os : list (outcome A)) : outcome (list A) :=
  match os with
  | [] => Return []
  | o :: os' => bind o (fun a => bind (collect os') (fun l => Return (a :: l)))
  end.

Definition of_option {A} (e : exn) (o : option A) : outcome A :=
  match o with
  | Some a => Return a
  | None => Raise e
  end.

Lemma bind_Return {A B} (o : outcome A) (k : A → outcome B) b :
  bind o k = Return b ↔ ∃ a, o = Return a ∧ k a = Return b.
Proof.
  destruct o as [a| |]; simpl; split; try done.
  - eauto.
  - by intros (a' & [= <-] & H).
  - by intros (a' & ? & _).
  - by intros (a' & ? & _).
Qed.

Lemma collect_Return {A} (os : list (outcome A)) l :
  collect os = Return l ↔ os = map Return l.
Proof.
  revert l. induction os as [|o os IH]; intros l; simpl.
  - destruct l; split; done.
  - rewrite bind_Return. split.
    + intros (a & -> & (l' & Hl & [= <-])%bind_Return). simpl. f_equal. by apply IH.
    + destruct l as [|a l']; [done|]. intros [= -> Hos]. exists a. split; [done|].
      apply bind_Return. exists l'. split; [by apply IH | done].
Qed.

Lemma collect_map_Return {A B} (f : A → outcome B) (g : A → B) l :
  Forall (λ x, f x = Return (g x)) l → collect (map f l) = Return (map g l).
Proof.
  intros H. apply collect_Return. rewrite map_map.
  induction H; simpl; [done | congruence].
Qed.

(** ** Python strings *)

Module PyStr.

Definition str := list ascii.

(** A literal: [L "a or b"] is the Python string ['a or b']. *)
Definition L (s : string) : str := list_ascii_of_string s.

(** The key under which a text is looked up in a [dict]. *)
Definition key (s : str) : string := string_of_list_ascii s.

Definition code (c : ascii) : N := N_of_ascii c.

Definition in_range (lo hi : N) (c : ascii) : bool :=
  (lo <=? code c)%N && (code c <=? hi)%N.

(** [str.isspace] on one character below U+0100: TAB..CR, FS..US, SPACE,
    NEL and NBSP. *)
Definition isspace (c : ascii) : bool :=
  in_range 9 13 c || in_range 28 32 c || (code c =? 133)%N || (code c =? 160)%N.

Fixpoint lstrip (s : str) : str :=
  match s with
  | c :: s' => if isspace c then lstrip s' else s
  | [] => []
  end.

Definition rstrip (s : str) : str := rev (lstrip (rev s)).

(** [s.strip()] *)
Definition strip (s : str) : str := rstrip (lstrip s).

(** [str.lower] on one character below U+0100: A..Z and the Latin-1 capitals
    (U+00C0..U+00DE without the multiplication sign) move up by 32. *)
Definition lower_char (c : ascii) : ascii :=
  if in_range 65 90 c || (in_range 192 222 c && negb (code c =? 215)%N)
  then ascii_of_N (code c + 32) else c.

(** [s.lower()] *)
Definition lower (s : str) : str := map lower_char s.

Fixpoint startswith (p s : str) : bool :=
  match p, s with
  | [], _ => true
  | _ :: _, [] => false
  | a :: p', b :: s' => Ascii.eqb a b && startswith p' s'
  end.

(** Index of the first occurrence of [sub] in [s]. *)
Fixpoint index_of (sub s : str) : option nat :=
  if startswith sub s then Some 0%nat
  else match s with
       | [] => None
       | _ :: s' => S <$> index_of sub s'
       end.

(** [sub in s] *)
Definition contains (sub s : str) : bool := bool_decide (is_Some (index_of sub s)).

(** [s.find(sub, start)] for [0 <= start]: the lowest index at or after
    [start] where [sub] occurs, or [-1]. *)
Definition find (sub s : str) (start : Z) : Z :=
  match index_of sub (drop (Z.to_nat start) s) with
  | Some i => start + Z.of_nat i
  | None => -1
  end.

Fixpoint rindex_of (sub s : str) : option nat :=
  match s with
  | [] => if startswith sub [] then Some 0%nat else None
  | _ :: s' =>
      match rindex_of sub s' with
      | Some i => Some (S i)
      | None => if startswith sub s then Some 0%nat else None
      end
  end.

(** [s.rfind(sub)]: the highest index where [sub] occurs, or [-1]. *)
Definition rfind (sub s : str) : Z :=
  match rindex_of sub s with
  | Some i => Z.of_nat i
  | None => -1
  end.

(** A slice bound as Python normalises it: a negative index counts from the
    end, and the result is clamped to [0 .. len(s)]. *)
Definition clamp (s : str) (i : Z) : nat :=
  let n := Z.of_nat (length s) in
  Z.to_nat (Z.min n (Z.max 0 (if i <? 0 then i + n else i))).

(** [s[lo:hi]] *)
Definition slice (s : str) (lo hi : Z) : str :=
  drop (clamp s lo) (take (clamp s hi) s).

(** [s[:hi]] *)
Definition slice_to (s : str) (hi : Z) : str := take (clamp s hi) s.

(** [s[lo:]] *)
Definition slice_from (s : str) (lo : Z) : str := drop (clamp s lo) s.

(** [s.split(sep)] for a non-empty [sep] (the evaluator only splits on the
    constants [' or '] and [' and ']): the text is scanned from the left,
    [skip] counts the characters of a separator still to be passed over and
    [cur] holds the current part, reversed. *)
Fixpoint split_go (sep s : str) (skip : nat) (cur : str) : list str :=
  match s with
  | [] => [rev cur]
  | c :: s' =>
      match skip with
      | S k => split_go sep s' k cur
      | O =>
          if startswith sep s
          then rev cur :: split_go sep s' (length sep - 1) []
          else split_go sep s' 0 (c :: cur)
      end
  end.

Definition split (sep s : str) : list str := split_go sep s 0 [].


(** *** Facts about the string operations *)

Section CharPredicates.
Context (P : ascii → Prop).

Lemma Forall_lstrip s : Forall P s → Forall P (lstrip s).
Proof.
  induction 1 as [|c s Hc Hs IH]; simpl; [constructor|].
  destruct (isspace c); [exact IH | by constructor].
Qed.

Lemma Forall_strip s : Forall P s → Forall P (strip s).
Proof.
  intros H. unfold strip, rstrip.
  apply Forall_rev, Forall_lstrip, Forall_rev, Forall_lstrip, H.
Qed.

Lemma Forall_split_go sep s skip cur :
  Forall P s → Forall P cur → Forall (Forall P) (split_go sep s skip cur).
Proof.
  intros Hs. revert skip cur.
  induction Hs as [|c s Hc Hs IH]; intros skip cur Hcur; simpl.
  - constructor; [by apply Forall_rev | constructor].
  - destruct skip as [|k]; [|by apply IH].
    destruct (startswith sep (c :: s)).
    + constructor; [by apply Forall_rev | apply IH; constructor].
    + apply IH. by constructor.
Qed.

Lemma Forall_split sep s : Forall P s → Forall (Forall P) (split sep s).
Proof. intros H. apply Forall_split_go; [exact H | constructor]. Qed.

End CharPredicates.




Lemma lower_char_idemp c : lower_char (lower_char c) = lower_char c.
Proof. by destruct c as [[] [] [] [] [] [] [] []]; vm_compute. Qed.

Lemma lower_idemp s : lower (lower s) = lower s.
Proof.
  unfold lower. rewrite map_map. apply map_ext. intros c. apply lower_char_idemp.
Qed.



Lemma split_go_nonempty sep s skip cur : split_go sep s skip cur ≠ [].
Proof.
  revert skip cur. induction s as [|c s IH]; intros skip cur; simpl; [done|].
  destruct skip; [destruct (startswith sep (c :: s))|]; [done|apply IH..].
Qed.

Lemma index_of_cons sub c s :
  index_of sub (c :: s) = if startswith sub (c :: s) then Some 0%nat else S <$> index_of sub s.
Proof. reflexivity. Qed.




Lemma index_of_None_Forall (a : ascii) s :
  index_of [a] s = None ↔ Forall (λ c, c ≠ a) s.
Proof.
  induction s as [|c s IH].
  - split; [constructor | done].
  - rewrite index_of_cons. simpl. destruct (Ascii.eqb_spec a c) as [->|Hne]; simpl.
    + split; [done | by intros ?%Forall_cons_1%proj1].
    + destruct (index_of [a] s) eqn:E; simpl.
      * split; [done | intros [_ H]%Forall_cons_1]. by apply IH in H.
      * split; [intros _ | done]. constructor; [congruence | by apply IH].
Qed.

Lemma contains_char_false (a : ascii) s :
  contains [a] s = false ↔ Forall (λ c, c ≠ a) s.
Proof.
  unfold contains. rewrite bool_decide_eq_false, <- index_of_None_Forall.
  rewrite <- eq_None_not_Some. done.
Qed.

Lemma lower_char_lparen c : c ≠ "("%char → lower_char c ≠ "("%char.
Proof. intros H. destruct c as [[] [] [] [] [] [] [] []]; vm_compute; congruence. Qed.









Lemma lstrip_split s : ∃ ws, s = ws ++ lstrip s ∧ Forall (λ c, isspace c = true) ws.
Proof.
  induction s as [|c s (ws & IH & Hws)]; simpl.
  - by exists [].
  - destruct (isspace c) eqn:E.
    + exists (c :: ws). split; [by rewrite IH at 1 | by constructor].
    + by exists [].
Qed.





Lemma lstrip_fixed s : (∀ c s', s = c :: s' → isspace c = false) → lstrip s = s.
Proof. destruct s as [|c s]; [done|]. intros H. simpl. by rewrite (H c s). Qed.

Lemma lstrip_head s c s' : lstrip s = c :: s' → isspace c = false.
Proof.
  induction s as [|a s IH]; simpl; [done|].
  destruct (isspace a) eqn:E; [done|]. by intros [= <- <-].
Qed.

Lemma lstrip_idemp s : lstrip (lstrip s) = lstrip s.
Proof. apply lstrip_fixed. intros c s'. apply lstrip_head. Qed.

Lemma strip_idemp s : strip (strip s) = strip s.
Proof.
  unfold strip, rstrip.
  set (u := lstrip s). set (t := lstrip (rev u)).
  assert (lstrip (rev t) = rev t) as H1.
  { apply lstrip_fixed. intros c s' Hc.
    destruct (lstrip_split (rev u)) as (ws & Heq & _). fold t in Heq.
    assert (u = c :: s' ++ rev ws) as Hu.
    { rewrite <- (rev_involutive u), Heq, rev_app_distr, Hc. done. }
    by apply (lstrip_head s c (s' ++ rev ws)). }
  rewrite H1, rev_involutive. subst t. by rewrite lstrip_idemp.
Qed.

Definition lowered (c : ascii) : Prop := lower_char c = c.

Lemma lower_fixed s : lower s = s ↔ Forall lowered s.
Proof.
  induction s as [|c s IH]; simpl.
  - split; [constructor | done].
  - split.
    + intros [= Hc Hs]. constructor; [done | by apply IH].
    + intros [Hc Hs]%Forall_cons_1. f_equal; [done | by apply IH].
Qed.

Lemma lower_lowered s : Forall lowered (lower s).
Proof. apply lower_fixed, lower_idemp. Qed.

End PyStr.

(** ** Python floats: [float(text)], [str(x)], [max], [min] *)

Module PyFloat.
Import PyStr.

Definition is_digit (c : ascii) : bool := in_range 48 57 c.
Definition digit_val (c : ascii) : Z := Z.of_N (code c) - 48.

Definition is_char (a c : ascii) : bool := Ascii.eqb a c.

(** The builtin first maps the two spaces above U+007F to [' ']; any other
    character from U+007F on, and NUL, makes the text invalid. *)
Definition to_ascii (s : str) : option str :=
  if forallb (fun c => (in_range 1 126 c) || (code c =? 133)%N || (code c =? 160)%N) s
  then Some (map (fun c => if in_range 1 126 c then c else " "%char) s)
  else None.

(** An underscore is allowed between two digits only. *)
Fixpoint underscores_ok (prev : ascii) (s : str) : bool :=
  match s with
  | [] => negb (is_char "_" prev)
  | c :: s' =>
      (if is_char "_" c then is_digit prev
       else if is_char "_" prev then is_digit c else true)
      && underscores_ok c s'
  end.

Definition drop_underscores (s : str) : str := filter (fun c => is_char "_" c = false) s.

(** The white space the number parser strips: TAB..CR and SPACE. *)
Definition is_cspace (c : ascii) : bool := in_range 9 13 c || is_char " " c.

Fixpoint lstrip_c (s : str) : str :=
  match s with
  | c :: s' => if is_cspace c then lstrip_c s' else s
  | [] => []
  end.

Definition strip_c (s : str) : str := rev (lstrip_c (rev (lstrip_c s))).

Fixpoint span_digits (s : str) : str * str :=
  match s with
  | c :: s' => if is_digit c then let (d, r) := span_digits s' in (c :: d, r) else ([], s)
  | [] => ([], [])
  end.

Definition parse_sign (s : str) : bool * str :=
  match s with
  | c :: r => if is_char "-" c then (true, r) else if is_char "+" c then (false, r) else (false, s)
  | [] => (false, [])
  end.

Definition digits_to_Z (ds : str) : Z := fold_left (fun acc c => 10 * acc + digit_val c) ds 0.

(** The unsigned decimal grammar
    [digits ['.' [digits]] | '.' digits] [('e'|'E') ['+'|'-'] digits],
    all of the text consumed: the digits as one integer and the power of ten
    that scales it. *)
Definition parse_decimal (s : str) : option (Z * Z) :=
  let (ip, r1) := span_digits s in
  let (fp, r2) := match r1 with
                  | c :: r => if is_char "." c then span_digits r else ([], r1)
                  | [] => ([], [])
                  end in
  match ip ++ fp with
  | [] => None
  | ds =>
      let m := digits_to_Z ds in
      let f := Z.of_nat (length fp) in
      match r2 with
      | [] => Some (m, - f)
      | c :: r3 =>
          if is_char "e" c || is_char "E" c then
            let (eneg, r4) := parse_sign r3 in
            let (ed, r5) := span_digits r4 in
            match ed, r5 with
            | _ :: _, [] => Some (m, (if eneg then - digits_to_Z ed else digits_to_Z ed) - f)
            | _, _ => None
            end
          else None
      end
  end.

(** The binary64 number nearest to [p / q] for [0 < p] and [0 < q], ties to
    the even significand; infinity from [2 ^ 1024] on. *)
Definition round_ratio (p q : Z) : spec_float :=
  let k := Z.log2 p - Z.log2 q in
  let lg := if (if 0 <=? k then q * 2 ^ k <=? p else q <=? p * 2 ^ (- k)) then k else k - 1 in
  let e := Z.max (lg - 52) (-1074) in
  let num := if 0 <=? e then p else p * 2 ^ (- e) in
  let den := if 0 <=? e then q * 2 ^ e else q in
  let m0 := num / den in
  let r := num mod den in
  let m1 := if (den <? 2 * r) || ((den =? 2 * r) && Z.odd m0) then m0 + 1 else m0 in
  let '(m, e) := if m1 =? 2 ^ 53 then (2 ^ 52, e + 1) else (m1, e) in
  match m with
  | Zpos mp => if e <=? 971 then S754_finite false mp e else S754_infinity false
  | _ => S754_zero false
  end.

Definition with_sign (neg : bool) (x : spec_float) : spec_float :=
  if neg then SFopp x else x.

(** The value of the decimal [m * 10 ^ d], correctly rounded; a power of ten
    far outside the binary64 range is settled without being computed. *)
Definition of_decimal (neg : bool) (m d : Z) : float :=
  SF2Prim (with_sign neg
    (if m <=? 0 then S754_zero false
     else if 400 <? d then S754_infinity false
     else if 3 * d <? - (1077 + Z.log2 m) then S754_zero false
     else if 0 <=? d then round_ratio (m * 10 ^ d) 1
     else round_ratio m (10 ^ (- d)))).

Definition parse_inf_nan (s : str) : option float :=
  let (neg, r) := parse_sign s in
  let w := key (lower r) in
  if (String.eqb w "inf" || String.eqb w "infinity")%string
  then Some (if neg then neg_infinity else infinity)
  else if String.eqb w "nan" then Some nan
  else None.

(** [float(text)]; [None] stands for the [ValueError] the builtin raises. *)
Definition float_of_str (s : str) : option float :=
  s1 ← to_ascii s;
  s2 ← (if existsb (is_char "_") s1
        then (if underscores_ok "000" s1 then Some (drop_underscores s1) else None)
        else Some s1);
  let s3 := strip_c s2 in
  let (neg, r) := parse_sign s3 in
  match parse_decimal r with
  | Some (m, d) => Some (of_decimal neg m d)
  | None => parse_inf_nan s3
  end.

(** [10 ^ k <= p / q] *)
Definition pow10_le (p q k : Z) : bool :=
  if 0 <=? k then q * 10 ^ k <=? p else q <=? p * 10 ^ (- k).

(** The largest of [k, k-1, ...] (at most [fuel] of them) with
    [10 ^ k <= p / q]. *)
Fixpoint floor_log10_from (fuel : nat) (p q k : Z) : Z :=
  match fuel with
  | O => k
  | S f => if pow10_le p q k then k else floor_log10_from f p q (k - 1)
  end.

(** [floor (log10 (p / q))] for [0 < p] and [0 < q]. *)
Definition floor_log10 (p q : Z) : Z :=
  floor_log10_from 8 p q ((Z.log2 p - Z.log2 q) * 30103 / 100000 + 2).

Fixpoint digits_go (fuel : nat) (n : Z) (acc : str) : str :=
  match fuel with
  | O => acc
  | S f =>
      let acc' := ascii_of_N (48 + Z.to_N (n mod 10)) :: acc in
      if n <? 10 then acc' else digits_go f (n / 10) acc'
  end.

(** The decimal digits of [n >= 0]. *)
Definition digits_of_Z (n : Z) : str := digits_go (S (Z.to_nat (Z.log2 n))) n [].

Fixpoint rstrip_zeros_rev (r : str) : str :=
  match r with
  | c :: r' => if is_char "0" c then rstrip_zeros_rev r' else r
  | [] => []
  end.

(** Does the decimal [d * 10 ^ k] read back as [x]? *)
Definition reads_back (x : float) (d k : Z) : bool :=
  PrimFloat.eqb (of_decimal false d k) x.

(** The shortest decimal that reads back as the positive finite [x = p / q]:
    for 1, 2, ... 17 digits the two decimals of that length around [x] are
    tried, the nearer one first (the even one on a tie).  The result is the
    digit string without trailing zeros and the position of the decimal
    point relative to its start. *)
Fixpoint shortest_from (fuel : nat) (x : float) (p q lg : Z) (n : Z) : str * Z :=
  let k := lg - n + 1 in
  let num := if 0 <=? k then p else p * 10 ^ (- k) in
  let den := if 0 <=? k then q * 10 ^ k else q in
  let d := num / den in
  let r := num mod den in
  let up_first := (den <? 2 * r) || ((den =? 2 * r) && Z.odd d) in
  let pick (c : Z) :=
    let ds := digits_of_Z c in
    (rev (rstrip_zeros_rev (rev ds)), Z.of_nat (length ds) + k) in
  let lo_ok := reads_back x d k in
  let hi_ok := negb (r =? 0) && reads_back x (d + 1) k in
  match fuel with
  | O => pick (if up_first then d + 1 else d)
  | S f =>
      if lo_ok && hi_ok then pick (if up_first then d + 1 else d)
      else if lo_ok then pick d
      else if hi_ok then pick (d + 1)
      else shortest_from f x p q lg (n + 1)
  end.

Definition shortest_digits (x : float) (m : positive) (e : Z) : str * Z :=
  let p := if 0 <=? e then Zpos m * 2 ^ e else Zpos m in
  let q := if 0 <=? e then 1 else 2 ^ (- e) in
  shortest_from 16 x p q (floor_log10 p q) 1.

(** [repr] of a positive finite float from its shortest digits [ds] and the
    decimal point position [decpt]: exponent notation when
    [decpt <= -4] or [decpt > 16], positional notation otherwise. *)
Definition format_repr (ds : str) (decpt : Z) : str :=
  let n := Z.of_nat (length ds) in
  if (decpt <=? -4) || (16 <? decpt) then
    let ex := decpt - 1 in
    let exd := digits_of_Z (Z.abs ex) in
    take 1 ds ++ (if 1 <? n then L "." ++ drop 1 ds else [])
    ++ L "e" ++ (if ex <? 0 then L "-" else L "+")
    ++ (if Z.abs ex <? 10 then L "0" else []) ++ exd
  else if decpt <=? 0 then
    L "0." ++ replicate (Z.to_nat (- decpt)) "0"%char ++ ds
  else if decpt <? n then
    take (Z.to_nat decpt) ds ++ L "." ++ drop (Z.to_nat decpt) ds
  else
    ds ++ replicate (Z.to_nat (decpt - n)) "0"%char ++ L ".0".

(** [str(x)] for a float [x] (the same text as [repr(x)]). *)
Definition str_of_float (x : float) : str :=
  match Prim2SF x with
  | S754_nan => L "nan"
  | S754_infinity s => (if s then L "-" else []) ++ L "inf"
  | S754_zero s => (if s then L "-" else []) ++ L "0.0"
  | S754_finite s m e =>
      let (ds, decpt) := shortest_digits (abs x) m e in
      (if s then L "-" else []) ++ format_repr ds decpt
  end.

(** [max(values)] and [min(values)] on a list of floats: the first element is
    kept until a later one compares strictly greater (smaller); [None]
    stands for the [ValueError] raised on an empty list. *)
Definition py_max (values : list float) : option float :=
  match values with
  | [] => None
  | v :: vs => Some (fold_left (fun best x => if PrimFloat.ltb best x then x else best) vs v)
  end.

Definition py_min (values : list float) : option float :=
  match values with
  | [] => None
  | v :: vs => Some (fold_left (fun best x => if PrimFloat.ltb x best then x else best) vs v)
  end.

(** [float(n)] for an int [n]: the nearest binary64 number. *)
Definition float_of_int (n : Z) : float :=
  if n =? 0 then 0%float else of_decimal (n <? 0) (Z.abs n) 0.

(** [int(x)]: the float cut off towards zero; it raises on NaN and on the
    infinities. *)
Definition int_of_float (x : float) : outcome Z :=
  match Prim2SF x with
  | S754_zero _ => Return 0
  | S754_finite s m e =>
      let n := if 0 <=? e then Zpos m * 2 ^ e else Zpos m / 2 ^ (- e) in
      Return (if s then - n else n)
  | S754_infinity _ => Raise (OtherError "cannot convert float infinity to integer")
  | S754_nan => Raise (ValueError "cannot convert float NaN to integer")
  end.

(** [x / y] on floats: a [ZeroDivisionError] for a zero divisor. *)
Definition float_div (x y : float) : outcome float :=
  if PrimFloat.eqb y 0 then Raise (OtherError "float division by zero")
  else Return (x / y)%float.

(** [format(x, '.Ne')]: one digit, [n] more digits after the point, and the
    exponent with a sign and at least two digits; the [n + 1] digits are
    those of the decimal nearest to [x], the even one on a tie. *)
Definition format_e (n : nat) (x : float) : str :=
  let zeros := (if (0 <? n)%nat then L "." ++ replicate n "0"%char else []) in
  match Prim2SF x with
  | S754_nan => L "nan"
  | S754_infinity s => (if s then L "-" else []) ++ L "inf"
  | S754_zero s => (if s then L "-" else []) ++ L "0" ++ zeros ++ L "e+00"
  | S754_finite s m e =>
      let p := if 0 <=? e then Zpos m * 2 ^ e else Zpos m in
      let q := if 0 <=? e then 1 else 2 ^ (- e) in
      let lg := floor_log10 p q in
      let k := lg - Z.of_nat n in
      let num := if 0 <=? k then p else p * 10 ^ (- k) in
      let den := if 0 <=? k then q * 10 ^ k else q in
      let d0 := num / den in
      let r := num mod den in
      let d1 := if (den <? 2 * r) || ((den =? 2 * r) && Z.odd d0) then d0 + 1 else d0 in
      let '(d, ex) := if d1 =? 10 ^ (Z.of_nat n + 1) then (10 ^ Z.of_nat n, lg + 1)
                      else (d1, lg) in
      let ds := digits_of_Z d in
      (if s then L "-" else []) ++ take 1 ds
      ++ (if (0 <? n)%nat then L "." ++ drop 1 ds else [])
      ++ L "e" ++ (if ex <? 0 then L "-" else L "+")
      ++ (if Z.abs ex <? 10 then L "0" else []) ++ digits_of_Z (Z.abs ex)
  end.

(** *** The characters of [str(x)] *)












Lemma py_max_elem values v : py_max values = Some v → v ∈ values.
Proof.
  destruct values as [|w ws]; [done|]. simpl. intros [= <-].
  revert w. induction ws as [|x ws IH]; intros w; simpl; [apply list_elem_of_here|].
  specialize (IH (if PrimFloat.ltb w x then x else w)).
  apply elem_of_cons in IH as [->|IH].
  - destruct (PrimFloat.ltb w x); [right; left | left].
  - by right; right.
Qed.


End PyFloat.

(** ** The order of binary64 numbers *)

Module FloatOrder.

Definition K : Z := 2 ^ 53.

(** The place of a binary64 number on the number line, as an integer: the
    finite numbers of one sign are ordered by exponent first and by
    significand next, the infinities lie beyond them, and both zeros are at
    0.  (NaN is given 0 and has no place in the order.) *)
Definition rank (x : spec_float) : Z :=
  match x with
  | S754_zero _ => 0
  | S754_nan => 0
  | S754_infinity s => if s then - (4000 * K) else 4000 * K
  | S754_finite s m e =>
      if s then - ((e + 1075) * K + Zpos m) else (e + 1075) * K + Zpos m
  end.

Definition not_nan (x : spec_float) : Prop := x ≠ S754_nan.

Lemma digits2_pos_upper p : Zpos p < 2 ^ Zpos (digits2_pos p).
Proof.
  induction p as [p IH|p IH|]; simpl digits2_pos.
  - rewrite Pos2Z.inj_succ, Z.pow_succ_r by lia. lia.
  - rewrite Pos2Z.inj_succ, Z.pow_succ_r by lia. lia.
  - reflexivity.
Qed.

Lemma digits2_pos_lower p : 2 ^ (Zpos (digits2_pos p) - 1) ≤ Zpos p.
Proof.
  induction p as [p IH|p IH|]; simpl digits2_pos.
  - rewrite Pos2Z.inj_succ. replace (Z.succ (Z.pos (digits2_pos p)) - 1)
      with (Z.succ (Z.pos (digits2_pos p) - 1)) by lia.
    rewrite Z.pow_succ_r by lia. lia.
  - rewrite Pos2Z.inj_succ. replace (Z.succ (Z.pos (digits2_pos p)) - 1)
      with (Z.succ (Z.pos (digits2_pos p) - 1)) by lia.
    rewrite Z.pow_succ_r by lia. lia.
  - reflexivity.
Qed.

(** A valid finite number has a significand below [2 ^ 53] and an exponent
    between -1074 and 971. *)
Lemma valid_finite s m e :
  valid_binary (S754_finite s m e) = true →
  Zpos m < K ∧ -1074 ≤ e ≤ 971 ∧ fexp prec emax (Zpos (digits2_pos m) + e) = e.
Proof.
  unfold valid_binary, bounded, canonical_mantissa.
  intros [H1%Z.eqb_eq H2%Z.leb_le]%andb_prop.
  unfold fexp, SpecFloat.emin, emax, prec in *.
  split_and!; [|lia..|done].
  pose proof (digits2_pos_upper m) as Hm.
  assert (Zpos (digits2_pos m) ≤ 53) as Hd by lia.
  eapply Z.lt_le_trans; [exact Hm|]. apply Z.pow_le_mono_r; lia.
Qed.

Lemma K_value : K = 9007199254740992.
Proof. reflexivity. Qed.

Ltac rank_lia := rewrite ?K_value in *; lia.

Lemma Pos_compare_cont_Eq m1 m2 : Pos.compare_cont Eq m1 m2 = (Zpos m1 ?= Zpos m2).
Proof. reflexivity. Qed.

Lemma Z_compare_case (a b : Z) (c : comparison) :
  match c with Lt => a < b | Eq => a = b | Gt => b < a end → (a ?= b) = c.
Proof.
  destruct c; [apply Z.compare_eq_iff | apply Z.compare_lt_iff | apply Z.compare_gt_iff].
Qed.

(** On valid numbers other than NaN, the comparison of IEEE 754 is the
    comparison of the ranks. *)
Lemma SFcompare_rank x y :
  valid_binary x = true → valid_binary y = true → not_nan x → not_nan y →
  SFcompare x y = Some (rank x ?= rank y).
Proof.
  intros Hx Hy Nx Ny.
  destruct x as [sx|sx| |sx mx ex], y as [sy|sy| |sy my ey]; try done;
    try (apply valid_finite in Hx as (Hx1 & Hx2 & _));
    try (apply valid_finite in Hy as (Hy1 & Hy2 & _));
    cbn [SFcompare rank]; f_equal; symmetry;
    try (destruct sx; try destruct sy; apply Z_compare_case; rank_lia);
    try (destruct sy; apply Z_compare_case; rank_lia).
  rewrite Pos_compare_cont_Eq.
  destruct sx, sy; try (apply Z_compare_case; rank_lia).
  - destruct (Z.compare_spec ex ey) as [->|H|H]; [|apply Z_compare_case; rank_lia..].
    destruct (Z.compare_spec (Zpos mx) (Zpos my)) as [E|E|E];
      simpl; apply Z_compare_case; rank_lia.
  - destruct (Z.compare_spec ex ey) as [->|H|H]; [|apply Z_compare_case; rank_lia..].
    destruct (Z.compare_spec (Zpos mx) (Zpos my)) as [E|E|E];
      apply Z_compare_case; rank_lia.
Qed.

(** *** The order on primitive floats *)

Definition frank (x : float) : Z := rank (Prim2SF x).

Lemma is_nan_spec x : is_nan x = true ↔ Prim2SF x = S754_nan.
Proof.
  unfold is_nan. rewrite FloatAxioms.eqb_spec. unfold SFeqb.
  destruct (Prim2SF x) as [s|s| |s m e] eqn:E.
  - split; [done|done].
  - destruct s; split; done.
  - split; done.
  - rewrite SFcompare_rank; [|rewrite <- E; apply Prim2SF_valid..|done|done].
    rewrite Z.compare_refl. split; done.
Qed.

Lemma is_nan_false x : is_nan x = false ↔ not_nan (Prim2SF x).
Proof.
  unfold not_nan. rewrite <- is_nan_spec. destruct (is_nan x); split; congruence.
Qed.

Lemma compare_rank x y :
  is_nan x = false → is_nan y = false →
  SFcompare (Prim2SF x) (Prim2SF y) = Some (frank x ?= frank y).
Proof.
  intros Hx%is_nan_false Hy%is_nan_false.
  apply SFcompare_rank; [apply Prim2SF_valid..|done|done].
Qed.

Lemma ltb_rank x y :
  is_nan x = false → is_nan y = false → PrimFloat.ltb x y = (frank x <? frank y).
Proof.
  intros Hx Hy. rewrite FloatAxioms.ltb_spec. unfold SFltb. rewrite compare_rank by done.
  unfold Z.ltb. by destruct (frank x ?= frank y).
Qed.

Lemma leb_rank x y :
  is_nan x = false → is_nan y = false → PrimFloat.leb x y = (frank x <=? frank y).
Proof.
  intros Hx Hy. rewrite FloatAxioms.leb_spec. unfold SFleb. rewrite compare_rank by done.
  unfold Z.leb. by destruct (frank x ?= frank y).
Qed.

Lemma ltb_true x y :
  PrimFloat.ltb x y = true ↔ is_nan x = false ∧ is_nan y = false ∧ frank x < frank y.
Proof.
  split.
  - intros H. assert (is_nan x = false ∧ is_nan y = false) as [Hx Hy].
    { rewrite FloatAxioms.ltb_spec in H. unfold SFltb in H.
      split; apply is_nan_false; intros E; rewrite E in H; [done|].
      by destruct (Prim2SF x). }
    split_and!; [done..|]. rewrite ltb_rank in H by done. lia.
  - intros (Hx & Hy & H). rewrite ltb_rank by done. lia.
Qed.

Lemma leb_true x y :
  PrimFloat.leb x y = true ↔ is_nan x = false ∧ is_nan y = false ∧ frank x ≤ frank y.
Proof.
  split.
  - intros H. assert (is_nan x = false ∧ is_nan y = false) as [Hx Hy].
    { rewrite FloatAxioms.leb_spec in H. unfold SFleb in H.
      split; apply is_nan_false; intros E; rewrite E in H; [done|].
      by destruct (Prim2SF x). }
    split_and!; [done..|]. rewrite leb_rank in H by done. lia.
  - intros (Hx & Hy & H). rewrite leb_rank by done. lia.
Qed.

(** *** Rounding never goes past a representable bound *)

Lemma shr_1_m mrs : 0 ≤ shr_m mrs → shr_m (shr_1 mrs) = shr_m mrs / 2.
Proof.
  destruct mrs as [m r s]. cbn [shr_m]. intros H.
  destruct m as [|[p|p|]|p]; cbn [shr_1 shr_m];
    first [ reflexivity | lia | apply Z.div_unique with 1; lia | apply Z.div_unique with 0; lia ].
Qed.

Lemma iter_shr_1_m p : ∀ mrs,
  0 ≤ shr_m mrs → shr_m (SpecFloat.iter_pos shr_1 p mrs) = shr_m mrs / 2 ^ Zpos p.
Proof.
  assert (∀ a b c, 0 < b → 0 < c → a / b / c = a / (b * c)) as Hdd.
  { intros a b c Hb Hc. rewrite Z.div_div; lia. }
  assert (∀ a b, 0 ≤ a → 0 < b → 0 ≤ a / b) as Hpos.
  { intros a b Ha Hb. apply Z.div_pos; lia. }
  assert (∀ q, 0 < 2 ^ Zpos q) as Hpow by (intros q; apply Z.pow_pos_nonneg; lia).
  induction p as [p IH|p IH|]; intros mrs Hm; cbn [SpecFloat.iter_pos].
  - assert (0 ≤ shr_m (shr_1 mrs)) as H1 by (rewrite shr_1_m by done; apply Hpos; lia).
    assert (0 ≤ shr_m (SpecFloat.iter_pos shr_1 p (shr_1 mrs))) as H2
      by (rewrite IH by done; apply Hpos; [lia | apply Hpow]).
    rewrite IH, IH, shr_1_m by done.
    rewrite !Hdd by (try apply Z.mul_pos_pos; first [lia | apply Hpow]). f_equal.
    replace (Z.pos p~1) with (1 + Z.pos p + Z.pos p) by lia.
    rewrite !Z.pow_add_r, Z.pow_1_r by lia. lia.
  - assert (0 ≤ shr_m (SpecFloat.iter_pos shr_1 p mrs)) as H2
      by (rewrite IH by done; apply Hpos; [lia | apply Hpow]).
    rewrite IH, IH by done.
    rewrite !Hdd by apply Hpow. f_equal.
    replace (Z.pos p~0) with (Z.pos p + Z.pos p) by lia.
    rewrite !Z.pow_add_r by lia. lia.
  - by rewrite shr_1_m.
Qed.

(** [shr] divides the significand by a power of two, rounding down. *)
Lemma shr_spec m l e n :
  0 ≤ m →
  ∃ mrs, shr (shr_record_of_loc m l) e n = (mrs, e + Z.max n 0)
         ∧ shr_m mrs = m / 2 ^ Z.max n 0.
Proof.
  intros Hm.
  assert (shr_m (shr_record_of_loc m l) = m) as Hrec by (by destruct l as [|[]]).
  destruct n as [|p|p]; simpl shr.
  - eexists. split; [f_equal; lia|]. by rewrite Hrec, Z.div_1_r.
  - eexists. split; [f_equal; lia|]. rewrite iter_shr_1_m by lia. by rewrite Hrec.
  - eexists. split; [f_equal; lia|]. by rewrite Hrec, Z.div_1_r.
Qed.

Lemma round_nearest_even_bounds m l :
  m ≤ round_nearest_even m l ≤ m + 1.
Proof. destruct l as [|[]]; simpl; try lia. destruct (Z.even m); lia. Qed.

Lemma Zdigits2_upper m : 0 ≤ m → m < 2 ^ Zdigits2 m.
Proof.
  destruct m as [|p|p]; simpl; [lia| |lia]. intros _. apply digits2_pos_upper.
Qed.

Lemma Zdigits2_lower m : 0 < m → 2 ^ (Zdigits2 m - 1) ≤ m.
Proof. destruct m as [|p|p]; simpl; [lia| |lia]. intros _. apply digits2_pos_lower. Qed.

Lemma Zdigits2_nonneg m : 0 ≤ Zdigits2 m.
Proof. destruct m; simpl; lia. Qed.

(** A smaller number has no more digits, the exponents taken into account. *)
Lemma Zdigits2_mono a b d :
  0 < a → 0 < b → 0 ≤ d → a ≤ b * 2 ^ d → Zdigits2 a ≤ Zdigits2 b + d.
Proof.
  intros Ha Hb Hd Hab.
  pose proof (Zdigits2_lower a Ha) as H1. pose proof (Zdigits2_upper b ltac:(lia)) as H2.
  pose proof (Zdigits2_nonneg a). pose proof (Zdigits2_nonneg b).
  assert (2 ^ (Zdigits2 a - 1) < 2 ^ (Zdigits2 b + d)) as Hlt.
  { rewrite Z.pow_add_r by lia.
    assert (0 < 2 ^ d) by (apply Z.pow_pos_nonneg; lia). nia. }
  apply Z.pow_lt_mono_r_iff in Hlt; lia.
Qed.

Lemma shr_fexp_spec m e l :
  0 ≤ m →
  ∃ mrs, shr_fexp prec emax m e l = (mrs, Z.max e (fexp prec emax (Zdigits2 m + e)))
         ∧ shr_m mrs = m / 2 ^ (Z.max e (fexp prec emax (Zdigits2 m + e)) - e).
Proof.
  intros Hm. unfold shr_fexp.
  destruct (shr_spec m l e (fexp prec emax (Zdigits2 m + e) - e) Hm) as (mrs & -> & Hmrs).
  exists mrs. split; [f_equal; lia|]. rewrite Hmrs. do 2 f_equal. lia.
Qed.

Lemma fexp_mono a b : a ≤ b → fexp prec emax a ≤ fexp prec emax b.
Proof. unfold fexp. lia. Qed.

Lemma pow2_pos k : 0 < 2 ^ k ∨ k < 0.
Proof. destruct (Z.le_gt_cases 0 k); [left; by apply Z.pow_pos_nonneg | by right]. Qed.

Lemma pow2_split a b : 0 ≤ a → 0 ≤ b → 2 ^ (a + b) = 2 ^ a * 2 ^ b.
Proof. intros. by apply Z.pow_add_r. Qed.

(** The product of a positive number below [M * 2 ^ EX], rounded to nearest,
    is zero or a finite number that does not lie beyond the representable
    [M * 2 ^ EX]. *)
Lemma binary_round_aux_le s P E0 M EX :
  0 < P → E0 ≤ EX →
  valid_binary (S754_finite false M EX) = true →
  P < Zpos M * 2 ^ (EX - E0) →
  binary_round_aux prec emax s P E0 loc_Exact = S754_zero s
  ∨ ∃ m e, binary_round_aux prec emax s P E0 loc_Exact = S754_finite s m e
           ∧ -1074 ≤ e
           ∧ (e + 1075) * K + Zpos m ≤ (EX + 1075) * K + Zpos M.
Proof.
  intros HP HE (HM & HEX & Hcan)%valid_finite Hlt.
  unfold binary_round_aux.
  destruct (shr_fexp_spec P E0 loc_Exact ltac:(lia)) as (mrs1 & -> & Hm1).
  set (e1 := Z.max E0 (fexp prec emax (Zdigits2 P + E0))) in *.
  set (m1 := shr_m mrs1) in *.
  assert (e1 ≤ EX) as He1.
  { subst e1. apply Z.max_lub; [done|]. rewrite <- Hcan. apply fexp_mono.
    pose proof (Zdigits2_mono P (Zpos M) (EX - E0)) as H. simpl Zdigits2 in H at 2. lia. }
  assert (E0 ≤ e1) as He1' by (subst e1; lia).
  assert (0 < 2 ^ (e1 - E0)) as Hp1 by (apply Z.pow_pos_nonneg; lia).
  assert (0 ≤ m1 ∧ m1 < Zpos M * 2 ^ (EX - e1)) as [Hm1a Hm1b].
  { rewrite Hm1. split; [apply Z.div_pos; lia|].
    apply Z.div_lt_upper_bound; [done|].
    replace (EX - E0) with ((e1 - E0) + (EX - e1)) in Hlt by lia.
    rewrite pow2_split in Hlt by lia. lia. }
  pose proof (round_nearest_even_bounds m1 (loc_of_shr_record mrs1)) as Hr.
  fold m1. set (m2 := round_nearest_even m1 (loc_of_shr_record mrs1)) in *.
  destruct (shr_fexp_spec m2 e1 loc_Exact ltac:(lia)) as (mrs2 & -> & Hm3).
  set (e2 := Z.max e1 (fexp prec emax (Zdigits2 m2 + e1))) in *.
  destruct (Z.eq_dec m2 0) as [Hz|Hnz].
  { left. cbv beta iota. rewrite Hm3, Hz. rewrite Z.div_0_l; [done|].
    assert (0 < 2 ^ (e2 - e1)); [apply Z.pow_pos_nonneg; subst e2; lia | lia]. }
  assert (e2 ≤ EX) as He2.
  { subst e2. apply Z.max_lub; [done|]. rewrite <- Hcan. apply fexp_mono.
    pose proof (Zdigits2_mono m2 (Zpos M) (EX - e1)) as H. simpl Zdigits2 in H at 2. lia. }
  assert (e1 ≤ e2) as He2' by (subst e2; lia).
  assert (0 < 2 ^ (e2 - e1)) as Hp2 by (apply Z.pow_pos_nonneg; lia).
  assert (0 ≤ shr_m mrs2 ∧ shr_m mrs2 ≤ Zpos M * 2 ^ (EX - e2) ∧ shr_m mrs2 < K)
    as (Hm3a & Hm3b & Hm3c).
  { rewrite Hm3. split_and!.
    - apply Z.div_pos; lia.
    - apply Z.div_le_upper_bound; [done|].
      replace (EX - e1) with ((e2 - e1) + (EX - e2)) in Hm1b by lia.
      rewrite pow2_split in Hm1b by lia. lia.
    - apply Z.div_lt_upper_bound; [done|].
      pose proof (Zdigits2_upper m2 ltac:(lia)) as Hu.
      pose proof (Zdigits2_nonneg m2) as Hd.
      assert (Zdigits2 m2 ≤ (e2 - e1) + 53) as Hdg.
      { subst e2. unfold fexp, prec. lia. }
      eapply Z.lt_le_trans; [exact Hu|].
      unfold K. rewrite <- pow2_split by lia. apply Z.pow_le_mono_r; lia. }
  cbv beta iota.
  destruct (shr_m mrs2) as [|m3|m3] eqn:E3; [by left| |exfalso; clear -Hm3a; lia].
  right. exists m3, e2. split_and!.
  - replace (e2 <=? emax - prec) with true; [done|].
    symmetry. apply Z.leb_le. unfold emax, prec. lia.
  - subst e2. unfold fexp, SpecFloat.emin, emax, prec. lia.
  - destruct (Z.eq_dec e2 EX) as [->|Hne].
    + rewrite Z.sub_diag, Z.pow_0_r in Hm3b. lia.
    + rewrite K_value in *. lia.
Qed.

(** *** Scaling by a factor between 0 and 1 *)

Lemma is_finite_spec x :
  is_finite x = true ↔
  match Prim2SF x with S754_zero _ | S754_finite _ _ _ => True | _ => False end.
Proof.
  unfold is_finite, is_infinity.
  destruct (is_nan x) eqn:En.
  - apply is_nan_spec in En. rewrite En. split; done.
  - simpl. rewrite FloatAxioms.eqb_spec, abs_spec. apply is_nan_false in En.
    change (Prim2SF infinity) with (S754_infinity false).
    destruct (Prim2SF x) as [s|s| |s m e]; simpl; try done.
Qed.


Lemma is_nan_abs x : is_nan (abs x) = is_nan x.
Proof.
  destruct (is_nan x) eqn:E.
  - apply is_nan_spec. rewrite abs_spec. apply is_nan_spec in E. by rewrite E.
  - apply is_nan_false. apply is_nan_false in E. unfold not_nan in *.
    rewrite abs_spec. by destruct (Prim2SF x).
Qed.

Lemma frank_zero : frank 0 = 0.
Proof. reflexivity. Qed.

Lemma frank_one : frank 1 = 1023 * K + 4503599627370496.
Proof. reflexivity. Qed.

(** A valid number from 0 up to, but not reaching, 1 is a zero or has an
    exponent of at most -53. *)
Lemma below_one_spec y :
  valid_binary y = true → not_nan y → 0 ≤ rank y → rank y < 1023 * K + 4503599627370496 →
  (∃ s, y = S754_zero s)
  ∨ ∃ m e, y = S754_finite false m e ∧ e ≤ -53 ∧ Zpos m < K.
Proof.
  intros Hv Hn H0 H1. destruct y as [s|s| |s m e]; [by eauto | | done |].
  - exfalso. destruct s; simpl in *; rewrite K_value in *; lia.
  - right. pose proof Hv as (Hm & He & Hcan)%valid_finite.
    destruct s; simpl in H0, H1; [rewrite K_value in *; lia|].
    exists m, e. split_and!; [done| |done].
    destruct (Z.le_gt_cases e (-53)) as [|Hgt]; [done|]. exfalso.
    assert (e = -52) as -> by (rewrite K_value in *; lia).
    assert (Zpos m < 2 ^ 52) as Hlt by (rewrite K_value in *; lia).
    pose proof (digits2_pos_lower m) as Hd.
    assert (Zpos (digits2_pos m) - 1 < 52) as Hd'.
    { apply (Z.pow_lt_mono_r_iff 2); lia. }
    unfold fexp, SpecFloat.emin, emax, prec in Hcan. lia.
Qed.

(** Multiplying a finite number by a factor in [0, 1) gives a number between
    0 and the number itself. *)
Lemma mul_shrinks x e :
  is_finite x = true → PrimFloat.leb 0 e = true → PrimFloat.ltb e 1 = true →
  is_nan (x * e) = false
  ∧ (0 ≤ frank x → 0 ≤ frank (x * e) ≤ frank x)
  ∧ (frank x ≤ 0 → frank x ≤ frank (x * e) ≤ 0).
Proof.
  intros Hx%is_finite_spec (_ & He & H0)%leb_true (_ & _ & H1)%ltb_true.
  rewrite frank_zero in H0. rewrite frank_one in H1.
  rewrite is_nan_false. unfold frank in *. rewrite mul_spec.
  pose proof (Prim2SF_valid x) as Vx. pose proof (Prim2SF_valid e) as Ve.
  apply is_nan_false in He.
  destruct (below_one_spec _ Ve He H0 H1) as [[s ->]|(my & ey & -> & Hey & Hmy)].
  - destruct (Prim2SF x) as [sx|sx| |sx mx ex]; try done; simpl;
      (split; [done|]); pose proof K_value; destruct sx; lia.
  - destruct (Prim2SF x) as [sx|sx| |sx mx ex] eqn:Ex; [|done..|].
    { simpl. split; [done | lia]. }
    unfold SF64mul, SFmul. rewrite xorb_false_r.
    pose proof Vx as (Hmx & Hex & _)%valid_finite.
    destruct (binary_round_aux_le sx (Zpos (mx * my)) (ex + ey) mx ex)
      as [->|(m & e' & -> & Hlo & Hle)]; [lia | lia | done | | |].
    + replace (ex - (ex + ey)) with (- ey) by lia.
      assert (K ≤ 2 ^ (- ey)) by (unfold K; apply Z.pow_le_mono_r; lia).
      rewrite Pos2Z.inj_mul. nia.
    + simpl. split; [done|]. rewrite K_value in *. destruct sx; lia.
    + split; [done|]. simpl. rewrite K_value in *. destruct sx; lia.
Qed.

(** *** [x - x], [max] and [min] *)


Import PyFloat.





Lemma eqb_true x y :
  PrimFloat.eqb x y = true ↔ is_nan x = false ∧ is_nan y = false ∧ frank x = frank y.
Proof.
  split.
  - intros H. assert (is_nan x = false ∧ is_nan y = false) as [Hx Hy].
    { rewrite FloatAxioms.eqb_spec in H. unfold SFeqb in H.
      split; apply is_nan_false; intros E; rewrite E in H; [done|].
      by destruct (Prim2SF x). }
    split_and!; [done..|]. rewrite FloatAxioms.eqb_spec in H. unfold SFeqb in H.
    rewrite compare_rank in H by done.
    destruct (frank x ?= frank y) eqn:E; try done. by apply Z.compare_eq.
  - intros (Hx & Hy & H). rewrite FloatAxioms.eqb_spec. unfold SFeqb.
    rewrite compare_rank by done. by rewrite H, Z.compare_refl.
Qed.


(** The largest of some floats and a positive one is not a zero. *)
Lemma py_max_nonzero x y c scale :
  0 < frank c → is_nan c = false →
  py_max [x; y; c] = Some scale → PrimFloat.eqb scale 0 = false.
Proof.
  intros Hc Hn. simpl. intros [= <-]. set (b := if PrimFloat.ltb x y then y else x).
  destruct (PrimFloat.ltb b c) eqn:E.
  - destruct (PrimFloat.eqb c 0) eqn:E0; [|done].
    apply eqb_true in E0 as (_ & _ & E0). rewrite frank_zero in E0. lia.
  - destruct (PrimFloat.eqb b 0) eqn:E0; [|done].
    apply eqb_true in E0 as (Hb & _ & E0). rewrite frank_zero in E0.
    assert (PrimFloat.ltb b c = true) by (apply ltb_true; split_and!; [done..|lia]).
    congruence.
Qed.

End FloatOrder.

(** ** api.py: [evaluate_gpr_expression] *)

Module Gpr.
Import PyStr PyFloat.

Section Evaluate.

(** [expression]: gene id -> expression value. *)
Variable expression : gmap string float.

(** [get_gene_expr]: [expression.get(gene_id.strip(), 1.0)] *)
Definition get_gene_expr (gene_id : str) : float :=
  default 1%float (expression !! key (strip gene_id)).

(** The body of the nested function [evaluate] after its first statement
    [expr = expr.strip()].  One unit of [fuel] is spent on every call of
    [evaluate] and on every round of the [while] loop; the loop is the
    recursive call on the spliced text. *)
Fixpoint evaluate_body (fuel : nat) (expr : str) : outcome float :=
  match fuel with
  | O => Diverge
  | S k =>
      if contains (L "(") expr then
        let start := rfind (L "(") expr in
        let end_ := find (L ")") expr start in
        let inner := slice expr (start + 1) end_ in
        bind (evaluate_body k (strip inner)) (fun result =>
          evaluate_body k
            (slice_to expr start ++ str_of_float result ++ slice_from expr (end_ + 1)))
      else if contains (L " or ") (lower expr) then
        let parts := split (L " or ") (lower expr) in
        bind (collect (map (fun p => evaluate_body k (strip p)) parts)) (fun values =>
          of_option empty_sequence (py_max values))
      else if contains (L " and ") (lower expr) then
        let parts := split (L " and ") (lower expr) in
        bind (collect (map (fun p => evaluate_body k (strip p)) parts)) (fun values =>
          of_option empty_sequence (py_min values))
      else
        match float_of_str expr with
        | Some v => Return v
        | None => Return (get_gene_expr expr)
        end
  end.

(** [evaluate(expr)] *)
Definition evaluate (fuel : nat) (expr : str) : outcome float :=
  evaluate_body fuel (strip expr).

(** [evaluate_gpr_expression(gpr_rule, expression)]: an empty or blank rule
    is constitutive; whatever [evaluate] raises is turned into [1.0]. *)
Definition evaluate_gpr_expression (fuel : nat) (gpr_rule : str) : outcome float :=
  match gpr_rule, strip gpr_rule with
  | [], _ | _, [] => Return 1%float
  | _, _ =>
      match evaluate fuel gpr_rule with
      | Raise _ => Return 1%float
      | o => o
      end
  end.

End Evaluate.




(** Two expression maps that agree on every key that [lower] leaves as it
    is. *)
Definition agree_on_lower (m1 m2 : gmap string float) : Prop :=
  ∀ k : str, lower k = k → m1 !! key k = m2 !! key k.


(** A text that is one token: no parenthesis, no connective, and not a
    number for [float]. *)
Definition single_gene (expr : str) : Prop :=
  contains (L "(") expr = false ∧ contains (L " or ") (lower expr) = false
  ∧ contains (L " and ") (lower expr) = false ∧ float_of_str expr = None.

(** A text without parentheses that has a connective. *)
Definition compound_flat (expr : str) : Prop :=
  contains (L "(") expr = false
  ∧ (contains (L " or ") (lower expr) = true ∨ contains (L " and ") (lower expr) = true).

(** Two maps that differ on the upper-case key ["A"] only. *)
Definition upper_map_hi : gmap string float := <["A" := 0.9%float]> (<["b" := 0.5%float]> ∅).
Definition upper_map_lo : gmap string float := <["A" := 0.1%float]> (<["b" := 0.5%float]> ∅).

(** *** Facts about the evaluator *)

Section EvaluateFacts.
Context (m : gmap string float).

Definition no_lparen (s : str) : Prop := Forall (λ c, c ≠ "("%char) s.

Lemma evaluate_body_S fuel expr :
  evaluate_body m (S fuel) expr =
  if contains (L "(") expr then
    bind (evaluate_body m fuel
            (strip (slice expr (rfind (L "(") expr + 1)
                          (find (L ")") expr (rfind (L "(") expr)))))
      (λ result, evaluate_body m fuel
         (slice_to expr (rfind (L "(") expr) ++ str_of_float result
          ++ slice_from expr (find (L ")") expr (rfind (L "(") expr) + 1)))
  else if contains (L " or ") (lower expr) then
    bind (collect (map (λ p, evaluate_body m fuel (strip p)) (split (L " or ") (lower expr))))
      (λ values, of_option empty_sequence (py_max values))
  else if contains (L " and ") (lower expr) then
    bind (collect (map (λ p, evaluate_body m fuel (strip p)) (split (L " and ") (lower expr))))
      (λ values, of_option empty_sequence (py_min values))
  else match float_of_str expr with
       | Some v => Return v
       | None => Return (get_gene_expr m expr)
       end.
Proof. reflexivity. Qed.




Lemma collect_not_Raise {A} (os : list (outcome A)) e :
  Forall (λ o, ∀ e', o ≠ Raise e') os → collect os ≠ Raise e.
Proof.
  induction 1 as [|o os Ho Hos IH]; simpl; [done|].
  destruct o as [a| |]; simpl; [|by specialize (Ho e0)|done].
  destruct (collect os); simpl; done.
Qed.

Lemma collect_length {A} (os : list (outcome A)) l :
  collect os = Return l → length l = length os.
Proof. intros ->%collect_Return. by rewrite length_map. Qed.

Lemma py_max_is_Some values : values ≠ [] → is_Some (py_max values).
Proof. destruct values; [done | eauto]. Qed.

Lemma py_min_is_Some values : values ≠ [] → is_Some (py_min values).
Proof. destruct values; [done | eauto]. Qed.

Lemma split_nonempty sep s : split sep s ≠ [].
Proof. apply split_go_nonempty. Qed.

Lemma reduce_not_Raise (f : list float → option float) (os : list (outcome float)) e :
  os ≠ [] → (∀ vs, vs ≠ [] → is_Some (f vs)) →
  Forall (λ o, ∀ e', o ≠ Raise e') os →
  bind (collect os) (λ values, of_option empty_sequence (f values)) ≠ Raise e.
Proof.
  intros Hne Hf Hos. destruct (collect os) as [vs| |] eqn:E; simpl; [| |done].
  - destruct (Hf vs) as [v ->]; [|done].
    apply collect_length in E. destruct vs, os; done.
  - by apply collect_not_Raise in E.
Qed.

(** [evaluate] catches the [ValueError] of [float] itself, and [max] and
    [min] never see an empty list: nothing is raised. *)
Lemma evaluate_body_not_Raise fuel : ∀ expr e, evaluate_body m fuel expr ≠ Raise e.
Proof.
  induction fuel as [|k IH]; intros expr e; [done|].
  rewrite evaluate_body_S.
  destruct (contains (L "(") expr).
  { destruct (evaluate_body m k _) eqn:E; simpl; [apply IH | by apply IH in E | done]. }
  destruct (contains (L " or ") (lower expr)).
  { apply reduce_not_Raise; [ | apply py_max_is_Some | ].
    - intros H%(f_equal length). rewrite length_map in H.
      by pose proof (split_nonempty (L " or ") (lower expr)); destruct (split _ _).
    - apply Forall_map, Forall_forall. intros p _ e'. apply IH. }
  destruct (contains (L " and ") (lower expr)).
  { apply reduce_not_Raise; [ | apply py_min_is_Some | ].
    - intros H%(f_equal length). rewrite length_map in H.
      by pose proof (split_nonempty (L " and ") (lower expr)); destruct (split _ _).
    - apply Forall_map, Forall_forall. intros p _ e'. apply IH. }
  by destruct (float_of_str expr).
Qed.

Lemma no_lparen_contains s : no_lparen s ↔ contains (L "(") s = false.
Proof. symmetry. apply (contains_char_false "("%char). Qed.

Lemma no_lparen_lower s : no_lparen s → no_lparen (lower s).
Proof. intros H. apply Forall_map. eapply Forall_impl; [exact H|]. apply lower_char_lparen. Qed.



End EvaluateFacts.

Section ParenStep.
Context (pre inner rest : str).
Hypothesis Hinner_l : Forall (λ c, c ≠ "("%char) inner.
Hypothesis Hinner_r : Forall (λ c, c ≠ ")"%char) inner.
Hypothesis Hrest : Forall (λ c, c ≠ "("%char) rest.

Let expr : str := pre ++ "("%char :: inner ++ ")"%char :: rest.







End ParenStep.









Section Terminates.
Context (m : gmap string float).


End Terminates.

Section Sources.
Context (m : gmap string float).



End Sources.

Section Agreement.
Context (m1 m2 : gmap string float).
Hypothesis Hagree : agree_on_lower m1 m2.

Lemma get_gene_expr_agree expr :
  Forall lowered expr → get_gene_expr m1 expr = get_gene_expr m2 expr.
Proof.
  intros H. unfold get_gene_expr. rewrite Hagree; [done|].
  by apply lower_fixed, Forall_strip.
Qed.

(** On a lower-case text without parentheses, only the lower-case keys of
    the map are read. *)
Lemma evaluate_body_agree fuel : ∀ expr,
  Forall lowered expr → no_lparen expr →
  evaluate_body m1 fuel expr = evaluate_body m2 fuel expr.
Proof.
  induction fuel as [|k IH]; intros expr Hlow Hnp; [done|].
  rewrite !evaluate_body_S.
  rewrite (proj1 (no_lparen_contains expr) Hnp).
  assert (∀ sep,
    map (λ p, evaluate_body m1 k (strip p)) (split sep (lower expr))
    = map (λ p, evaluate_body m2 k (strip p)) (split sep (lower expr))) as Hparts.
  { intros sep. apply map_ext_in. intros p Hp%list_elem_of_In. apply IH.
    - apply Forall_strip.
      pose proof (Forall_split _ sep _ (lower_lowered expr)) as H.
      rewrite Forall_forall in H. by apply H.
    - apply Forall_strip.
      pose proof (Forall_split _ sep _ (no_lparen_lower _ Hnp)) as H.
      rewrite Forall_forall in H. by apply H. }
  rewrite !Hparts, get_gene_expr_agree by done. done.
Qed.

End Agreement.

Section Unclosed.
Context (m : gmap string float).






End Unclosed.

(** *** What holds of the evaluator *)

Lemma evaluate_gpr_expression_nonblank m fuel rule :
  strip rule ≠ [] →
  evaluate_gpr_expression m fuel rule
  = match evaluate m fuel rule with
    | Raise _ => Return 1%float
    | o => o
    end.
Proof.
  intros H. unfold evaluate_gpr_expression.
  destruct rule as [|c rule]; [done|]. by destruct (strip (c :: rule)).
Qed.





Lemma evaluate_gpr_expression_evaluate m fuel rule :
  strip rule ≠ [] → evaluate_gpr_expression m fuel rule = evaluate m fuel rule.
Proof.
  intros H. rewrite evaluate_gpr_expression_nonblank by done.
  destruct (evaluate m fuel rule) as [v|e|] eqn:E; [done| |done].
  by apply evaluate_body_not_Raise in E.
Qed.



Lemma evaluate_body_single_gene m fuel expr :
  single_gene expr →
  evaluate_body m (S fuel) expr = Return (default 1%float (m !! key (strip expr))).
Proof. intros (H1 & H2 & H3 & H4). by rewrite evaluate_body_S, H1, H2, H3, H4. Qed.




Lemma evaluate_body_lower m fuel expr :
  compound_flat expr →
  evaluate_body m (S fuel) expr = evaluate_body m (S fuel) (lower expr).
Proof.
  intros [Hnp Hc]. rewrite !evaluate_body_S, lower_idemp, Hnp.
  apply no_lparen_contains, no_lparen_lower, no_lparen_contains in Hnp. rewrite Hnp.
  destruct (contains (L " or ") (lower expr)); [done|].
  destruct Hc as [Hc|Hc]; [done|]. by rewrite Hc.
Qed.

(** C10, as amended.  A text without parentheses that contains [' or '] or
    [' and '] is lower-cased as a whole before it is split: evaluating it
    is evaluating its lower-cased form, so the result is the same under any
    two maps that agree on the lower-case keys; a rule that is one bare gene
    id is looked up as it is written. *)
Theorem compound_rule_reads_lower_keys (m1 m2 : gmap string float) :
  (∀ fuel expr, compound_flat (strip expr) →
     evaluate m1 (S fuel) expr = evaluate_body m1 (S fuel) (lower (strip expr)))
  ∧ (∀ fuel expr, compound_flat (strip expr) → agree_on_lower m1 m2 →
       evaluate m1 fuel expr = evaluate m2 fuel expr)
  ∧ (∀ fuel expr, single_gene (strip expr) →
       evaluate m1 (S fuel) expr = Return (default 1%float (m1 !! key (strip expr)))).
Proof.
  split_and!.
  - intros fuel expr H. by apply evaluate_body_lower.
  - intros fuel expr H Hagree. unfold evaluate. destruct fuel as [|k]; [done|].
    rewrite (evaluate_body_lower m1), (evaluate_body_lower m2) by done.
    apply (evaluate_body_agree m1 m2 Hagree); [apply lower_lowered |].
    apply no_lparen_lower, no_lparen_contains, H.
  - intros fuel expr H. unfold evaluate.
    rewrite evaluate_body_single_gene by done. by rewrite strip_idemp.
Qed.

Lemma upper_maps_agree : agree_on_lower upper_map_hi upper_map_lo.
Proof.
  intros k Hk. unfold upper_map_hi, upper_map_lo.
  destruct (decide (key k = "A"%string)) as [E|E].
  - assert (k = L "A") as ->.
    { unfold key in E. apply (f_equal list_ascii_of_string) in E.
      by rewrite list_ascii_of_string_of_list_ascii in E. }
    discriminate Hk.
  - by rewrite !(lookup_insert_ne _ "A"%string).
Qed.

Lemma compound_rule_reads_lower_keys_witness :
  evaluate upper_map_hi 2 (L "A and B") = evaluate_body upper_map_hi 2 (L "a and b")
  ∧ evaluate upper_map_hi 2 (L "A or b") = evaluate upper_map_lo 2 (L "A or b")
  ∧ evaluate upper_map_hi 1 (L "A") = Return 0.9%float.
Proof.
  pose proof (compound_rule_reads_lower_keys upper_map_hi upper_map_lo) as (H1 & H2 & H3).
  split_and!.
  - apply (H1 1%nat (L "A and B")). split; [reflexivity | right; reflexivity].
  - apply H2; [split; [reflexivity | left; reflexivity] | apply upper_maps_agree].
  - etrans; [apply (H3 0%nat (L "A")); by vm_compute | by vm_compute].
Defined.

(** C10 as stated fails for a compound rule with a parenthesised gene: the
    group [(A)] is a bare gene id for the recursive call, so it is looked up
    as written, and the result changes with the value under the upper-case
    key although the two maps agree on every lower-case key. *)
Lemma parenthesised_gene_is_case_sensitive :
  agree_on_lower upper_map_hi upper_map_lo
  ∧ evaluate_gpr_expression upper_map_hi 3 (L "(A) or b") = Return 0.9%float
  ∧ evaluate_gpr_expression upper_map_lo 3 (L "(A) or b") = Return 0.5%float.
Proof. split_and!; [apply upper_maps_agree | by vm_compute..]. Qed.

End Gpr.

(** ** api.py: the model, [apply_constraints] and E-Flux's bound scaling *)

Module Api.
Import PyStr PyFloat.

(** The attributes of a COBRApy reaction and gene that api.py reads and
    writes.  An attribute assignment is a field update. *)
Record Reaction : Type := {
  lower_bound : float;
  upper_bound : float;
  gene_reaction_rule : str
}.

Record Gene : Type := { functional : bool }.

(** [model.reactions] and [model.genes], each keyed by the object's id. *)
Record Model : Type := {
  reactions : gmap string Reaction;
  genes : gmap string Gene
}.

Definition set_lower_bound (v : float) (rxn : Reaction) : Reaction :=
  {| lower_bound := v; upper_bound := upper_bound rxn;
     gene_reaction_rule := gene_reaction_rule rxn |}.

Definition set_upper_bound (v : float) (rxn : Reaction) : Reaction :=
  {| lower_bound := lower_bound rxn; upper_bound := v;
     gene_reaction_rule := gene_reaction_rule rxn |}.

Definition set_reactions (rs : gmap string Reaction) (model : Model) : Model :=
  {| reactions := rs; genes := genes model |}.

Definition set_genes (gs : gmap string Gene) (model : Model) : Model :=
  {| reactions := reactions model; genes := gs |}.

(** [DictList.get_by_id]: a [KeyError] for an id that is not there. *)
Definition get_by_id {A} (d : gmap string A) (id : string) : outcome A :=
  of_option (KeyError id) (d !! id).

(** The two assignments guarded by ["lb" in bounds] and ["ub" in bounds]. *)
Definition set_bounds (bounds : gmap string float) (rxn : Reaction) : Reaction :=
  let rxn := match bounds !! "lb"%string with
             | Some v => set_lower_bound v rxn
             | None => rxn
             end in
  match bounds !! "ub"%string with
  | Some v => set_upper_bound v rxn
  | None => rxn
  end.

(** One round of the loop over [constraints.items()]. *)
Definition apply_override (rxn_id : string) (bounds : gmap string float)
    (model : Model) : outcome Model :=
  if decide (rxn_id ∈ dom (reactions model)) then
    bind (get_by_id (reactions model) rxn_id) (λ rxn,
      Return (set_reactions (<[rxn_id := set_bounds bounds rxn]> (reactions model)) model))
  else Return model.

(** Modelled from the spec: [Gene.knock_out] is a method of COBRApy, which
    is not among the repository's sources.  Section 4.1 of the spec says
    that a knock-out "only flags the gene" and "does not algorithmically
    propagate through gene-rule logic to force dependent reaction bounds to
    zero". *)
Definition knock_out (gene : Gene) : Gene := {| functional := false |}.

(** One round of the loop over [knockouts]. *)
Definition apply_knockout (model : Model) (gene_id : string) : outcome Model :=
  if decide (gene_id ∈ dom (genes model)) then
    bind (get_by_id (genes model) gene_id) (λ gene,
      Return (set_genes (<[gene_id := knock_out gene]> (genes model)) model))
  else Return model.

(** [apply_constraints(model, constraints, knockouts)]: the model is updated
    in place, one override and one knock-out after the other. *)
Definition apply_constraints (model : Model)
    (constraints : gmap string (gmap string float)) (knockouts : list string)
    : outcome Model :=
  let after_overrides :=
    map_fold (λ rxn_id bounds acc, bind acc (apply_override rxn_id bounds))
             (Return model) constraints in
  fold_left (λ acc gene_id, bind acc (λ m, apply_knockout m gene_id))
            knockouts after_overrides.

(** The body of [if expr < 1.0:] in [solve_eflux]: the upper bound is scaled
    when it is positive, then the lower bound when it is negative. *)
Definition scale_bounds (expr : float) (rxn : Reaction) : Reaction :=
  let rxn := if PrimFloat.ltb 0 (upper_bound rxn)
             then set_upper_bound (upper_bound rxn * expr)%float rxn else rxn in
  if PrimFloat.ltb (lower_bound rxn) 0
  then set_lower_bound (lower_bound rxn * expr)%float rxn else rxn.

(** What the loop of [solve_eflux] does to a reaction whose rule has the
    score [expr]. *)
Definition eflux_scale (expr : float) (rxn : Reaction) : Reaction :=
  if PrimFloat.ltb expr 1 then scale_bounds expr rxn else rxn.

(** One round of the loop [for rxn in model.reactions] of [solve_eflux]. *)
Definition eflux_reaction (fuel : nat) (expression : gmap string float)
    (rxn : Reaction) : outcome Reaction :=
  match gene_reaction_rule rxn with
  | [] => Return rxn
  | rule =>
      bind (Gpr.evaluate_gpr_expression expression fuel rule) (λ expr,
        Return (eflux_scale expr rxn))
  end.

(** The whole loop: every reaction of the model is rewritten in place. *)
Definition eflux_bounds (fuel : nat) (expression : gmap string float)
    (model : Model) : outcome Model :=
  bind (map_fold (λ rxn_id rxn acc,
                    bind acc (λ rs,
                      bind (eflux_reaction fuel expression rxn) (λ rxn',
                        Return (<[rxn_id := rxn']> rs))))
                 (Return (reactions model)) (reactions model))
       (λ rs, Return (set_reactions rs model)).



(** *** Facts about [apply_constraints] *)

Import FloatOrder.

(** What [apply_constraints] makes of one reaction. *)
Definition overridden (constraints : gmap string (gmap string float))
    (id : string) (rxn : Reaction) : Reaction :=
  match constraints !! id with
  | Some bounds => set_bounds bounds rxn
  | None => rxn
  end.

(** What [apply_constraints] makes of one gene. *)
Definition knocked (knockouts : list string) (id : string) (gene : Gene) : Gene :=
  if decide (id ∈ knockouts) then knock_out gene else gene.

Lemma apply_override_spec rxn_id bounds model :
  ∃ model', apply_override rxn_id bounds model = Return model'
    ∧ genes model' = genes model
    ∧ ∀ id, reactions model' !! id
            = (if decide (id = rxn_id) then set_bounds bounds else λ r, r)
                <$> reactions model !! id.
Proof.
  unfold apply_override. destruct (decide (rxn_id ∈ dom (reactions model))) as [Hin|Hout].
  - apply elem_of_dom in Hin as [rxn Hrxn]. unfold get_by_id. rewrite Hrxn. simpl.
    eexists. split_and!; [done..|]. intros id. simpl.
    destruct (decide (id = rxn_id)) as [->|Hne].
    + by rewrite lookup_insert_eq, Hrxn.
    + rewrite lookup_insert_ne by done. by destruct (reactions model !! id).
  - exists model. split_and!; [done..|]. intros id.
    destruct (decide (id = rxn_id)) as [->|Hne].
    + apply not_elem_of_dom in Hout. by rewrite Hout.
    + by destruct (reactions model !! id).
Qed.

Lemma apply_overrides_spec model constraints :
  ∃ model',
    map_fold (λ rxn_id bounds acc, bind acc (apply_override rxn_id bounds))
             (Return model) constraints = Return model'
    ∧ genes model' = genes model
    ∧ ∀ id, reactions model' !! id = overridden constraints id <$> reactions model !! id.
Proof.
  apply (map_fold_weak_ind (λ acc cs, ∃ model', acc = Return model'
    ∧ genes model' = genes model
    ∧ ∀ id, reactions model' !! id = overridden cs id <$> reactions model !! id)).
  - exists model. split_and!; [done..|]. intros id. unfold overridden.
    rewrite lookup_empty. by destruct (reactions model !! id).
  - intros i bounds cs acc Hi (m & -> & Hg & Hr). simpl.
    destruct (apply_override_spec i bounds m) as (m' & -> & Hg' & Hr').
    exists m'. split_and!; [done | congruence |]. intros id. rewrite Hr', Hr.
    unfold overridden. destruct (decide (id = i)) as [->|Hne].
    + rewrite lookup_insert_eq, Hi. by destruct (reactions model !! i).
    + rewrite lookup_insert_ne by done. by destruct (reactions model !! id).
Qed.

Lemma apply_knockout_spec model gene_id :
  ∃ model', apply_knockout model gene_id = Return model'
    ∧ reactions model' = reactions model
    ∧ ∀ id, genes model' !! id
            = (if decide (id = gene_id) then knock_out else λ g, g) <$> genes model !! id.
Proof.
  unfold apply_knockout. destruct (decide (gene_id ∈ dom (genes model))) as [Hin|Hout].
  - apply elem_of_dom in Hin as [gene Hgene]. unfold get_by_id. rewrite Hgene. simpl.
    eexists. split_and!; [done..|]. intros id. simpl.
    destruct (decide (id = gene_id)) as [->|Hne].
    + by rewrite lookup_insert_eq, Hgene.
    + rewrite lookup_insert_ne by done. by destruct (genes model !! id).
  - exists model. split_and!; [done..|]. intros id.
    destruct (decide (id = gene_id)) as [->|Hne].
    + apply not_elem_of_dom in Hout. by rewrite Hout.
    + by destruct (genes model !! id).
Qed.

Lemma apply_knockouts_spec knockouts : ∀ model,
  ∃ model',
    fold_left (λ acc gene_id, bind acc (λ m, apply_knockout m gene_id))
              knockouts (Return model) = Return model'
    ∧ reactions model' = reactions model
    ∧ ∀ id, genes model' !! id = knocked knockouts id <$> genes model !! id.
Proof.
  induction knockouts as [|g gs IH]; intros model; simpl.
  - exists model. split_and!; [done..|]. intros id.
    destruct (genes model !! id) as [gene|]; [simpl|done]. unfold knocked.
    by rewrite decide_False by apply not_elem_of_nil.
  - destruct (apply_knockout_spec model g) as (m & -> & Hr & Hg).
    destruct (IH m) as (m' & -> & Hr' & Hg').
    exists m'. split_and!; [done | congruence |]. intros id. rewrite Hg', Hg.
    unfold knocked. destruct (genes model !! id) as [gene|]; [simpl|done]. f_equal.
    destruct (decide (id = g)) as [->|Hne].
    + rewrite (decide_True (P := g ∈ g :: gs)) by left.
      by destruct (decide (g ∈ gs)).
    + destruct (decide (id ∈ gs)) as [Hin|Hout].
      * by rewrite decide_True by by right.
      * rewrite decide_False; [done|]. by intros [?|?]%elem_of_cons.
Qed.

(** [apply_constraints] returns, and what it returns is the model with each
    reaction overridden and each gene knocked out on its own. *)
Lemma apply_constraints_spec model constraints knockouts :
  ∃ model', apply_constraints model constraints knockouts = Return model'
    ∧ (∀ id, reactions model' !! id = overridden constraints id <$> reactions model !! id)
    ∧ (∀ id, genes model' !! id = knocked knockouts id <$> genes model !! id).
Proof.
  unfold apply_constraints.
  destruct (apply_overrides_spec model constraints) as (m & -> & Hg & Hr).
  destruct (apply_knockouts_spec knockouts m) as (m' & -> & Hr' & Hg').
  exists m'. split_and!; [done | |].
  - intros id. by rewrite Hr'.
  - intros id. by rewrite Hg', Hg.
Qed.

(** C6.  [apply_constraints] returns (it raises nothing); a reaction of the
    model that an override names gets the ['lb'] and the ['ub'] of that
    override, each only when it is present, and keeps the rest; a reaction
    that no override names is unchanged; an override or a knock-out for an
    id that the model does not have adds nothing. *)
Theorem apply_constraints_frame (model : Model)
    (constraints : gmap string (gmap string float)) (knockouts : list string) :
  ∃ model', apply_constraints model constraints knockouts = Return model'
    ∧ (∀ id rxn bounds,
         reactions model !! id = Some rxn → constraints !! id = Some bounds →
         ∃ rxn', reactions model' !! id = Some rxn'
           ∧ lower_bound rxn' = default (lower_bound rxn) (bounds !! "lb"%string)
           ∧ upper_bound rxn' = default (upper_bound rxn) (bounds !! "ub"%string)
           ∧ gene_reaction_rule rxn' = gene_reaction_rule rxn)
    ∧ (∀ id rxn,
         reactions model !! id = Some rxn → constraints !! id = None →
         reactions model' !! id = Some rxn)
    ∧ (∀ id, reactions model !! id = None → reactions model' !! id = None)
    ∧ (∀ id, genes model !! id = None → genes model' !! id = None).
Proof.
  destruct (apply_constraints_spec model constraints knockouts) as (model' & H & Hr & Hg).
  exists model'. split_and!; [done|..].
  - intros id rxn bounds Hrxn Hb. exists (set_bounds bounds rxn).
    rewrite Hr, Hrxn. unfold overridden. rewrite Hb. split; [done|].
    unfold set_bounds. by destruct (bounds !! "lb"%string), (bounds !! "ub"%string).
  - intros id rxn Hrxn Hb. rewrite Hr, Hrxn. unfold overridden. by rewrite Hb.
  - intros id Hid. by rewrite Hr, Hid.
  - intros id Hid. by rewrite Hg, Hid.
Qed.

(** C7.  With [knock_out] as the spec describes it, a knock-out only flags
    the gene: the reactions after [apply_constraints] are those that the
    overrides alone produce (the model's own when there is no override),
    and every knocked-out gene of the model is flagged while the other
    genes are left alone. *)
Theorem knockouts_only_flag_genes (model : Model)
    (constraints : gmap string (gmap string float)) (knockouts : list string) :
  ∃ model' model0,
    apply_constraints model constraints knockouts = Return model'
    ∧ apply_constraints model constraints [] = Return model0
    ∧ reactions model' = reactions model0
    ∧ (constraints = ∅ → reactions model' = reactions model)
    ∧ (∀ id gene, genes model !! id = Some gene →
         genes model' !! id
         = Some (if decide (id ∈ knockouts) then {| functional := false |} else gene)).
Proof.
  destruct (apply_constraints_spec model constraints knockouts) as (model' & H & Hr & Hg).
  destruct (apply_constraints_spec model constraints []) as (model0 & H0 & Hr0 & _).
  exists model', model0. split_and!; [done..| | |].
  - apply map_eq. intros id. by rewrite Hr, Hr0.
  - intros ->. apply map_eq. intros id. rewrite Hr. unfold overridden.
    rewrite lookup_empty. by destruct (reactions model !! id).
  - intros id gene Hgene. rewrite Hg, Hgene. simpl. unfold knocked.
    by destruct (decide (id ∈ knockouts)).
Qed.

(** *** E-Flux *)

Lemma eflux_bounds_fold fuel expression (base sub : gmap string Reaction) :
  match map_fold (λ rxn_id rxn acc,
                    bind acc (λ rs,
                      bind (eflux_reaction fuel expression rxn) (λ rxn',
                        Return (<[rxn_id := rxn']> rs))))
                 (Return base) sub with
  | Return rs =>
      ∀ id, match sub !! id with
            | Some rxn => ∃ rxn', eflux_reaction fuel expression rxn = Return rxn'
                                  ∧ rs !! id = Some rxn'
            | None => rs !! id = base !! id
            end
  | _ => True
  end.
Proof.
  apply (map_fold_weak_ind (λ acc sub,
    match acc with
    | Return rs =>
        ∀ id, match sub !! id with
              | Some rxn => ∃ rxn', eflux_reaction fuel expression rxn = Return rxn'
                                    ∧ rs !! id = Some rxn'
              | None => rs !! id = base !! id
              end
    | _ => True
    end)).
  - intros id. by rewrite lookup_empty.
  - intros i rxn m acc Hi Hacc. destruct acc as [rs| |]; simpl; [|done..].
    destruct (eflux_reaction fuel expression rxn) as [rxn'| |] eqn:E; simpl; [|done..].
    intros id. destruct (decide (id = i)) as [->|Hne].
    + rewrite !lookup_insert_eq. eauto.
    + rewrite !lookup_insert_ne by done. apply Hacc.
Qed.

(** The loop of [solve_eflux] rewrites every reaction on its own. *)
Lemma eflux_bounds_spec fuel expression (model model' : Model) :
  eflux_bounds fuel expression model = Return model' →
  genes model' = genes model
  ∧ ∀ id, match reactions model !! id with
          | Some rxn => ∃ rxn', eflux_reaction fuel expression rxn = Return rxn'
                                ∧ reactions model' !! id = Some rxn'
          | None => reactions model' !! id = None
          end.
Proof.
  unfold eflux_bounds.
  pose proof (eflux_bounds_fold fuel expression (reactions model) (reactions model)) as H.
  destruct (map_fold _ _ _) as [rs| |]; simpl; [|done..].
  intros [= <-]. split; [done|]. intros id. specialize (H id). simpl.
  destruct (reactions model !! id); [done|]. by rewrite H.
Qed.

Lemma eflux_reaction_no_rule fuel expression rxn :
  gene_reaction_rule rxn = [] → eflux_reaction fuel expression rxn = Return rxn.
Proof. unfold eflux_reaction. by intros ->. Qed.

Lemma eflux_reaction_rule fuel expression rxn :
  gene_reaction_rule rxn ≠ [] →
  eflux_reaction fuel expression rxn
  = bind (Gpr.evaluate_gpr_expression expression fuel (gene_reaction_rule rxn))
      (λ expr, Return (eflux_scale expr rxn)).
Proof. unfold eflux_reaction. by destruct (gene_reaction_rule rxn). Qed.

Lemma eflux_scale_bounds expr rxn :
  PrimFloat.ltb expr 1 = true →
  upper_bound (eflux_scale expr rxn)
  = (if PrimFloat.ltb 0 (upper_bound rxn) then (upper_bound rxn * expr)%float
     else upper_bound rxn)
  ∧ lower_bound (eflux_scale expr rxn)
    = (if PrimFloat.ltb (lower_bound rxn) 0 then (lower_bound rxn * expr)%float
       else lower_bound rxn)
  ∧ gene_reaction_rule (eflux_scale expr rxn) = gene_reaction_rule rxn.
Proof.
  intros H. unfold eflux_scale, scale_bounds. rewrite H.
  destruct (PrimFloat.ltb 0 (upper_bound rxn)); simpl;
    destruct (PrimFloat.ltb (lower_bound rxn) 0); done.
Qed.

Lemma eflux_scale_unchanged expr rxn :
  PrimFloat.ltb expr 1 = false → eflux_scale expr rxn = rxn.
Proof. intros H. unfold eflux_scale. by rewrite H. Qed.




(** The bounds of a reaction are finite and have 0 between them. *)
Definition straddles_zero (rxn : Reaction) : Prop :=
  is_finite (lower_bound rxn) = true ∧ is_finite (upper_bound rxn) = true
  ∧ PrimFloat.leb (lower_bound rxn) 0 = true ∧ PrimFloat.leb 0 (upper_bound rxn) = true.


(** *** The loop of E-Flux returns when every rule can be evaluated *)




Lemma eflux_bounds_fold_returns fuel expression (base sub : gmap string Reaction) :
  map_Forall (λ _ rxn, ∃ rxn', eflux_reaction fuel expression rxn = Return rxn') sub →
  ∃ rs, map_fold (λ rxn_id rxn acc,
                    bind acc (λ rs,
                      bind (eflux_reaction fuel expression rxn) (λ rxn',
                        Return (<[rxn_id := rxn']> rs))))
                 (Return base) sub = Return rs.
Proof.
  apply (map_fold_weak_ind (λ acc (sub : gmap string Reaction),
    map_Forall (λ _ rxn, ∃ rxn', eflux_reaction fuel expression rxn = Return rxn') sub →
    ∃ rs, acc = Return rs)).
  - intros _. by exists base.
  - intros id rxn sub' acc Hid IH [[rxn' Hrxn] Hsub]%map_Forall_insert; [|done].
    destruct (IH Hsub) as [rs ->]. simpl. rewrite Hrxn. simpl. eauto.
Qed.



(** *** Worked models *)

Definition plain_reaction (lb ub : float) : Reaction :=
  {| lower_bound := lb; upper_bound := ub; gene_reaction_rule := [] |}.

(** A reaction with the gene rule ["g"]. *)
Definition gene_reaction (lb ub : float) : Reaction :=
  {| lower_bound := lb; upper_bound := ub; gene_reaction_rule := L "g" |}.

(** A model with the one reaction ["R1"] and the one gene ["g"]. *)
Definition one_reaction_model (rxn : Reaction) : Model :=
  {| reactions := {[ "R1"%string := rxn ]};
     genes := {[ "g"%string := {| functional := true |} ]} |}.


Lemma apply_constraints_frame_witness :
  ∃ model',
    apply_constraints (one_reaction_model (plain_reaction 0 10))
      {[ "R1"%string := {[ "ub"%string := 5%float ]}; "R9"%string := {[ "lb"%string := 1%float ]} ]}
      ["g9"%string] = Return model'
    ∧ reactions model' !! "R1"%string = Some (plain_reaction 0 5)
    ∧ reactions model' !! "R9"%string = None
    ∧ genes model' !! "g9"%string = None.
Proof.
  destruct (apply_constraints_frame (one_reaction_model (plain_reaction 0 10))
      {[ "R1"%string := {[ "ub"%string := 5%float ]}; "R9"%string := {[ "lb"%string := 1%float ]} ]}
      ["g9"%string]) as (model' & H & H1 & _ & H3 & H4).
  exists model'. split_and!; [done| | by apply H3 | by apply H4].
  destruct (H1 "R1"%string (plain_reaction 0 10) {[ "ub"%string := 5%float ]})
    as (rxn' & Hr & Hlb & Hub & Hrule); [done..|].
  rewrite Hr. f_equal. destruct rxn'. simpl in *. by subst.
Defined.

Lemma knockouts_only_flag_genes_witness :
  ∃ model',
    apply_constraints (one_reaction_model (gene_reaction 0 10)) ∅ ["g"%string] = Return model'
    ∧ reactions model' = {[ "R1"%string := gene_reaction 0 10 ]}
    ∧ genes model' !! "g"%string = Some {| functional := false |}.
Proof.
  destruct (knockouts_only_flag_genes (one_reaction_model (gene_reaction 0 10)) ∅ ["g"%string])
    as (model' & model0 & H & _ & _ & H2 & H3).
  exists model'. split_and!; [done | by apply H2 |].
  by rewrite (H3 "g"%string {| functional := true |}).
Defined.





End Api.

(** ** api.py: the seven [solve_*] endpoints and their [try]/[except] *)

Module Endpoints.
Import PyStr PyFloat Api.

(** What COBRApy's [Solution] gives to api.py. *)
Record Solution : Type := {
  status : string;
  objective_value : option float;
  fluxes : gmap string float
}.

(** [SolverResponse] and [FVAResponse], without their wall-clock and solver
    name fields and without the dual values (read with [.get] and a
    default). *)
Record SolverResponse : Type := {
  r_status : string;
  r_objective_value : option float;
  r_fluxes : gmap string float;
  r_method : string;
  r_error : option string
}.

Record FVAResponse : Type := {
  v_status : string;
  v_objective_value : option float;
  v_ranges : gmap string (float * float);
  v_error : option string
}.

(** COBRApy and the optimizer behind it, as api.py uses them.  [Problem] is
    what a COBRApy model holds besides its reactions and genes (objective,
    variables, constraints); every operation can raise. *)
Class Cobra : Type := {
  Raw : Type;
  Problem : Type;
  (** [import cobra], and the [from cobra... import ...] next to it *)
  import_cobra : outcome unit;
  (** [cobra.io.from_json(json.dumps(model_dict))] *)
  from_json : Raw → outcome (Model * Problem);
  (** [model.objective = reaction_id] *)
  set_objective : string → Model * Problem → Model * Problem;
  (** [model.optimize()] *)
  optimize : Model * Problem → outcome Solution;
  (** [cobra.flux_analysis.pfba(model)] *)
  pfba : Model * Problem → outcome Solution;
  (** [flux_variability_analysis(model, reaction_list, fraction_of_optimum)]:
      the minimum and the maximum of each analysed reaction *)
  flux_variability_analysis :
    Model * Problem → option (list string) → float → outcome (gmap string (float * float));
  (** [moma(model, solution=reference, linear=False)] *)
  moma : Model * Problem → gmap string float → outcome Solution;
  (** GIMME: [list(model.objective.variables.keys())[0].lower_bound = v] *)
  bound_objective : float → Model * Problem → outcome (Model * Problem);
  (** GIMME: the weighted sum of forward and reverse variables as the
      objective, to be minimised; the weights by reaction id *)
  set_penalty_objective : gmap string float → Model * Problem → outcome (Model * Problem);
  (** iMAT: the binary variable and the constraint of one high ([true]) or
      low ([false]) reaction *)
  add_indicator : bool → string → Model * Problem → outcome (Model * Problem);
  (** iMAT: the sum of the indicators as the objective, to be maximised *)
  set_indicator_objective : list string → list string → Model * Problem → outcome (Model * Problem)
}.

Record ModelData `{Cobra} : Type := {
  md_raw : Raw;
  md_objective : option string
}.

Record FBARequest `{Cobra} : Type := {
  fba_model : ModelData;
  fba_constraints : option (gmap string (gmap string float));
  fba_knockouts : option (list string);
  fba_objective : option string
}.

Record FVARequest `{Cobra} : Type := {
  fva_model : ModelData;
  fva_constraints : option (gmap string (gmap string float));
  fva_knockouts : option (list string);
  fva_fraction_of_optimum : float;
  fva_reactions : option (list string)
}.

Record OmicsRequest `{Cobra} : Type := {
  om_model : ModelData;
  om_expression : gmap string float;
  om_threshold : float;
  om_high_threshold : float;
  om_low_threshold : float;
  om_required_fraction : float
}.


Section WithCobra.
Context `{Cobra}.

(** [if objective and objective in model.reactions: model.objective = objective] *)
Definition maybe_set_objective (objective : option string) (model : Model * Problem)
    : Model * Problem :=
  match objective with
  | Some id =>
      if bool_decide (id ≠ ""%string) && bool_decide (id ∈ dom (reactions model.1))
      then set_objective id model else model
  | None => model
  end.

(** [model_from_dict(data)] *)
Definition model_from_dict (data : ModelData) : outcome (Model * Problem) :=
  bind (from_json (md_raw data)) (λ model,
    Return (maybe_set_objective (md_objective data) model)).

(** [apply_constraints] works on the reactions and genes of the model. *)
Definition with_constraints (model : Model * Problem)
    (constraints : option (gmap string (gmap string float)))
    (knockouts : option (list string)) : outcome (Model * Problem) :=
  bind (apply_constraints model.1 (default ∅ constraints) (default [] knockouts))
    (λ net, Return (net, model.2)).

(** [{rxn.id: solution.fluxes[rxn.id] for rxn in model.reactions}]: a
    [KeyError] when the solution lacks a reaction. *)
Definition read_fluxes (model : Model * Problem) (solution : Solution)
    : outcome (gmap string float) :=
  if decide (dom (reactions model.1) ⊆ dom (fluxes solution))
  then Return (filter (λ kv, kv.1 ∈ dom (reactions model.1)) (fluxes solution))
  else Raise (KeyError "fluxes").

(** [{rxn.id: solution.fluxes.get(rxn.id, 0) for rxn in model.reactions}] *)
Definition get_fluxes (model : Model * Problem) (solution : Solution) : gmap string float :=
  map_imap (λ id _, Some (default 0%float (fluxes solution !! id))) (reactions model.1).

Definition solver_response (method : string) (solution : Solution)
    (fl : gmap string float) : SolverResponse :=
  {| r_status := status solution; r_objective_value := objective_value solution;
     r_fluxes := fl; r_method := method; r_error := None |}.

(** The response of the [except Exception as e:] branch. *)
Definition error_response (method : string) (e : exn) : SolverResponse :=
  {| r_status := "error"; r_objective_value := None; r_fluxes := ∅;
     r_method := method; r_error := Some (exn_str e) |}.

Definition fva_error_response (e : exn) : FVAResponse :=
  {| v_status := "error"; v_objective_value := None; v_ranges := ∅;
     v_error := Some (exn_str e) |}.

(** [try: body  except Exception as e: return on_error(e)] *)
Definition guarded {R} (on_error : exn → R) (body : outcome R) : outcome R :=
  match body with
  | Raise e => Return (on_error e)
  | o => o
  end.

(** An endpoint: the imports come first, outside of the [try]. *)
Definition endpoint {R} (on_error : exn → R) (body : outcome R) : outcome R :=
  bind import_cobra (λ _, guarded on_error body).

Definition fba_body (request : FBARequest) : outcome SolverResponse :=
  bind (model_from_dict (fba_model request)) (λ model,
  bind (with_constraints model (fba_constraints request) (fba_knockouts request)) (λ model,
  let model := maybe_set_objective (fba_objective request) model in
  bind (optimize model) (λ solution,
  bind (read_fluxes model solution) (λ fl,
  Return (solver_response "fba" solution fl))))).

Definition solve_fba (request : FBARequest) : outcome SolverResponse :=
  endpoint (error_response "fba") (fba_body request).

Definition pfba_body (request : FBARequest) : outcome SolverResponse :=
  bind (model_from_dict (fba_model request)) (λ model,
  bind (with_constraints model (fba_constraints request) (fba_knockouts request)) (λ model,
  let model := maybe_set_objective (fba_objective request) model in
  bind (pfba model) (λ solution,
  bind (read_fluxes model solution) (λ fl,
  Return (solver_response "pfba" solution fl))))).

Definition solve_pfba (request : FBARequest) : outcome SolverResponse :=
  endpoint (error_response "pfba") (pfba_body request).

Definition fva_body (request : FVARequest) : outcome FVAResponse :=
  bind (model_from_dict (fva_model request)) (λ model,
  bind (with_constraints model (fva_constraints request) (fva_knockouts request)) (λ model,
  let reaction_list :=
    match fva_reactions request with
    | Some (r :: rs) =>
        Some (filter (λ id, id ∈ dom (reactions model.1)) (r :: rs))
    | _ => None
    end in
  bind (flux_variability_analysis model reaction_list (fva_fraction_of_optimum request))
    (λ ranges,
  bind (optimize model) (λ solution,
  Return {| v_status := "optimal"; v_objective_value := objective_value solution;
            v_ranges := ranges; v_error := None |})))).

Definition solve_fva (request : FVARequest) : outcome FVAResponse :=
  endpoint fva_error_response (fva_body request).



(** The score of one reaction: the value of its rule, or 1.0 without a
    rule. *)
Definition reaction_score (fuel : nat) (expression : gmap string float) (rxn : Reaction)
    : outcome float :=
  match gene_reaction_rule rxn with
  | [] => Return 1%float
  | rule => Gpr.evaluate_gpr_expression expression fuel rule
  end.

(** The scores of all reactions, in the order of their ids. *)
Definition reaction_scores (fuel : nat) (expression : gmap string float) (model : Model)
    : outcome (list (string * float)) :=
  collect (map (λ kv, bind (reaction_score fuel expression kv.2) (λ v, Return (kv.1, v)))
               (map_to_list (reactions model))).

Definition gimme_body (fuel : nat) (request : OmicsRequest) : outcome SolverResponse :=
  bind (model_from_dict (om_model request)) (λ model,
  bind (reaction_scores fuel (om_expression request) model.1) (λ reaction_expression,
  bind (optimize model) (λ solution,
  if negb (String.eqb (status solution) "optimal") then
    Raise (ValueError ("Model infeasible: " +:+ status solution))
  else
  bind (of_option (OtherError "TypeError") (objective_value solution)) (λ v,
  let required_obj := (om_required_fraction request * v)%float in
  bind (bound_objective required_obj model) (λ model,
  let penalties :=
    list_to_map
      (omap (λ kv : string * float,
               if PrimFloat.ltb kv.2 (om_threshold request)
               then Some (kv.1, (om_threshold request - kv.2)%float) else None)
            reaction_expression) in
  bind (set_penalty_objective penalties model) (λ model,
  bind (optimize model) (λ solution,
  bind (read_fluxes model solution) (λ fl,
  Return (solver_response "gimme" solution fl))))))))).

Definition solve_gimme (fuel : nat) (request : OmicsRequest) : outcome SolverResponse :=
  endpoint (error_response "gimme") (gimme_body fuel request).

(** The scores of the reactions that have a rule. *)
Definition scored_reactions (fuel : nat) (expression : gmap string float) (model : Model)
    : outcome (list (string * float)) :=
  collect (map (λ kv, bind (Gpr.evaluate_gpr_expression expression fuel
                              (gene_reaction_rule kv.2)) (λ v, Return (kv.1, v)))
               (filter (λ kv, gene_reaction_rule kv.2 ≠ []) (map_to_list (reactions model)))).

Definition add_indicators (high : bool) (ids : list string) (model : Model * Problem)
    : outcome (Model * Problem) :=
  fold_left (λ acc id, bind acc (add_indicator high id)) ids (Return model).

Definition imat_body (fuel : nat) (request : OmicsRequest) : outcome SolverResponse :=
  bind (model_from_dict (om_model request)) (λ model,
  bind (scored_reactions fuel (om_expression request) model.1) (λ scores,
  let high_expr_rxns :=
    (filter (λ kv, PrimFloat.leb (om_high_threshold request) kv.2 = true) scores).*1 in
  let low_expr_rxns :=
    (filter (λ kv, PrimFloat.leb (om_high_threshold request) kv.2 = false
                   ∧ PrimFloat.leb kv.2 (om_low_threshold request) = true) scores).*1 in
  bind (add_indicators true high_expr_rxns model) (λ model,
  bind (add_indicators false low_expr_rxns model) (λ model,
  bind (match high_expr_rxns ++ low_expr_rxns with
        | [] => Return model
        | _ => set_indicator_objective high_expr_rxns low_expr_rxns model
        end) (λ model,
  bind (optimize model) (λ solution,
  Return (solver_response "imat" solution (get_fluxes model solution)))))))).


Definition eflux_body (fuel : nat) (request : OmicsRequest) : outcome SolverResponse :=
  bind (model_from_dict (om_model request)) (λ model,
  bind (eflux_bounds fuel (om_expression request) model.1) (λ net,
  let model := (net, model.2) in
  bind (optimize model) (λ solution,
  bind (read_fluxes model solution) (λ fl,
  Return (solver_response "eflux" solution fl))))).


End WithCobra.

(** *** Facts about the endpoints *)




Section EndpointFacts.
Context `{Cobra}.
Hypothesis imports_ok : import_cobra = Return ().




Ltac step H :=
  apply bind_Return in H as (? & ? & H).








End EndpointFacts.


(** *** A stand-in for COBRApy *)










End Endpoints.

(** ** benchmark.py: the comparator of solver results and the choice of
    benchmark models *)

Module Benchmark.
Import PyStr PyFloat.

Definition OBJECTIVE_TOLERANCE : float := 1e-6.
Definition FLUX_TOLERANCE : float := 1e-4.

Record ModelInfo : Type := {
  bigg_id : string;
  organism : string;
  metabolite_count : Z;
  reaction_count : Z;
  gene_count : Z
}.

(** One entry of [SolveResult.fluxes]: a number for FBA and pFBA, a dict
    with the keys [min] and [max] for FVA. *)
Inductive flux : Type :=
| Scalar (v : float)
| Range (lo hi : float).

Record SolveResult : Type := {
  model_id : string;
  method : string;
  solver : string;
  status : str;
  objective_value : option float;
  fluxes : option (gmap string flux);
  solve_time_ms : float;
  error : option string
}.

(** [ComparisonResult]; its [model_id] and [method] fields are named
    [cmp_model_id] and [cmp_method] here. *)
Record ComparisonResult : Type := {
  cmp_model_id : string;
  cmp_method : string;
  solver_a : string;
  solver_b : string;
  obj_a : option float;
  obj_b : option float;
  obj_diff : option float;
  obj_rel_diff : option float;
  flux_l2_norm : option float;
  flux_max_diff : option float;
  flux_max_diff_rxn : option string;
  time_a_ms : float;
  time_b_ms : float;
  passed : bool;
  notes : str
}.

(** [value or 0] on an optional float: [None] and both zeros give 0. *)
Definition or_zero (value : option float) : float :=
  match value with
  | Some x => if PrimFloat.eqb x 0 then 0%float else x
  | None => 0%float
  end.

(** The truth value of an optional dict: [None] and the empty dict are
    false. *)
Definition truthy_dict {A} (d : option (gmap string A)) : option (gmap string A) :=
  match d with
  | Some m => if decide (m = ∅) then None else Some m
  | None => None
  end.

(** The truth value of a float: only the zeros are false. *)
Definition truthy_float (x : float) : bool := negb (PrimFloat.eqb x 0).

(** The difference of two flux entries.  The kind of the first entry decides
    how both are read, the other kind then raises a [TypeError]. *)
Definition flux_diff (fa fb : flux) : outcome float :=
  match fa with
  | Range a_min a_max =>
      match fb with
      | Range b_min b_max =>
          of_option empty_sequence
            (py_max [abs (a_min - b_min); abs (a_max - b_max)]%float)
      | Scalar _ => Raise (OtherError "'float' object is not subscriptable")
      end
  | Scalar a =>
      match fb with
      | Scalar b => Return (abs (a - b))%float
      | Range _ _ =>
          Raise (OtherError "unsupported operand type(s) for -: 'float' and 'dict'")
      end
  end.

(** What the loop over the common reactions carries. *)
Record flux_state : Type := {
  diffs : list float;
  max_diff : float;
  max_rxn : option string
}.

Definition flux_init : flux_state :=
  {| diffs := []; max_diff := 0%float; max_rxn := None |}.

(** One round of the loop; [diff ** 2] is taken as the rounded product
    [diff * diff]. *)
Definition flux_step (fluxes_a fluxes_b : gmap string flux)
    (state : outcome flux_state) (rxn : string) : outcome flux_state :=
  bind state (fun st =>
  bind (of_option (KeyError rxn) (fluxes_a !! rxn)) (fun fa =>
  bind (of_option (KeyError rxn) (fluxes_b !! rxn)) (fun fb =>
  bind (flux_diff fa fb) (fun diff =>
  Return
    (if PrimFloat.ltb (max_diff st) diff
     then {| diffs := diffs st ++ [diff * diff]%float; max_diff := diff;
             max_rxn := Some rxn |}
     else {| diffs := diffs st ++ [diff * diff]%float; max_diff := max_diff st;
             max_rxn := max_rxn st |}))))).

(** [sum(diffs)], added up from the left starting at 0. *)
Definition float_sum (values : list float) : float :=
  fold_left (fun total x => (total + x)%float) values 0%float.

Section Compare.
(** The order in which a [for] loop walks a set is not fixed by Python:
    it is an argument of the model. *)
Variable walk : gset string -> list string.

(** The flux part of [compare]: the L2 norm, the largest difference and
    the reaction that has it; three [None] when there is nothing to
    compare. *)
Definition compare_fluxes (result_a result_b : SolveResult)
    : outcome (option float * option float * option string) :=
  match truthy_dict (fluxes result_a), truthy_dict (fluxes result_b) with
  | Some fluxes_a, Some fluxes_b =>
      let common_rxns := dom fluxes_a ∩ dom fluxes_b in
      if decide (common_rxns = ∅) then Return (None, None, None)
      else
        bind (fold_left (flux_step fluxes_a fluxes_b) (walk common_rxns)
                (Return flux_init)) (fun st =>
        Return (Some (sqrt (float_sum (diffs st))), Some (max_diff st), max_rxn st))
  | _, _ => Return (None, None, None)
  end.

Definition rxn_text (rxn : option string) : str :=
  match rxn with
  | Some id => L id
  | None => L "None"
  end.

Definition compare_notes (obj_diff : float) (flux_max : option float)
    (flux_max_rxn : option string) : str :=
  if negb (PrimFloat.ltb obj_diff OBJECTIVE_TOLERANCE) then
    L "Objective difference " ++ format_e 2 obj_diff
    ++ L " exceeds tolerance " ++ format_e 0 OBJECTIVE_TOLERANCE
  else
    match flux_max with
    | Some d =>
        if truthy_float d && PrimFloat.ltb FLUX_TOLERANCE d then
          L "Large flux difference at " ++ rxn_text flux_max_rxn ++ L ": "
          ++ format_e 2 d
        else []
    | None => []
    end.

Definition compare (result_a result_b : SolveResult) : outcome ComparisonResult :=
  if negb (bool_decide (status result_a = L "optimal"))
     || negb (bool_decide (status result_b = L "optimal")) then
    Return {|
      cmp_model_id := model_id result_a;
      cmp_method := method result_a;
      solver_a := solver result_a;
      solver_b := solver result_b;
      obj_a := objective_value result_a;
      obj_b := objective_value result_b;
      obj_diff := None;
      obj_rel_diff := None;
      flux_l2_norm := None;
      flux_max_diff := None;
      flux_max_diff_rxn := None;
      time_a_ms := solve_time_ms result_a;
      time_b_ms := solve_time_ms result_b;
      passed := false;
      notes := L "Non-optimal status: " ++ status result_a ++ L "/" ++ status result_b
    |}
  else
    let a := or_zero (objective_value result_a) in
    let b := or_zero (objective_value result_b) in
    let diff := abs (a - b) in
    bind (of_option empty_sequence (py_max [abs a; abs b; 1e-10%float])) (fun scale =>
    bind (float_div diff scale) (fun rel_diff =>
    bind (compare_fluxes result_a result_b) (fun '(flux_l2, flux_max, flux_max_rxn) =>
    Return {|
      cmp_model_id := model_id result_a;
      cmp_method := method result_a;
      solver_a := solver result_a;
      solver_b := solver result_b;
      obj_a := Some a;
      obj_b := Some b;
      obj_diff := Some diff;
      obj_rel_diff := Some rel_diff;
      flux_l2_norm := flux_l2;
      flux_max_diff := flux_max;
      flux_max_diff_rxn := flux_max_rxn;
      time_a_ms := solve_time_ms result_a;
      time_b_ms := solve_time_ms result_b;
      passed := PrimFloat.ltb diff OBJECTIVE_TOLERANCE;
      notes := compare_notes diff flux_max flux_max_rxn
    |}))).
End Compare.

(** *** [BiGGModelCatalog.get_benchmark_models] *)

(** [list.sort(key=...)]: a stable sort, here by insertion. *)
Fixpoint insert_by {A} (size : A -> Z) (x : A) (l : list A) : list A :=
  match l with
  | [] => [x]
  | y :: l' => if size y <=? size x then y :: insert_by size x l' else x :: l
  end.

Definition sort_by {A} (size : A -> Z) (l : list A) : list A :=
  foldr (fun x sorted => insert_by size x sorted) [] l.

(** [range(n)] *)
Definition range (n : Z) : list Z := map Z.of_nat (seq 0 (Z.to_nat n)).

(** [a / b] on ints: the rounded quotient, as that of the two floats when
    both ints are below 2^53. *)
Definition true_div (a b : Z) : outcome float :=
  if b =? 0 then Raise (OtherError "division by zero")
  else Return (float_of_int a / float_of_int b)%float.

(** [l[idx]]: a negative index counts from the end. *)
Definition item {A} (l : list A) (idx : Z) : outcome A :=
  let n := Z.of_nat (length l) in
  if (idx <? - n) || (n <=? idx) then Raise (OtherError "list index out of range")
  else of_option (OtherError "list index out of range")
         (l !! Z.to_nat (if idx <? 0 then idx + n else idx)).

(** The index of round [i] of the sampling loop: [int(i * step)]. *)
Definition sample_index (step : float) (i : Z) : outcome Z :=
  int_of_float (float_of_int i * step)%float.


Definition size_filter (min_reactions max_reactions : Z) (catalog : list ModelInfo)
    : list ModelInfo :=
  filter (fun m => (min_reactions <=? reaction_count m)
                   && (reaction_count m <=? max_reactions) = true) catalog.

(** [catalog] is [self.catalog] at the call and [fetch_catalog] what
    [self.fetch_catalog()] leaves in it (it reads a file or the network and
    can raise); the sampling loop stops at the first index that raises. *)
Definition get_benchmark_models (catalog : list ModelInfo)
    (fetch_catalog : outcome (list ModelInfo))
    (min_reactions max_reactions limit : Z) : outcome (list ModelInfo) :=
  bind (match catalog with [] => fetch_catalog | _ => Return catalog end)
    (fun catalog =>
  let filtered := sort_by reaction_count (size_filter min_reactions max_reactions catalog) in
  if Z.of_nat (length filtered) <=? limit then Return filtered
  else
    bind (true_div (Z.of_nat (length filtered)) limit) (fun step =>
    collect (map (fun i => bind (sample_index step i) (item filtered)) (range limit)))).





Import FloatOrder.

(** *** Facts about [compare] *)

(** Two flux entries of the same kind: both numbers or both ranges. *)
Definition same_kind (fa fb : flux) : bool :=
  match fa, fb with
  | Scalar _, Scalar _ | Range _ _, Range _ _ => true
  | _, _ => false
  end.



(** A walk visits every element of the set once. *)
Definition walks (walk : gset string → list string) : Prop :=
  ∀ s, walk s ≡ₚ elements s.

Lemma walks_elem_of walk s rxn : walks walk → rxn ∈ walk s ↔ rxn ∈ s.
Proof. intros H. by rewrite (H s), elem_of_elements. Qed.



Lemma flux_diff_same_kind fa fb :
  same_kind fa fb = true → ∃ d, flux_diff fa fb = Return d.
Proof. destruct fa, fb; simpl; try done; eauto. Qed.

Lemma flux_diff_other_kind fa fb :
  same_kind fa fb = false → ∃ e, flux_diff fa fb = Raise e.
Proof. destruct fa, fb; simpl; try done; eauto. Qed.



Lemma flux_loop_returns fluxes_a fluxes_b l : ∀ st,
  (∀ rxn, rxn ∈ l → ∃ fa fb,
     fluxes_a !! rxn = Some fa ∧ fluxes_b !! rxn = Some fb ∧ same_kind fa fb = true) →
  ∃ st', fold_left (flux_step fluxes_a fluxes_b) l (Return st) = Return st'.
Proof.
  induction l as [|rxn l IH]; intros st H; simpl; [eauto|].
  destruct (H rxn) as (fa & fb & -> & -> & Hk); [by left|]. simpl.
  destruct (flux_diff_same_kind fa fb Hk) as [d ->]. simpl.
  apply IH. intros rxn' Hin. apply H. by right.
Qed.

Lemma flux_loop_Raise fluxes_a fluxes_b l e :
  fold_left (flux_step fluxes_a fluxes_b) l (Raise e) = Raise e.
Proof. induction l as [|rxn l IH]; simpl; [done|exact IH]. Qed.




Lemma compare_notes_quiet diff flux_max flux_max_rxn :
  PrimFloat.ltb diff OBJECTIVE_TOLERANCE = true →
  match flux_max with
  | Some d => PrimFloat.ltb FLUX_TOLERANCE d = false
  | None => True
  end →
  compare_notes diff flux_max flux_max_rxn = [].
Proof.
  unfold compare_notes. intros -> H. destruct flux_max as [d|]; [|done].
  by rewrite H, andb_false_r.
Qed.

Section CompareFacts.
Variable walk : gset string → list string.

Lemma compare_non_optimal a b :
  status a ≠ L "optimal" ∨ status b ≠ L "optimal" →
  ∃ r, compare walk a b = Return r
    ∧ passed r = false ∧ obj_diff r = None ∧ obj_rel_diff r = None
    ∧ flux_l2_norm r = None ∧ flux_max_diff r = None ∧ flux_max_diff_rxn r = None
    ∧ obj_a r = objective_value a ∧ obj_b r = objective_value b
    ∧ notes r = L "Non-optimal status: " ++ status a ++ L "/" ++ status b.
Proof.
  intros H. unfold compare.
  assert (negb (bool_decide (status a = L "optimal"))
          || negb (bool_decide (status b = L "optimal")) = true) as ->.
  { destruct H as [H|H]; rewrite (bool_decide_eq_false_2 _ H); [done|].
    by rewrite orb_true_r. }
  eexists. split; [reflexivity|]. by simpl.
Qed.

Lemma compare_optimal a b r :
  status a = L "optimal" → status b = L "optimal" →
  compare walk a b = Return r →
  let oa := or_zero (objective_value a) in
  let ob := or_zero (objective_value b) in
  let diff := abs (oa - ob) in
  obj_a r = Some oa ∧ obj_b r = Some ob
  ∧ obj_diff r = Some diff
  ∧ (∃ scale, py_max [abs oa; abs ob; 1e-10%float] = Some scale
       ∧ obj_rel_diff r = Some (diff / scale)%float)
  ∧ passed r = PrimFloat.ltb diff OBJECTIVE_TOLERANCE
  ∧ notes r = compare_notes diff (flux_max_diff r) (flux_max_diff_rxn r)
  ∧ compare_fluxes walk a b
    = Return (flux_l2_norm r, flux_max_diff r, flux_max_diff_rxn r).
Proof.
  intros Ha Hb. unfold compare. rewrite Ha, Hb.
  rewrite !bool_decide_eq_true_2 by done. cbn [negb orb].
  intros (scale & Hs & (rel & Hrel & ([[l2 mx] rxn] & Hf & [= <-])%bind_Return)%bind_Return)%bind_Return.
  cbn [obj_a obj_b obj_diff obj_rel_diff passed notes flux_l2_norm flux_max_diff
       flux_max_diff_rxn].
  simpl in Hs. injection Hs as Hs.
  unfold float_div in Hrel. destruct (PrimFloat.eqb scale 0); [done|].
  injection Hrel as <-. split_and!; try done.
  eexists. split; [|reflexivity]. simpl. by rewrite Hs.
Qed.




End CompareFacts.


Lemma walks_elements : walks elements.
Proof. by intros s. Qed.

Definition result_of (status : string) (objective_value : option float)
    (fluxes : option (gmap string flux)) : SolveResult :=
  {| model_id := "e_coli_core"; method := "fba"; solver := "glpk"; status := L status;
     objective_value := objective_value; fluxes := fluxes; solve_time_ms := 1.5;
     error := None |}.

Definition two_fluxes : gmap string flux :=
  <["PGI" := Scalar 4.5]> (<["PFK" := Scalar 7.25]> ∅).


Definition optimal_result : SolveResult := result_of "optimal" (Some 0.875%float) (Some two_fluxes).




(** *** Facts about [get_benchmark_models] *)



Section SortFacts.
Context {A : Type} (size : A → Z).

Lemma insert_by_Permutation x l : insert_by size x l ≡ₚ x :: l.
Proof.
  induction l as [|y l IH]; simpl; [done|].
  destruct (size y <=? size x); [|done]. rewrite IH. apply Permutation_swap.
Qed.

Lemma sort_by_Permutation l : sort_by size l ≡ₚ l.
Proof.
  induction l as [|x l IH]; simpl; [done|]. by rewrite insert_by_Permutation, IH.
Qed.


End SortFacts.

Lemma size_filter_spec lo hi catalog m :
  m ∈ size_filter lo hi catalog ↔
  m ∈ catalog ∧ lo ≤ reaction_count m ≤ hi.
Proof.
  unfold size_filter. rewrite list_elem_of_filter, andb_true_iff, !Z.leb_le. tauto.
Qed.

Lemma range_length n : length (range n) = Z.to_nat n.
Proof. unfold range. by rewrite length_map, length_seq. Qed.












Definition sized_model (size : Z) : ModelInfo :=
  {| bigg_id := "model"; organism := "Unknown"; metabolite_count := 0;
     reaction_count := size; gene_count := 0 |}.

(** A catalog of 1000 models of the sizes 10, 11, ..., 1009. *)
Definition graded_catalog : list ModelInfo :=
  map (λ i, sized_model (10 + Z.of_nat i)) (seq 0 1000).




End Benchmark.
(** ** More about binary64 arithmetic *)

Module FloatLaws.
Import FloatOrder.

Lemma abs_binary_round m e :
  SFabs (binary_round prec emax true m e) = SFabs (binary_round prec emax false m e).
Proof.
  unfold binary_round. destruct (shl_align _ _ _) as [mz ez].
  unfold binary_round_aux. destruct (shr_fexp _ _ _ _ _) as [mrs e'].
  destruct (shr_fexp _ _ _ _ _) as [mrs'' e''].
  destruct (shr_m mrs''); [done| |done]. by destruct (_ <=? _).
Qed.

Lemma abs_binary_normalize m e :
  SFabs (binary_normalize prec emax (- m) e false)
  = SFabs (binary_normalize prec emax m e false).
Proof. destruct m; simpl; [done| |]; by rewrite abs_binary_round. Qed.

(** [|x - y|] and [|y - x|] are the same number. *)
Lemma abs_sub_sym x y : abs (x - y) = abs (y - x).
Proof.
  apply Prim2SF_inj. rewrite !abs_spec, !sub_spec.
  destruct (Prim2SF x) as [sx|sx| |sx mx ex], (Prim2SF y) as [sy|sy| |sy my ey];
    try done; try (by destruct sx, sy); try (by destruct sx); try (by destruct sy).
  unfold SF64sub, SFsub. rewrite (Z.min_comm ey ex).
  rewrite <- abs_binary_normalize. f_equal. f_equal. lia.
Qed.

(** NaN divided by anything is NaN. *)
Lemma nan_div x y : is_nan x = true → is_nan (x / y) = true.
Proof.
  intros Hx%is_nan_spec. apply is_nan_spec. rewrite div_spec, Hx. done.
Qed.

Lemma nan_sub_l x y : is_nan x = true → is_nan (x - y) = true.
Proof. intros Hx%is_nan_spec. apply is_nan_spec. by rewrite sub_spec, Hx. Qed.

Lemma nan_sub_r x y : is_nan y = true → is_nan (x - y) = true.
Proof.
  intros Hy%is_nan_spec. apply is_nan_spec. rewrite sub_spec, Hy.
  by destruct (Prim2SF x).
Qed.

(** There is one NaN. *)
Lemma nan_unique x y : is_nan x = true → is_nan y = true → x = y.
Proof.
  intros Hx%is_nan_spec Hy%is_nan_spec. apply Prim2SF_inj. congruence.
Qed.

(** Two numbers that are not negative and have the same place on the
    number line are the same number. *)
Lemma abs_rank_inj x y :
  is_nan x = false → is_nan y = false → frank (abs x) = frank (abs y) → abs x = abs y.
Proof.
  intros Hx%is_nan_false Hy%is_nan_false. unfold frank, not_nan in *.
  intros H. apply Prim2SF_inj. revert H. rewrite !abs_spec.
  pose proof (Prim2SF_valid x) as Vx. pose proof (Prim2SF_valid y) as Vy.
  destruct (Prim2SF x) as [sx|sx| |sx mx ex], (Prim2SF y) as [sy|sy| |sy my ey];
    simpl; try done; try (rewrite K_value; lia).
  - apply valid_finite in Vy as (Hm & He & _). rewrite K_value in *. lia.
  - apply valid_finite in Vy as (Hm & He & _). rewrite K_value in *. lia.
  - apply valid_finite in Vx as (Hm & He & _). rewrite K_value in *. lia.
  - apply valid_finite in Vx as (Hm & He & _). rewrite K_value in *. lia.
  - apply valid_finite in Vx as (Hmx & Hex & _). apply valid_finite in Vy as (Hmy & Hey & _).
    rewrite K_value in *. intros H.
    assert (ex = ey) as -> by nia. assert (mx = my) as -> by lia. done.
Qed.

End FloatLaws.
(** ** More about the evaluator of gene rules *)

Module GprLaws.
Import PyStr PyFloat Gpr.


(** A rule that is one token which [float] reads as a number (a numeric
    gene id such as [2597], or [nan], or [inf]) evaluates to that number:
    the expression map is not looked at. *)
Theorem numeric_token_is_not_looked_up (expression : gmap string float) (fuel : nat)
    (rule : str) (v : float) :
  contains (L "(") (strip rule) = false →
  contains (L " or ") (lower (strip rule)) = false →
  contains (L " and ") (lower (strip rule)) = false →
  float_of_str (strip rule) = Some v →
  evaluate_gpr_expression expression (S fuel) rule = Return v.
Proof.
  intros H1 H2 H3 Hv.
  assert (strip rule ≠ []) as Hne by (intros E; by rewrite E in Hv).
  rewrite evaluate_gpr_expression_evaluate by done. unfold evaluate.
  by rewrite evaluate_body_S, H1, H2, H3, Hv.
Qed.

Lemma numeric_token_is_not_looked_up_witness :
  evaluate_gpr_expression (<["2597" := 0.1%float]> ∅) 1 (L " 2597 ") = Return 2597%float.
Proof.
  apply (numeric_token_is_not_looked_up (<["2597" := 0.1%float]> ∅) 0 (L " 2597 "));
    by vm_compute.
Defined.
End GprLaws.
(** ** More about [apply_constraints] and the bound scaling of E-Flux *)

Module ApiLaws.
Import PyStr PyFloat FloatOrder Api.

Lemma model_eq (m1 m2 : Model) :
  (∀ id, reactions m1 !! id = reactions m2 !! id) →
  (∀ id, genes m1 !! id = genes m2 !! id) → m1 = m2.
Proof.
  destruct m1 as [r1 g1], m2 as [r2 g2]. simpl. intros Hr Hg.
  f_equal; by apply map_eq.
Qed.

Lemma set_bounds_twice (later earlier : gmap string float) rxn :
  set_bounds later (set_bounds earlier rxn) = set_bounds (later ∪ earlier) rxn.
Proof.
  unfold set_bounds. rewrite !lookup_union.
  destruct (later !! "lb"%string), (later !! "ub"%string),
    (earlier !! "lb"%string), (earlier !! "ub"%string); by destruct rxn.
Qed.

Lemma overridden_twice (later earlier : gmap string (gmap string float)) id rxn :
  overridden later id (overridden earlier id rxn)
  = overridden (union_with (λ l e, Some (l ∪ e)) later earlier) id rxn.
Proof.
  unfold overridden. rewrite lookup_union_with.
  destruct (later !! id) as [l|], (earlier !! id) as [e|]; simpl; try done.
  apply set_bounds_twice.
Qed.

Lemma knocked_twice (later earlier : list string) id gene :
  knocked later id (knocked earlier id gene) = knocked (earlier ++ later) id gene.
Proof.
  unfold knocked, knock_out.
  destruct (decide (id ∈ later)) as [Hl|Hl], (decide (id ∈ earlier)) as [He|He];
    destruct (decide (id ∈ earlier ++ later)) as [H|H]; try done;
    exfalso; rewrite elem_of_app in H; tauto.
Qed.

(** Two calls of [apply_constraints] in a row are one call: with the
    override maps merged, where a bound given by the later call wins, and
    with the knock-out lists put together.  So a call that is repeated with
    the same arguments changes nothing more. *)
Theorem apply_constraints_twice (model : Model)
    (earlier later : gmap string (gmap string float)) (knockouts1 knockouts2 : list string) :
  bind (apply_constraints model earlier knockouts1)
       (λ model1, apply_constraints model1 later knockouts2)
  = apply_constraints model (union_with (λ l e, Some (l ∪ e)) later earlier)
      (knockouts1 ++ knockouts2)
  ∧ bind (apply_constraints model earlier knockouts1)
         (λ model1, apply_constraints model1 earlier knockouts1)
    = apply_constraints model earlier knockouts1.
Proof.
  assert (∀ c1 c2 k1 k2,
    bind (apply_constraints model c1 k1) (λ model1, apply_constraints model1 c2 k2)
    = apply_constraints model (union_with (λ l e, Some (l ∪ e)) c2 c1) (k1 ++ k2)) as Hcomp.
  { intros c1 c2 k1 k2.
    destruct (apply_constraints_spec model c1 k1) as (m1 & -> & Hr1 & Hg1). simpl.
    destruct (apply_constraints_spec m1 c2 k2) as (m2 & -> & Hr2 & Hg2).
    destruct (apply_constraints_spec model (union_with (λ l e, Some (l ∪ e)) c2 c1) (k1 ++ k2))
      as (m & -> & Hr & Hg).
    f_equal. apply model_eq.
    - intros id. rewrite Hr2, Hr1, Hr. destruct (reactions model !! id); [simpl|done].
      by rewrite overridden_twice.
    - intros id. rewrite Hg2, Hg1, Hg. destruct (genes model !! id); [simpl|done].
      by rewrite knocked_twice. }
  split; [apply Hcomp|].
  rewrite Hcomp.
  destruct (apply_constraints_spec model earlier knockouts1) as (m1 & -> & Hr1 & Hg1).
  destruct (apply_constraints_spec model (union_with (λ l e, Some (l ∪ e)) earlier earlier)
              (knockouts1 ++ knockouts1)) as (m & -> & Hr & Hg).
  f_equal. apply model_eq.
  - intros id. rewrite Hr1, Hr. destruct (reactions model !! id); [simpl|done].
    rewrite <- overridden_twice. unfold overridden.
    destruct (earlier !! id) as [bounds|]; [|done].
    by rewrite set_bounds_twice, (idemp_L (∪) bounds).
  - intros id. rewrite Hg1, Hg. destruct (genes model !! id); [simpl|done].
    rewrite <- knocked_twice. unfold knocked, knock_out.
    by destruct (decide (id ∈ knockouts1)).
Qed.
(** A number is finite when it is not NaN and lies between the two
    infinities. *)
Lemma finite_by_rank x :
  is_finite x = true ↔ is_nan x = false ∧ - (4000 * K) < frank x < 4000 * K.
Proof.
  rewrite is_finite_spec, is_nan_false. unfold not_nan, frank.
  pose proof (Prim2SF_valid x) as V.
  destruct (Prim2SF x) as [s|s| |s m e]; simpl.
  - split; [intros _|done]. split; [done|]. rewrite K_value. lia.
  - split; [done|]. intros [_ H]. destruct s; lia.
  - split; [done|]. by intros [? _].
  - split; [intros _|done]. split; [done|].
    apply valid_finite in V as (Hm & He & _). rewrite K_value in *. destruct s; lia.
Qed.

(** The scaling of E-Flux keeps 0 within finite bounds: a reaction with
    finite bounds [lower <= 0 <= upper], scaled with a score that is at
    least 0 when it is below 1.0, again has finite bounds with
    [lower <= 0 <= upper] and the same gene rule.  So the scaling can be
    repeated, and the flux 0 stays allowed. *)
Theorem eflux_keeps_zero_within_bounds (expr : float) (rxn : Reaction) :
  straddles_zero rxn →
  (PrimFloat.ltb expr 1 = true → PrimFloat.leb 0 expr = true) →
  straddles_zero (eflux_scale expr rxn)
  ∧ gene_reaction_rule (eflux_scale expr rxn) = gene_reaction_rule rxn.
Proof.
  intros (Hl & Hu & Hl0 & Hu0) He.
  destruct (PrimFloat.ltb expr 1) eqn:E1.
  2: { rewrite eflux_scale_unchanged by done. by split_and!. }
  destruct (eflux_scale_bounds expr rxn E1) as (Eu & El & Er). split; [|done].
  unfold straddles_zero. rewrite Eu, El.
  pose proof Hl0 as (Nl & _ & Rl)%leb_true. pose proof Hu0 as (_ & Nu & Ru)%leb_true.
  rewrite frank_zero in Rl, Ru.
  destruct (mul_shrinks _ expr Hu (He eq_refl) E1) as (Hn1 & Hp1 & _).
  destruct (mul_shrinks _ expr Hl (He eq_refl) E1) as (Hn2 & _ & Hp2).
  specialize (Hp1 Ru). specialize (Hp2 Rl).
  apply finite_by_rank in Hl as [_ Hlr], Hu as [_ Hur].
  destruct (PrimFloat.ltb 0 (upper_bound rxn)), (PrimFloat.ltb (lower_bound rxn) 0);
    split_and!;
    try (apply finite_by_rank; split; [done|lia]);
    try (apply leb_true; rewrite ?frank_zero; split_and!; [done..|lia]).
Qed.
Lemma eflux_keeps_zero_within_bounds_witness :
  straddles_zero (eflux_scale 0.5 (gene_reaction (-10) 10))
  ∧ gene_reaction_rule (eflux_scale 0.5 (gene_reaction (-10) 10)) = L "g".
Proof.
  apply (eflux_keeps_zero_within_bounds 0.5 (gene_reaction (-10) 10)).
  - by vm_compute.
  - reflexivity.
Defined.

(** The loop of E-Flux rewrites bounds only: the model has the same genes
    and the same reaction ids afterwards, every reaction keeps its gene
    rule, and a reaction without a gene rule keeps its bounds. *)
Theorem eflux_rewrites_bounds_only (fuel : nat) (expression : gmap string float)
    (model model' : Model) :
  eflux_bounds fuel expression model = Return model' →
  genes model' = genes model
  ∧ dom (reactions model') = dom (reactions model)
  ∧ ∀ id rxn, reactions model !! id = Some rxn →
      ∃ rxn', reactions model' !! id = Some rxn'
        ∧ gene_reaction_rule rxn' = gene_reaction_rule rxn
        ∧ (gene_reaction_rule rxn = [] → rxn' = rxn).
Proof.
  intros [Hg Hr]%eflux_bounds_spec. split_and!; [done | |].
  - apply set_eq. intros id. rewrite !elem_of_dom. specialize (Hr id).
    destruct (reactions model !! id) as [rxn|].
    + destruct Hr as (rxn' & _ & ->). split; eauto.
    + rewrite Hr. split; by intros [? ?].
  - intros id rxn Hid. specialize (Hr id). rewrite Hid in Hr.
    destruct Hr as (rxn' & Hrxn & Hid'). exists rxn'. split; [done|].
    destruct (decide (gene_reaction_rule rxn = [])) as [Hnil|Hrule].
    + rewrite eflux_reaction_no_rule in Hrxn by done. injection Hrxn as <-. done.
    + rewrite eflux_reaction_rule in Hrxn by done.
      apply bind_Return in Hrxn as (expr & _ & [= <-]).
      split; [|done]. unfold eflux_scale, scale_bounds.
      destruct (PrimFloat.ltb expr 1); [|done].
      destruct (PrimFloat.ltb 0 (upper_bound rxn)); simpl;
        by destruct (PrimFloat.ltb _ 0).
Qed.

Lemma eflux_rewrites_bounds_only_witness :
  ∃ model',
    eflux_bounds 1 {[ "g"%string := 0.5%float ]} (one_reaction_model (gene_reaction (-10) 10))
    = Return model'
    ∧ genes model' = {[ "g"%string := {| functional := true |} ]}
    ∧ dom (reactions model') = {[ "R1"%string ]}.
Proof.
  assert (eflux_bounds 1 {[ "g"%string := 0.5%float ]}
            (one_reaction_model (gene_reaction (-10) 10))
          = Return (one_reaction_model (gene_reaction (-5) 5))) as H by by vm_compute.
  eexists. split; [exact H|].
  destruct (eflux_rewrites_bounds_only _ _ _ _ H) as (Hg & Hd & _).
  split; [exact Hg|]. rewrite Hd. apply dom_singleton_L.
Defined.
End ApiLaws.
(** ** More about the endpoints of api.py *)

Module EndpointLaws.
Import PyStr PyFloat FloatOrder Api Endpoints.

Lemma filter_none {A} (P : A → Prop) `{∀ x, Decision (P x)} (l : list A) :
  Forall (λ x, ¬ P x) l → filter P l = [].
Proof.
  induction 1 as [|x l Hx _ IH]; [done|]. by rewrite filter_cons_False.
Qed.

Section OmicsEndpoints.
Context `{Cobra}.

(** The reactions that [solve_imat] puts into [high_expr_rxns] and into
    [low_expr_rxns], given the scores of the reactions that have a rule. *)
Definition imat_high (high_threshold : float) (scores : list (string * float))
    : list string :=
  (filter (λ kv, PrimFloat.leb high_threshold kv.2 = true) scores).*1.

Definition imat_low (high_threshold low_threshold : float) (scores : list (string * float))
    : list string :=
  (filter (λ kv, PrimFloat.leb high_threshold kv.2 = false
                 ∧ PrimFloat.leb kv.2 low_threshold = true) scores).*1.

(** What [solve_imat] does once the two lists are made. *)
Definition imat_solve (high_expr_rxns low_expr_rxns : list string) (model : Model * Problem)
    : outcome SolverResponse :=
  bind (add_indicators true high_expr_rxns model) (λ model,
  bind (add_indicators false low_expr_rxns model) (λ model,
  bind (match high_expr_rxns ++ low_expr_rxns with
        | [] => Return model
        | _ => set_indicator_objective high_expr_rxns low_expr_rxns model
        end) (λ model,
  bind (optimize model) (λ solution,
  Return (solver_response "imat" solution (get_fluxes model solution)))))).

Lemma imat_body_lists fuel request :
  imat_body fuel request
  = bind (model_from_dict (om_model request)) (λ model,
    bind (scored_reactions fuel (om_expression request) model.1) (λ scores,
    imat_solve (imat_high (om_high_threshold request) scores)
      (imat_low (om_high_threshold request) (om_low_threshold request) scores) model)).
Proof. reflexivity. Qed.

Lemma scored_list (f : Reaction → outcome float) (l : list (string * Reaction)) :
  ∀ scores,
  collect (map (λ kv, bind (f kv.2) (λ v, Return (kv.1, v))) l) = Return scores →
  Forall2 (λ kv (s : string * float), s.1 = kv.1 ∧ f kv.2 = Return s.2) l scores.
Proof.
  induction l as [|kv l IH]; intros scores; simpl.
  - intros [= <-]. constructor.
  - intros ([id v] & (v' & Hv & [= <- <-])%bind_Return
            & (rest & Hrest & [= <-])%bind_Return)%bind_Return.
    constructor; [by split | by apply IH].
Qed.

Lemma scored_reactions_spec fuel expression (model : Model) scores :
  scored_reactions fuel expression model = Return scores →
  NoDup scores.*1
  ∧ ∀ id score, (id, score) ∈ scores ↔
      ∃ rxn, reactions model !! id = Some rxn ∧ gene_reaction_rule rxn ≠ []
             ∧ Gpr.evaluate_gpr_expression expression fuel (gene_reaction_rule rxn)
               = Return score.
Proof.
  unfold scored_reactions.
  set (ruled := filter (λ kv : string * Reaction, gene_reaction_rule kv.2 ≠ [])
                  (map_to_list (reactions model))).
  intros Hs%(scored_list (λ rxn, Gpr.evaluate_gpr_expression expression fuel
                                    (gene_reaction_rule rxn))).
  assert (scores.*1 = ruled.*1) as Hkeys.
  { clear -Hs. induction Hs as [|kv s l k [Hk _] _ IH]; [done|]. by rewrite !fmap_cons, Hk, IH. }
  split.
  - rewrite Hkeys. apply (sublist_NoDup _ (map_to_list (reactions model)).*1).
    + apply NoDup_fst_map_to_list.
    + apply fmap_sublist, sublist_filter.
  - intros id score. split.
    + intros (i & Hi)%list_elem_of_lookup.
      destruct (Forall2_lookup_r _ _ _ _ _ Hs Hi) as ([id' rxn] & Hkv & Hid & Hv).
      simpl in Hid, Hv. subst id'.
      apply list_elem_of_lookup_2, list_elem_of_filter in Hkv as [Hrule Hin].
      apply elem_of_map_to_list in Hin. by exists rxn.
    + intros (rxn & Hid & Hrule & Hv).
      assert ((id, rxn) ∈ ruled) as (i & Hi)%list_elem_of_lookup.
      { apply list_elem_of_filter. split; [done|]. by apply elem_of_map_to_list. }
      destruct (Forall2_lookup_l _ _ _ _ _ Hs Hi) as ([id' score'] & Hs' & Hid' & Hv').
      simpl in Hid', Hv'. subst id'. rewrite Hv in Hv'. injection Hv' as <-.
      by eapply list_elem_of_lookup_2.
Qed.

(** The two lists of [solve_imat].  A reaction is put into
    [high_expr_rxns] when it has a gene rule whose score satisfies
    [score >= high_threshold], and into [low_expr_rxns] when it has a gene
    rule whose score fails that test and satisfies [score <= low_threshold].
    So no reaction is in both lists, also when the high threshold is not
    above the low one; a reaction without a gene rule and a reaction whose
    score is NaN is in neither; and no reaction is listed twice. *)
Theorem imat_classes (fuel : nat) (request : OmicsRequest) (model : Model * Problem)
    (scores : list (string * float)) :
  scored_reactions fuel (om_expression request) model.1 = Return scores →
  let high := imat_high (om_high_threshold request) scores in
  let low := imat_low (om_high_threshold request) (om_low_threshold request) scores in
  let scored id score :=
    ∃ rxn, reactions model.1 !! id = Some rxn ∧ gene_reaction_rule rxn ≠ []
           ∧ Gpr.evaluate_gpr_expression (om_expression request) fuel
               (gene_reaction_rule rxn) = Return score in
  (model_from_dict (om_model request) = Return model →
   imat_body fuel request = imat_solve high low model)
  ∧ (∀ id, id ∈ high ↔
       ∃ score, scored id score ∧ PrimFloat.leb (om_high_threshold request) score = true)
  ∧ (∀ id, id ∈ low ↔
       ∃ score, scored id score
                ∧ PrimFloat.leb (om_high_threshold request) score = false
                ∧ PrimFloat.leb score (om_low_threshold request) = true)
  ∧ (∀ id, id ∈ high → id ∉ low)
  ∧ (∀ id score, scored id score → is_nan score = true → (id ∉ high) ∧ (id ∉ low))
  ∧ NoDup high ∧ NoDup low.
Proof.
  intros Hs high low scored.
  destruct (scored_reactions_spec _ _ _ _ Hs) as [Hnd Hin].
  assert (∀ id, id ∈ high ↔
    ∃ score, scored id score ∧ PrimFloat.leb (om_high_threshold request) score = true)
    as Hhigh.
  { intros id. unfold high, imat_high. rewrite list_elem_of_fmap. split.
    - intros ([id' score] & -> & [Hle Hsc]%list_elem_of_filter).
      exists score. split; [by apply Hin | done].
    - intros (score & Hsc & Hle). exists (id, score). split; [done|].
      apply list_elem_of_filter. split; [done | by apply Hin]. }
  assert (∀ id, id ∈ low ↔
    ∃ score, scored id score
             ∧ PrimFloat.leb (om_high_threshold request) score = false
             ∧ PrimFloat.leb score (om_low_threshold request) = true) as Hlow.
  { intros id. unfold low, imat_low. rewrite list_elem_of_fmap. split.
    - intros ([id' score] & -> & [[Hh Hl] Hsc]%list_elem_of_filter).
      exists score. split; [by apply Hin | done].
    - intros (score & Hsc & Hh & Hl). exists (id, score). split; [done|].
      apply list_elem_of_filter. split; [done | by apply Hin]. }
  assert (∀ id s1 s2, scored id s1 → scored id s2 → s1 = s2) as Hfun.
  { intros id s1 s2 (r1 & Hr1 & _ & H1) (r2 & Hr2 & _ & H2). congruence. }
  split_and!; [|done|done| | | |].
  - intros Hm. rewrite imat_body_lists, Hm. simpl. by rewrite Hs.
  - intros id (s1 & Hs1 & Hle1)%Hhigh (s2 & Hs2 & Hle2 & _)%Hlow.
    rewrite (Hfun id s1 s2 Hs1 Hs2) in Hle1. congruence.
  - intros id score Hsc Hnan. split.
    + intros (s & Hs' & (_ & Hn & _)%leb_true)%Hhigh.
      rewrite (Hfun id s score Hs' Hsc) in Hn. congruence.
    + intros (s & Hs' & _ & (Hn & _)%leb_true)%Hlow.
      rewrite (Hfun id s score Hs' Hsc) in Hn. congruence.
  - unfold high, imat_high. eapply sublist_NoDup; [exact Hnd|].
    apply fmap_sublist, sublist_filter.
  - unfold low, imat_low. eapply sublist_NoDup; [exact Hnd|].
    apply fmap_sublist, sublist_filter.
Qed.

(** On a model without any gene rule the expression data has no effect:
    [solve_eflux] changes no bound and [solve_imat] adds no variable and
    leaves the objective alone, so both solve the model as it was parsed;
    E-Flux reads the fluxes with [solution.fluxes[id]], iMAT with
    [solution.fluxes.get(id, 0)]. *)
Theorem omics_without_gene_rules (fuel : nat) (request : OmicsRequest)
    (model : Model * Problem) :
  model_from_dict (om_model request) = Return model →
  (∀ id rxn, reactions model.1 !! id = Some rxn → gene_reaction_rule rxn = []) →
  eflux_body fuel request
  = bind (optimize model) (λ solution,
    bind (read_fluxes model solution) (λ fl,
    Return (solver_response "eflux" solution fl)))
  ∧ imat_body fuel request
    = bind (optimize model) (λ solution,
      Return (solver_response "imat" solution (get_fluxes model solution))).
Proof.
  intros Hm Hnone. split.
  - unfold eflux_body. rewrite Hm. cbn [bind].
    assert (eflux_bounds fuel (om_expression request) model.1 = Return model.1) as ->.
    { destruct (eflux_bounds_fold_returns fuel (om_expression request)
                  (reactions model.1) (reactions model.1)) as [rs Hrs].
      { intros id rxn Hid. exists rxn. apply eflux_reaction_no_rule. by eapply Hnone. }
      assert (eflux_bounds fuel (om_expression request) model.1
              = Return (set_reactions rs model.1)) as Hb.
      { unfold eflux_bounds. by rewrite Hrs. }
      rewrite Hb. f_equal. apply ApiLaws.model_eq; [|done].
      intros id. destruct (eflux_bounds_spec _ _ _ _ Hb) as [_ Hr]. specialize (Hr id).
      destruct (reactions model.1 !! id) as [rxn|] eqn:E; [|done].
      destruct Hr as (rxn' & Hrxn & ->).
      rewrite eflux_reaction_no_rule in Hrxn by by eapply Hnone. congruence. }
    cbn [bind]. by destruct model.
  - rewrite imat_body_lists, Hm. cbn [bind].
    assert (scored_reactions fuel (om_expression request) model.1 = Return []) as ->.
    { unfold scored_reactions. rewrite filter_none; [done|].
      apply Forall_forall. intros [id rxn] Hin%elem_of_map_to_list Hrule.
      apply Hrule. by eapply Hnone. }
    done.
Qed.

(** GIMME solves FBA first.  When that solve does not report ["optimal"],
    the endpoint answers with the status ["error"] and the text
    ["Model infeasible: "] followed by the reported status, whatever that
    status is, and nothing else is solved. *)
Theorem gimme_needs_optimal_fba (fuel : nat) (request : OmicsRequest)
    (model : Model * Problem) (scores : list (string * float)) (solution : Solution) :
  import_cobra = Return () →
  model_from_dict (om_model request) = Return model →
  reaction_scores fuel (om_expression request) model.1 = Return scores →
  optimize model = Return solution →
  status solution ≠ "optimal"%string →
  solve_gimme fuel request
  = Return {| r_status := "error"; r_objective_value := None; r_fluxes := ∅;
              r_method := "gimme";
              r_error := Some ("Model infeasible: " +:+ status solution) |}.
Proof.
  intros Himp Hm Hs Ho Hst. unfold solve_gimme, endpoint, gimme_body.
  rewrite Himp, Hm. cbn [bind]. rewrite Hs. cbn [bind]. rewrite Ho. cbn [bind].
  apply String.eqb_neq in Hst. by rewrite Hst.
Qed.

End OmicsEndpoints.

(** *** A small environment *)

(** An environment in which every request parses to the model [net] and
    every solve returns [solution]. *)
Definition toy_cobra (net : Model) (solution : Solution) : Cobra :=
  {| Raw := unit;
     Problem := unit;
     import_cobra := Return ();
     from_json := λ _, Return (net, ());
     set_objective := λ _ model, model;
     optimize := λ _, Return solution;
     pfba := λ _, Return solution;
     flux_variability_analysis := λ _ _ _, Return ∅;
     moma := λ _ _, Return solution;
     bound_objective := λ _ model, Return model;
     set_penalty_objective := λ _ model, Return model;
     add_indicator := λ _ _ model, Return model;
     set_indicator_objective := λ _ _ model, Return model |}.

Definition toy_request (net : Model) (solution : Solution)
    (expression : gmap string float) : @OmicsRequest (toy_cobra net solution) :=
  {| om_model := {| md_raw := (() : @Raw (toy_cobra net solution)); md_objective := None |};
     om_expression := expression; om_threshold := 0.25; om_high_threshold := 0.75;
     om_low_threshold := 0.25; om_required_fraction := 0.9 |}.

Definition rule_reaction (rule : string) : Reaction :=
  {| lower_bound := (-1000)%float; upper_bound := 1000%float; gene_reaction_rule := L rule |}.

(** Three reactions: one ruled by gene [g1], one by [g2], one without a
    rule. *)
Definition three_reactions : Model :=
  {| reactions := <["R1" := rule_reaction "g1"]>
                    (<["R2" := rule_reaction "g2"]> (<["R3" := rule_reaction ""]> ∅));
     genes := ∅ |}.

(** The same three reactions without any rule. *)
Definition three_plain_reactions : Model :=
  {| reactions := <["R1" := rule_reaction ""]>
                    (<["R2" := rule_reaction ""]> (<["R3" := rule_reaction ""]> ∅));
     genes := ∅ |}.

Definition no_fluxes (reported : string) : Solution :=
  {| status := reported; objective_value := None; fluxes := ∅ |}.

Definition two_genes : gmap string float := <["g1" := 0.9%float]> (<["g2" := 0.1%float]> ∅).

Lemma imat_classes_witness :
  imat_high 0.75 [("R1"%string, 0.9%float); ("R2"%string, 0.1%float)] = ["R1"%string]
  ∧ NoDup (imat_high 0.75 [("R1"%string, 0.9%float); ("R2"%string, 0.1%float)])
  ∧ NoDup (imat_low 0.75 0.25 [("R1"%string, 0.9%float); ("R2"%string, 0.1%float)]).
Proof.
  split; [by vm_compute|].
  assert (scored_reactions 1 two_genes three_reactions
          = Return [("R1"%string, 0.9%float); ("R2"%string, 0.1%float)]) as Hs
    by by vm_compute.
  destruct (@imat_classes (toy_cobra three_reactions (no_fluxes "optimal")) 1
              (toy_request three_reactions (no_fluxes "optimal") two_genes)
              (three_reactions, ()) _ Hs) as (_ & _ & _ & _ & _ & H1 & H2).
  by split.
Defined.

Lemma omics_without_gene_rules_witness :
  @eflux_body (toy_cobra three_plain_reactions (no_fluxes "optimal")) 1
    (toy_request three_plain_reactions (no_fluxes "optimal") two_genes)
  = Raise (KeyError "fluxes")
  ∧ bind (@imat_body (toy_cobra three_plain_reactions (no_fluxes "optimal")) 1
            (toy_request three_plain_reactions (no_fluxes "optimal") two_genes))
         (λ r, Return (r_status r))
    = Return "optimal"%string.
Proof.
  destruct (@omics_without_gene_rules (toy_cobra three_plain_reactions (no_fluxes "optimal")) 1
              (toy_request three_plain_reactions (no_fluxes "optimal") two_genes)
              (three_plain_reactions, ()) eq_refl) as [He Hi].
  - intros id rxn. simpl.
    destruct (decide (id = "R1"%string)) as [->|?]; [by intros [= <-]|].
    rewrite lookup_insert_ne by done.
    destruct (decide (id = "R2"%string)) as [->|?]; [by intros [= <-]|].
    rewrite lookup_insert_ne by done.
    destruct (decide (id = "R3"%string)) as [->|?]; [by intros [= <-]|].
    by rewrite lookup_insert_ne.
  - rewrite He, Hi. split; by vm_compute.
Defined.

Lemma gimme_needs_optimal_fba_witness :
  @solve_gimme (toy_cobra three_reactions (no_fluxes "unbounded")) 1
    (toy_request three_reactions (no_fluxes "unbounded") two_genes)
  = Return {| r_status := "error"; r_objective_value := None; r_fluxes := ∅;
              r_method := "gimme"; r_error := Some "Model infeasible: unbounded"%string |}.
Proof.
  eapply (@gimme_needs_optimal_fba (toy_cobra three_reactions (no_fluxes "unbounded")) 1
            (toy_request three_reactions (no_fluxes "unbounded") two_genes)
            (three_reactions, ()) _ (no_fluxes "unbounded")).
  - reflexivity.
  - reflexivity.
  - vm_compute. reflexivity.
  - reflexivity.
  - simpl. discriminate.
Defined.

(** *** The objective of GIMME *)

(** The weights of the GIMME objective by reaction id, given the scores of
    the reactions: [threshold - expr_val] for each reaction with
    [expr_val < threshold]. *)
Definition gimme_penalties (threshold : float) (reaction_expression : list (string * float))
    : gmap string float :=
  list_to_map
    (omap (λ kv : string * float,
             if PrimFloat.ltb kv.2 threshold then Some (kv.1, (threshold - kv.2)%float)
             else None)
          reaction_expression).

Lemma gimme_body_penalties `{Cobra} fuel request :
  gimme_body fuel request
  = bind (model_from_dict (om_model request)) (λ model,
    bind (reaction_scores fuel (om_expression request) model.1) (λ reaction_expression,
    bind (optimize model) (λ solution,
    if negb (String.eqb (status solution) "optimal") then
      Raise (ValueError ("Model infeasible: " +:+ status solution))
    else
    bind (of_option (OtherError "TypeError") (objective_value solution)) (λ v,
    bind (bound_objective (om_required_fraction request * v)%float model) (λ model,
    bind (set_penalty_objective
            (gimme_penalties (om_threshold request) reaction_expression) model) (λ model,
    bind (optimize model) (λ solution,
    bind (read_fluxes model solution) (λ fl,
    Return (solver_response "gimme" solution fl))))))))).
Proof. reflexivity. Qed.

Lemma reaction_scores_spec fuel expression (model : Model) scores :
  reaction_scores fuel expression model = Return scores →
  NoDup scores.*1
  ∧ ∀ id score, (id, score) ∈ scores ↔
      ∃ rxn, reactions model !! id = Some rxn
             ∧ reaction_score fuel expression rxn = Return score.
Proof.
  unfold reaction_scores.
  intros Hs%(scored_list (λ rxn, reaction_score fuel expression rxn)).
  assert (scores.*1 = (map_to_list (reactions model)).*1) as Hkeys.
  { clear -Hs. induction Hs as [|kv s l k [Hk _] _ IH]; [done|]. by rewrite !fmap_cons, Hk, IH. }
  split; [rewrite Hkeys; apply NoDup_fst_map_to_list|].
  intros id score. split.
  - intros (i & Hi)%list_elem_of_lookup.
    destruct (Forall2_lookup_r _ _ _ _ _ Hs Hi) as ([id' rxn] & Hkv & Hid & Hv).
    simpl in Hid, Hv. subst id'.
    apply list_elem_of_lookup_2, elem_of_map_to_list in Hkv. by exists rxn.
  - intros (rxn & Hid & Hv).
    assert ((id, rxn) ∈ map_to_list (reactions model)) as (i & Hi)%list_elem_of_lookup
      by by apply elem_of_map_to_list.
    destruct (Forall2_lookup_l _ _ _ _ _ Hs Hi) as ([id' score'] & Hs' & Hid' & Hv').
    simpl in Hid', Hv'. subst id'. rewrite Hv in Hv'. injection Hv' as <-.
    by eapply list_elem_of_lookup_2.
Qed.

(** The objective of GIMME.  A reaction gets a weight exactly when its
    score is below the threshold, and the weight is [threshold - score].
    So a reaction without a gene rule, whose score is 1.0, is penalised
    exactly when the threshold is above 1.0; a reaction whose score is NaN
    is never penalised; and only reactions of the model get a weight. *)
Theorem gimme_penalises_low_scores (fuel : nat) (expression : gmap string float)
    (threshold : float) (model : Model) (scores : list (string * float)) :
  reaction_scores fuel expression model = Return scores →
  let penalties := gimme_penalties threshold scores in
  (∀ id weight, penalties !! id = Some weight ↔
     ∃ rxn score, reactions model !! id = Some rxn
       ∧ reaction_score fuel expression rxn = Return score
       ∧ PrimFloat.ltb score threshold = true
       ∧ weight = (threshold - score)%float)
  ∧ (∀ id rxn, reactions model !! id = Some rxn → gene_reaction_rule rxn = [] →
       (is_Some (penalties !! id) ↔ PrimFloat.ltb 1 threshold = true))
  ∧ (∀ id rxn score, reactions model !! id = Some rxn →
       reaction_score fuel expression rxn = Return score → is_nan score = true →
       penalties !! id = None)
  ∧ dom penalties ⊆ dom (reactions model).
Proof.
  intros Hs penalties. destruct (reaction_scores_spec _ _ _ _ Hs) as [Hnd Hin].
  set (weighted := omap (λ kv : string * float,
                           if PrimFloat.ltb kv.2 threshold
                           then Some (kv.1, (threshold - kv.2)%float) else None) scores).
  assert (NoDup weighted.*1) as Hnd'.
  { clear -Hnd. unfold weighted. induction scores as [|[id s] l IH]; [constructor|].
    cbn [omap list_omap fst snd]. apply NoDup_cons in Hnd as [Hid Hl].
    destruct (PrimFloat.ltb s threshold); [|by apply IH].
    rewrite fmap_cons. apply NoDup_cons. split; [|by apply IH].
    intros ([id' w] & Hid' & ([id'' s'] & Hmem & Hw)%list_elem_of_omap)%list_elem_of_fmap.
    simpl in *. destruct (PrimFloat.ltb s' threshold); [|done]. simplify_eq.
    apply Hid. apply list_elem_of_fmap. eexists (_, s'). by split. }
  assert (∀ id weight, penalties !! id = Some weight ↔
     ∃ rxn score, reactions model !! id = Some rxn
       ∧ reaction_score fuel expression rxn = Return score
       ∧ PrimFloat.ltb score threshold = true
       ∧ weight = (threshold - score)%float) as Hspec.
  { intros id weight. unfold penalties, gimme_penalties. fold weighted.
    rewrite <- elem_of_list_to_map by done. unfold weighted. rewrite list_elem_of_omap.
    split.
    - intros ([id' score] & Hmem & Hw). simpl in Hw.
      destruct (PrimFloat.ltb score threshold) eqn:E; [|done]. injection Hw as -> <-.
      apply Hin in Hmem as (rxn & Hid & Hv). by exists rxn, score.
    - intros (rxn & score & Hid & Hv & Hlt & ->). exists (id, score). simpl.
      rewrite Hlt. split; [|done]. apply Hin. by exists rxn. }
  split_and!.
  - done.
  - intros id rxn Hid Hrule.
    assert (reaction_score fuel expression rxn = Return 1%float) as Hone
      by (unfold reaction_score; by rewrite Hrule).
    split.
    + intros [w (rxn' & score & Hid' & Hv & Hlt & _)%Hspec].
      rewrite Hid in Hid'. injection Hid' as <-. rewrite Hone in Hv. by injection Hv as <-.
    + intros Hlt. eexists. apply Hspec. by exists rxn, 1%float.
  - intros id rxn score Hid Hv Hnan.
    destruct (penalties !! id) as [w|] eqn:E; [|done].
    apply Hspec in E as (rxn' & score' & Hid' & Hv' & Hlt & _).
    rewrite Hid in Hid'. injection Hid' as <-. rewrite Hv in Hv'. injection Hv' as <-.
    apply ltb_true in Hlt as (Hn & _). congruence.
  - intros id [w (rxn & _ & Hid & _)%Hspec]%elem_of_dom. apply elem_of_dom. eauto.
Qed.

Lemma gimme_penalises_low_scores_witness :
  ∃ scores, reaction_scores 1 two_genes three_reactions = Return scores
    ∧ dom (gimme_penalties 0.25 scores) ⊆ dom (reactions three_reactions).
Proof.
  destruct (reaction_scores 1 two_genes three_reactions) as [scores|e|] eqn:Hs;
    [|by vm_compute in Hs..].
  exists scores. split; [reflexivity|].
  by destruct (gimme_penalises_low_scores 1 two_genes 0.25 three_reactions scores Hs)
    as (_ & _ & _ & Hdom).
Defined.
End EndpointLaws.
(** ** More about benchmark.py *)

Module BenchmarkLaws.
Import PyStr PyFloat FloatOrder Benchmark.

Lemma item_elem_of {A} (l : list A) idx x : item l idx = Return x → x ∈ l.
Proof.
  unfold item. destruct (_ || _); [done|].
  destruct (l !! _) as [y|] eqn:E; [|done]. intros [= <-].
  by eapply list_elem_of_lookup_2.
Qed.

Lemma collect_length_eq {A} (os : list (outcome A)) l :
  collect os = Return l → length l = length os.
Proof. intros ->%collect_Return. by rewrite length_map. Qed.

(** Whatever [get_benchmark_models] returns is taken from the catalog and
    lies within the size range, and it has [limit] entries when more than
    [limit] models are within the range (none for a negative [limit]) and
    all of them otherwise: never more than [limit], never a model outside
    the range. *)
Theorem get_benchmark_models_within (catalog : list ModelInfo)
    (fetch_catalog : outcome (list ModelInfo)) (lo hi limit : Z)
    (cat selected : list ModelInfo) :
  match catalog with [] => fetch_catalog | _ => Return catalog end = Return cat →
  get_benchmark_models catalog fetch_catalog lo hi limit = Return selected →
  Forall (λ m, m ∈ cat ∧ lo ≤ reaction_count m ≤ hi) selected
  ∧ length selected
    = (if Z.of_nat (length (size_filter lo hi cat)) <=? limit
       then length (size_filter lo hi cat) else Z.to_nat limit).
Proof.
  intros Hcat. unfold get_benchmark_models. rewrite Hcat. cbn [bind].
  set (filtered := sort_by reaction_count (size_filter lo hi cat)).
  assert (∀ m, m ∈ filtered → m ∈ cat ∧ lo ≤ reaction_count m ≤ hi) as Hin.
  { intros m. unfold filtered. by rewrite sort_by_Permutation, size_filter_spec. }
  assert (length filtered = length (size_filter lo hi cat)) as Hlen.
  { unfold filtered. by rewrite sort_by_Permutation. }
  rewrite Hlen. destruct (_ <=? limit).
  - intros [= <-]. split; [|done]. apply Forall_forall, Hin.
  - intros (step & _ & Hsel)%bind_Return. split.
    + apply collect_Return in Hsel. apply Forall_forall. intros m Hm. apply Hin.
      assert (Return m ∈ map (λ i, bind (sample_index step i) (item filtered)) (range limit))
        as (i & Hi & _)%list_elem_of_fmap.
      { rewrite Hsel. by apply list_elem_of_fmap_2. }
      symmetry in Hi. apply bind_Return in Hi as (idx & _ & Hidx).
      by eapply item_elem_of.
    + apply collect_length_eq in Hsel. by rewrite Hsel, length_map, range_length.
Qed.

Lemma get_benchmark_models_within_witness :
  Forall (λ m, m ∈ graded_catalog ∧ 500 ≤ reaction_count m ≤ 600)
    (map (λ i, sized_model (500 + 10 * Z.of_nat i)) (seq 0 10))
  ∧ length (map (λ i, sized_model (500 + 10 * Z.of_nat i)) (seq 0 10)) = 10%nat.
Proof.
  assert (get_benchmark_models graded_catalog (Return []) 500 600 10
          = Return (map (λ i, sized_model (500 + 10 * Z.of_nat i)) (seq 0 10))) as H
    by by vm_compute.
  destruct (get_benchmark_models_within graded_catalog (Return []) 500 600 10
              graded_catalog _ eq_refl H) as [H1 H2].
  split; [exact H1|]. reflexivity.
Defined.
(** *** The largest flux difference *)

(** The difference that [compare] computes for one reaction. *)
Definition rxn_diff (fluxes_a fluxes_b : gmap string flux) (rxn : string) : outcome float :=
  bind (of_option (KeyError rxn) (fluxes_a !! rxn)) (λ fa,
  bind (of_option (KeyError rxn) (fluxes_b !! rxn)) (λ fb, flux_diff fa fb)).

Lemma flux_step_diff fluxes_a fluxes_b st rxn st' :
  flux_step fluxes_a fluxes_b (Return st) rxn = Return st' ↔
  ∃ d, rxn_diff fluxes_a fluxes_b rxn = Return d
       ∧ st' = if PrimFloat.ltb (max_diff st) d
               then {| diffs := diffs st ++ [d * d]%float; max_diff := d;
                       max_rxn := Some rxn |}
               else {| diffs := diffs st ++ [d * d]%float; max_diff := max_diff st;
                       max_rxn := max_rxn st |}.
Proof.
  unfold flux_step, rxn_diff. cbn [bind].
  destruct (fluxes_a !! rxn) as [fa|]; cbn [of_option bind].
  2: { split; [done|]. by intros (d & ? & _). }
  destruct (fluxes_b !! rxn) as [fb|]; cbn [of_option bind].
  2: { split; [done|]. by intros (d & ? & _). }
  destruct (flux_diff fa fb) as [d| |]; cbn [bind].
  - split; [intros [= <-]; by exists d | by intros (d' & [= <-] & ->)].
  - split; [done|]. by intros (d & ? & _).
  - split; [done|]. by intros (d & ? & _).
Qed.




Definition other_fluxes : gmap string flux :=
  <["PGI" := Scalar 4.5]> (<["PFK" := Scalar 7]> (<["PYK" := Scalar 1]> ∅)).

(** *** Swapping the two results *)

Lemma flux_diff_sym fa fb : same_kind fa fb = true → flux_diff fb fa = flux_diff fa fb.
Proof.
  destruct fa as [x|x1 x2], fb as [y|y1 y2]; simpl; try done; intros _.
  - by rewrite FloatLaws.abs_sub_sym.
  - by rewrite (FloatLaws.abs_sub_sym y1), (FloatLaws.abs_sub_sym y2).
Qed.

Lemma flux_diff_Return_kind fa fb d : flux_diff fa fb = Return d → same_kind fa fb = true.
Proof. by destruct fa, fb. Qed.

Lemma rxn_diff_sym fluxes_a fluxes_b rxn d :
  rxn_diff fluxes_a fluxes_b rxn = Return d → rxn_diff fluxes_b fluxes_a rxn = Return d.
Proof.
  unfold rxn_diff. destruct (fluxes_a !! rxn) as [fa|]; [|done].
  destruct (fluxes_b !! rxn) as [fb|]; [|done]. cbn [of_option bind].
  intros H. rewrite flux_diff_sym; [done|]. by eapply flux_diff_Return_kind.
Qed.

Lemma flux_loop_sym fluxes_a fluxes_b l : ∀ st st',
  fold_left (flux_step fluxes_a fluxes_b) l (Return st) = Return st' →
  fold_left (flux_step fluxes_b fluxes_a) l (Return st) = Return st'.
Proof.
  induction l as [|rxn l IH]; intros st st'; cbn [fold_left]; [done|].
  destruct (flux_step fluxes_a fluxes_b (Return st) rxn) as [st1| |] eqn:E.
  - apply flux_step_diff in E as (d & Hd%rxn_diff_sym & ->).
    assert (flux_step fluxes_b fluxes_a (Return st) rxn
            = Return (if PrimFloat.ltb (max_diff st) d
                      then {| diffs := diffs st ++ [d * d]%float; max_diff := d;
                              max_rxn := Some rxn |}
                      else {| diffs := diffs st ++ [d * d]%float; max_diff := max_diff st;
                              max_rxn := max_rxn st |})) as ->.
    { apply flux_step_diff. by exists d. }
    apply IH.
  - by rewrite flux_loop_Raise.
  - intros H. exfalso. clear -H. induction l; simpl in H; [done|auto].
Qed.

Lemma flux_loop_each fluxes_a fluxes_b l : ∀ st st',
  fold_left (flux_step fluxes_a fluxes_b) l (Return st) = Return st' →
  ∀ rxn, rxn ∈ l → ∃ d, rxn_diff fluxes_a fluxes_b rxn = Return d.
Proof.
  induction l as [|r l IH]; intros st st'; cbn [fold_left].
  - intros _ rxn Hin. by apply not_elem_of_nil in Hin.
  - destruct (flux_step fluxes_a fluxes_b (Return st) r) as [st1| |] eqn:E.
    + intros Hfold rxn [->|Hin]%elem_of_cons.
      * apply flux_step_diff in E as (d & Hd & _). by exists d.
      * by eapply IH.
    + by rewrite flux_loop_Raise.
    + intros H. exfalso. clear -H. induction l; simpl in H; [done|auto].
Qed.

Lemma rxn_diff_kind fluxes_a fluxes_b rxn d fa fb :
  rxn_diff fluxes_a fluxes_b rxn = Return d →
  fluxes_a !! rxn = Some fa → fluxes_b !! rxn = Some fb → same_kind fa fb = true.
Proof.
  unfold rxn_diff. intros H Ha Hb. rewrite Ha, Hb in H. by eapply flux_diff_Return_kind.
Qed.

(** What [compare] returns for two optimal results. *)
Lemma compare_optimal_value walk a b flux_l2 flux_max flux_max_rxn :
  status a = L "optimal" → status b = L "optimal" →
  compare_fluxes walk a b = Return (flux_l2, flux_max, flux_max_rxn) →
  ∃ r, compare walk a b = Return r
    ∧ flux_l2_norm r = flux_l2 ∧ flux_max_diff r = flux_max
    ∧ flux_max_diff_rxn r = flux_max_rxn.
Proof.
  intros Ha Hb Hf. unfold compare. rewrite Ha, Hb.
  rewrite !bool_decide_eq_true_2 by done. cbn [negb orb].
  destruct (py_max _) as [scale|] eqn:Es; [|done]. cbn [of_option bind].
  unfold float_div. rewrite (py_max_nonzero _ _ 1e-10%float _ eq_refl eq_refl Es).
  cbn [bind]. rewrite Hf. cbn [bind]. eexists. split; [reflexivity|]. done.
Qed.

Lemma py_max3_sym x y c :
  is_nan x = false → is_nan y = false →
  py_max [abs x; abs y; c] = py_max [abs y; abs x; c].
Proof.
  intros Hx Hy.
  assert ((if PrimFloat.ltb (abs x) (abs y) then abs y else abs x)
          = (if PrimFloat.ltb (abs y) (abs x) then abs x else abs y)) as E.
  { rewrite (ltb_rank (abs x)), (ltb_rank (abs y)) by by rewrite is_nan_abs.
    destruct (Z.ltb_spec (frank (abs x)) (frank (abs y))) as [H1|H1],
      (Z.ltb_spec (frank (abs y)) (frank (abs x))) as [H2|H2]; try done; try lia.
    apply FloatLaws.abs_rank_inj; [done..|lia]. }
  unfold py_max. cbn [fold_left]. by rewrite E.
Qed.

Lemma rel_diff_sym x y s1 s2 :
  py_max [abs x; abs y; 1e-10%float] = Some s1 →
  py_max [abs y; abs x; 1e-10%float] = Some s2 →
  (abs (x - y) / s1 = abs (y - x) / s2)%float.
Proof.
  intros H1 H2. rewrite (FloatLaws.abs_sub_sym y x).
  destruct (is_nan x) eqn:Hx.
  { apply FloatLaws.nan_unique; apply FloatLaws.nan_div; rewrite is_nan_abs;
      by apply FloatLaws.nan_sub_l. }
  destruct (is_nan y) eqn:Hy.
  { apply FloatLaws.nan_unique; apply FloatLaws.nan_div; rewrite is_nan_abs;
      by apply FloatLaws.nan_sub_r. }
  rewrite (py_max3_sym x y) in H1 by done. congruence.
Qed.

(** [compare] with the two results swapped.  It returns whenever the
    comparison the other way round returns, with the same [passed],
    [obj_diff] and [obj_rel_diff], with [obj_a] and [obj_b] exchanged, and
    with flux figures exactly when the other has them; the flux figures are
    the same when both calls walk the common reactions in the same order. *)
Theorem compare_swapped (walk_ab walk_ba : gset string → list string)
    (a b : SolveResult) (r : ComparisonResult) :
  walks walk_ab → walks walk_ba →
  compare walk_ab a b = Return r →
  ∃ r', compare walk_ba b a = Return r'
    ∧ passed r' = passed r ∧ obj_diff r' = obj_diff r ∧ obj_rel_diff r' = obj_rel_diff r
    ∧ obj_a r' = obj_b r ∧ obj_b r' = obj_a r
    ∧ (flux_max_diff r' = None ↔ flux_max_diff r = None)
    ∧ ((∀ s, walk_ba s = walk_ab s) →
       flux_l2_norm r' = flux_l2_norm r ∧ flux_max_diff r' = flux_max_diff r
       ∧ flux_max_diff_rxn r' = flux_max_diff_rxn r).
Proof.
  intros Hw1 Hw2 Hr.
  destruct (decide (status a = L "optimal")) as [Ha|Ha];
    [destruct (decide (status b = L "optimal")) as [Hb|Hb]|].
  2: { destruct (compare_non_optimal walk_ab a b (or_intror Hb))
         as (r1 & Hr1 & ? & ? & ? & ? & ? & ? & ? & ? & ?).
       destruct (compare_non_optimal walk_ba b a (or_introl Hb))
         as (r2 & Hr2 & ? & ? & ? & ? & ? & ? & ? & ? & ?).
       assert (r1 = r) as -> by congruence. exists r2. split_and!; try congruence.
       - split; congruence.
       - intros _. split_and!; congruence. }
  2: { destruct (compare_non_optimal walk_ab a b (or_introl Ha))
         as (r1 & Hr1 & ? & ? & ? & ? & ? & ? & ? & ? & ?).
       destruct (compare_non_optimal walk_ba b a (or_intror Ha))
         as (r2 & Hr2 & ? & ? & ? & ? & ? & ? & ? & ? & ?).
       assert (r1 = r) as -> by congruence. exists r2. split_and!; try congruence.
       - split; congruence.
       - intros _. split_and!; congruence. }
  destruct (compare_optimal walk_ab a b r Ha Hb Hr)
    as (Hoa & Hob & Hd & (s1 & Hs1 & Hrel) & Hp & _ & Hf).
  assert (∃ t, compare_fluxes walk_ba b a = Return t
               ∧ (t.1.2 = None ↔ flux_max_diff r = None)
               ∧ ((∀ s, walk_ba s = walk_ab s) →
                  t = (flux_l2_norm r, flux_max_diff r, flux_max_diff_rxn r)))
    as ([[l2 mx] rxn] & Hf' & Hnone & Hsame).
  { revert Hf. unfold compare_fluxes.
    destruct (truthy_dict (fluxes a)) as [fa|], (truthy_dict (fluxes b)) as [fb|];
      try (intros [= <- <- <-]; eexists; by split_and!).
    rewrite (intersection_comm_L (dom fb) (dom fa)).
    destruct (decide (dom fa ∩ dom fb = ∅));
      [intros [= <- <- <-]; eexists; by split_and!|].
    intros (st & Hst & [= <- <- <-])%bind_Return.
    destruct (flux_loop_returns fb fa (walk_ba (dom fa ∩ dom fb)) flux_init) as [st' Hst'].
    { intros rxn [[xa Hxa]%elem_of_dom [xb Hxb]%elem_of_dom]%(walks_elem_of _ _ _ Hw2)%elem_of_intersection.
      exists xb, xa. split_and!; [done..|].
      destruct (flux_loop_each _ _ _ _ _ Hst rxn) as [d Hd'].
      { apply (walks_elem_of _ _ _ Hw1), elem_of_intersection. split; by apply elem_of_dom. }
      apply rxn_diff_sym in Hd'. by eapply rxn_diff_kind. }
    rewrite Hst'. cbn [bind]. eexists. split; [done|]. split; [done|].
    intros Hsame. rewrite Hsame in Hst'. apply flux_loop_sym in Hst. congruence. }
  destruct (compare_optimal_value walk_ba b a l2 mx rxn Hb Ha Hf')
    as (r' & Hr' & Hl2 & Hmx & Hrxn).
  destruct (compare_optimal walk_ba b a r' Hb Ha Hr')
    as (Hoa' & Hob' & Hd' & (s2 & Hs2 & Hrel') & Hp' & _ & _).
  exists r'. split_and!; try congruence.
  - by rewrite Hp', Hp, FloatLaws.abs_sub_sym.
  - by rewrite Hd', Hd, FloatLaws.abs_sub_sym.
  - rewrite Hrel', Hrel. f_equal. by apply rel_diff_sym.
  - by rewrite Hmx.
  - intros Hs. specialize (Hsame Hs). injection Hsame as -> -> ->. by rewrite Hl2, Hmx, Hrxn.
Qed.

Lemma compare_swapped_witness :
  ∃ r', compare elements (result_of "optimal" (Some 0.875%float) (Some other_fluxes))
          optimal_result = Return r'
    ∧ passed r' = true ∧ obj_diff r' = Some 0%float.
Proof.
  destruct (compare_swapped elements elements optimal_result
              (result_of "optimal" (Some 0.875%float) (Some other_fluxes))
              {| cmp_model_id := "e_coli_core"; cmp_method := "fba"; solver_a := "glpk";
                 solver_b := "glpk"; obj_a := Some 0.875%float; obj_b := Some 0.875%float;
                 obj_diff := Some 0%float; obj_rel_diff := Some 0%float;
                 flux_l2_norm := Some 0.25%float; flux_max_diff := Some 0.25%float;
                 flux_max_diff_rxn := Some "PFK"%string; time_a_ms := 1.5; time_b_ms := 1.5;
                 passed := true;
                 notes := L "Large flux difference at PFK: 2.50e-01" |}
              walks_elements walks_elements)
    as (r' & Hr' & Hp & Hd & _); [by vm_compute|].
  exists r'. by split_and!.
Defined.
(** *** [compare_result_sets] *)

(** The key under which [compare_result_sets] files a result. *)
Definition result_key (r : SolveResult) : string * string := (model_id r, method r).

(** [{(r.model_id, r.method): r for r in results}]: a later result takes the
    place of an earlier one with the same key. *)
Definition index_results (results : list SolveResult) : gmap (string * string) SolveResult :=
  fold_left (λ index r, <[result_key r := r]> index) results ∅.

(** The order of Python on pairs of strings: by the first components, and
    by the second ones when the first are equal; strings by code points. *)
Definition key_compare (k1 k2 : string * string) : comparison :=
  match String.compare k1.1 k2.1 with
  | Eq => String.compare k1.2 k2.2
  | c => c
  end.

Definition key_ltb (k1 k2 : string * string) : bool :=
  match key_compare k1 k2 with Lt => true | _ => false end.

(** [sorted(keys)], by insertion: a key goes before the first key that is
    larger. *)
Fixpoint insert_key (k : string * string) (l : list (string * string))
    : list (string * string) :=
  match l with
  | [] => [k]
  | k' :: l' => if key_ltb k k' then k :: l else k' :: insert_key k l'
  end.

Definition sorted_keys (keys : gset (string * string)) : list (string * string) :=
  foldr insert_key [] (elements keys).

Section ResultSets.
Variable walk : gset string → list string.

Definition compare_result_sets (results_a results_b : list SolveResult)
    : outcome (list ComparisonResult) :=
  let index_a := index_results results_a in
  let index_b := index_results results_b in
  let common_keys := dom index_a ∩ dom index_b in
  collect (map (λ key,
                  bind (of_option (KeyError key.1) (index_a !! key)) (λ result_a,
                  bind (of_option (KeyError key.1) (index_b !! key)) (λ result_b,
                  compare walk result_a result_b)))
               (sorted_keys common_keys)).
End ResultSets.

Lemma ascii_compare_lt a b : Ascii.compare a b = Lt ↔ (N_of_ascii a < N_of_ascii b)%N.
Proof. unfold Ascii.compare. by rewrite N.compare_lt_iff. Qed.

Lemma ascii_compare_eq a b : Ascii.compare a b = Eq ↔ a = b.
Proof.
  split; [apply Ascii.compare_eq_iff|]. intros ->. unfold Ascii.compare.
  apply N.compare_refl.
Qed.

Lemma string_compare_refl s : String.compare s s = Eq.
Proof.
  induction s as [|c s IH]; [done|]. simpl.
  by rewrite (proj2 (ascii_compare_eq c c) eq_refl).
Qed.

Lemma string_compare_lt_trans s1 : ∀ s2 s3,
  String.compare s1 s2 = Lt → String.compare s2 s3 = Lt → String.compare s1 s3 = Lt.
Proof.
  induction s1 as [|c1 s1 IH]; intros [|c2 s2] [|c3 s3]; simpl; try done.
  destruct (Ascii.compare c1 c2) eqn:E12; [| |done].
  - apply ascii_compare_eq in E12 as ->. destruct (Ascii.compare c2 c3); [apply IH|done..].
  - intros _. destruct (Ascii.compare c2 c3) eqn:E23; [| |done].
    + apply ascii_compare_eq in E23 as <-. by rewrite E12.
    + intros _.
      assert (Ascii.compare c1 c3 = Lt) as ->; [|done].
      apply ascii_compare_lt. eapply N.lt_trans; by apply ascii_compare_lt.
Qed.

Lemma key_compare_eq k1 k2 : key_compare k1 k2 = Eq ↔ k1 = k2.
Proof.
  destruct k1 as [a1 b1], k2 as [a2 b2]. unfold key_compare. simpl. split.
  - destruct (String.compare a1 a2) eqn:E; [|done..].
    intros H. apply String.compare_eq_iff in E, H. by subst.
  - intros [= -> ->]. by rewrite !string_compare_refl.
Qed.

Lemma key_compare_antisym k1 k2 : key_compare k1 k2 = CompOpp (key_compare k2 k1).
Proof.
  unfold key_compare. rewrite (String.compare_antisym k1.1), (String.compare_antisym k1.2).
  by destruct (String.compare k2.1 k1.1).
Qed.

Lemma key_ltb_trans k1 k2 k3 :
  key_ltb k1 k2 = true → key_ltb k2 k3 = true → key_ltb k1 k3 = true.
Proof.
  destruct k1 as [a1 b1], k2 as [a2 b2], k3 as [a3 b3]. unfold key_ltb, key_compare. simpl.
  destruct (String.compare a1 a2) eqn:E12; [| |done].
  - apply String.compare_eq_iff in E12 as ->.
    destruct (String.compare a2 a3) eqn:E23; [|done..].
    destruct (String.compare b1 b2) eqn:F12; [done| |done].
    destruct (String.compare b2 b3) eqn:F23; [done| |done].
    by rewrite (string_compare_lt_trans _ _ _ F12 F23).
  - intros _. destruct (String.compare a2 a3) eqn:E23; [| |done].
    + apply String.compare_eq_iff in E23 as <-. by rewrite E12.
    + by rewrite (string_compare_lt_trans _ _ _ E12 E23).
Qed.

Lemma key_ltb_irrefl k : key_ltb k k = false.
Proof. unfold key_ltb. by rewrite (proj2 (key_compare_eq k k) eq_refl). Qed.

(** Of two different keys one is below the other. *)
Lemma key_ltb_total k1 k2 : k1 ≠ k2 → key_ltb k1 k2 = false → key_ltb k2 k1 = true.
Proof.
  unfold key_ltb. rewrite (key_compare_antisym k2 k1).
  destruct (key_compare k1 k2) eqn:E; [|done..]. intros H. by apply key_compare_eq in E.
Qed.

Lemma insert_key_Permutation k l : insert_key k l ≡ₚ k :: l.
Proof.
  induction l as [|k' l IH]; simpl; [done|].
  destruct (key_ltb k k'); [done|]. rewrite IH. apply Permutation_swap.
Qed.

Lemma insert_key_sorted k l :
  k ∉ l → StronglySorted (λ x y, key_ltb x y = true) l →
  StronglySorted (λ x y, key_ltb x y = true) (insert_key k l).
Proof.
  induction l as [|k' l IH]; intros Hk Hl; simpl.
  - repeat constructor.
  - apply not_elem_of_cons in Hk as [Hne Hk].
    apply StronglySorted_inv in Hl as [Hl Hall].
    destruct (key_ltb k k') eqn:E.
    + constructor; [by constructor|]. constructor; [done|].
      eapply Forall_impl; [exact Hall|]. simpl. intros y. by apply key_ltb_trans.
    + constructor; [by apply IH|].
      rewrite insert_key_Permutation. constructor; [|done].
      by apply key_ltb_total.
Qed.

Lemma sorted_keys_spec keys :
  sorted_keys keys ≡ₚ elements keys
  ∧ StronglySorted (λ x y, key_ltb x y = true) (sorted_keys keys).
Proof.
  unfold sorted_keys. pose proof (NoDup_elements keys) as Hnd.
  induction Hnd as [|k l Hk Hnd [IH1 IH2]]; simpl; [by split; [|constructor]|].
  split.
  - by rewrite insert_key_Permutation, IH1.
  - apply insert_key_sorted; [by rewrite IH1 | done].
Qed.

(** A list that is sorted by a strict order is the only sorted arrangement
    of its elements: whatever way [sorted] works, this is its result. *)
Lemma sorted_unique (l1 l2 : list (string * string)) :
  StronglySorted (λ x y, key_ltb x y = true) l1 →
  StronglySorted (λ x y, key_ltb x y = true) l2 →
  l1 ≡ₚ l2 → l1 = l2.
Proof.
  intros H1. revert l2. induction H1 as [|x l1 Hs1 IH Hx]; intros l2 H2 Hp.
  - by apply Permutation_nil_l in Hp.
  - destruct H2 as [|y l2 Hs2 Hy].
    { by apply Permutation_nil_r in Hp. }
    assert (x = y) as ->.
    { assert (x ∈ y :: l2) as [->|Hin]%elem_of_cons by (rewrite <- Hp; left); [done|].
      assert (y ∈ x :: l1) as [->|Hin']%elem_of_cons by (rewrite Hp; left); [done|].
      rewrite Forall_forall in Hx, Hy. specialize (Hx _ Hin'). specialize (Hy _ Hin).
      pose proof (key_ltb_trans _ _ _ Hx Hy) as H. by rewrite key_ltb_irrefl in H. }
    f_equal. apply IH; [done|]. by apply Permutation_cons_inv in Hp.
Qed.
Lemma index_results_snoc l r :
  index_results (l ++ [r]) = <[result_key r := r]> (index_results l).
Proof. unfold index_results. by rewrite fold_left_app. Qed.

Lemma index_results_key l : ∀ k r,
  index_results l !! k = Some r → result_key r = k ∧ r ∈ l.
Proof.
  induction l as [|r' l IH] using rev_ind; intros k r.
  - unfold index_results. simpl. by rewrite lookup_empty.
  - rewrite index_results_snoc. destruct (decide (result_key r' = k)) as [<-|Hne].
    + rewrite lookup_insert_eq. intros [= <-]. split; [done|]. apply elem_of_app. right. by left.
    + rewrite lookup_insert_ne by done. intros [Hk Hin]%IH. split; [done|].
      apply elem_of_app. by left.
Qed.

Lemma index_results_dom l k :
  k ∈ dom (index_results l) ↔ ∃ r, r ∈ l ∧ result_key r = k.
Proof.
  rewrite elem_of_dom. split.
  - intros [r [Hk Hin]%index_results_key]. by exists r.
  - intros (r & Hin & <-). induction l as [|r' l IH] using rev_ind.
    + by apply not_elem_of_nil in Hin.
    + rewrite index_results_snoc. destruct (decide (result_key r' = result_key r)) as [E|Hne].
      * rewrite E, lookup_insert_eq. eauto.
      * rewrite lookup_insert_ne by done. apply IH.
        apply elem_of_app in Hin as [Hin|Hin%list_elem_of_singleton]; [done|]. by subst.
Qed.

Lemma index_results_last l1 r l2 :
  Forall (λ r', result_key r' ≠ result_key r) l2 →
  index_results (l1 ++ r :: l2) !! result_key r = Some r.
Proof.
  induction l2 as [|r' l2 IH] using rev_ind; intros Hl2.
  - by rewrite index_results_snoc, lookup_insert_eq.
  - apply Forall_app in Hl2 as [Hl2 [Hr' _]%Forall_cons_1].
    replace (l1 ++ r :: l2 ++ [r']) with ((l1 ++ r :: l2) ++ [r'])
      by by rewrite <- app_assoc.
    rewrite index_results_snoc, lookup_insert_ne by done. by apply IH.
Qed.

Lemma compare_key walk a b c :
  compare walk a b = Return c → (cmp_model_id c, cmp_method c) = result_key a.
Proof.
  unfold compare. destruct (_ || _); [by intros [= <-]|].
  intros (scale & _ & (rel & _ & ([[l2 mx] rxn] & _ & [= <-])%bind_Return)%bind_Return)%bind_Return.
  done.
Qed.

Lemma map_Return_Forall2 {A B} (f : A → outcome B) l cs :
  map f l = map Return cs → Forall2 (λ k c, f k = Return c) l cs.
Proof.
  revert cs. induction l as [|k l IH]; intros [|c cs]; simpl; try done.
  intros [= Hk Hl]. constructor; [done | by apply IH].
Qed.

(** [compare_result_sets] returns one comparison for each key
    [(model_id, method)] that occurs in both lists of results, the keys in
    increasing order and none twice; a key that only one list has is left
    out; where a list has several results with one key, it is the last of
    them that is compared. *)
Theorem compare_result_sets_pairs (walk : gset string → list string)
    (results_a results_b : list SolveResult) (comparisons : list ComparisonResult) :
  compare_result_sets walk results_a results_b = Return comparisons →
  let keys := map (λ c, (cmp_model_id c, cmp_method c)) comparisons in
  StronglySorted (λ k1 k2, key_ltb k1 k2 = true) keys
  ∧ (∀ k, k ∈ keys ↔
       (∃ ra, ra ∈ results_a ∧ result_key ra = k)
       ∧ (∃ rb, rb ∈ results_b ∧ result_key rb = k))
  ∧ Forall (λ c, ∃ ra rb,
              index_results results_a !! (cmp_model_id c, cmp_method c) = Some ra
              ∧ index_results results_b !! (cmp_model_id c, cmp_method c) = Some rb
              ∧ compare walk ra rb = Return c) comparisons
  ∧ (∀ l1 r l2, results_a = l1 ++ r :: l2 →
       Forall (λ r', result_key r' ≠ result_key r) l2 →
       index_results results_a !! result_key r = Some r)
  ∧ (∀ l1 r l2, results_b = l1 ++ r :: l2 →
       Forall (λ r', result_key r' ≠ result_key r) l2 →
       index_results results_b !! result_key r = Some r).
Proof.
  unfold compare_result_sets. intros H%collect_Return%map_Return_Forall2. simpl.
  set (common := dom (index_results results_a) ∩ dom (index_results results_b)) in *.
  assert (Forall2 (λ k c, k = (cmp_model_id c, cmp_method c)
            ∧ ∃ ra rb, index_results results_a !! k = Some ra
                       ∧ index_results results_b !! k = Some rb
                       ∧ compare walk ra rb = Return c) (sorted_keys common) comparisons) as H'.
  { eapply Forall2_impl; [exact H|]. simpl. intros k c.
    intros (ra & Hra & (rb & Hrb & Hc)%bind_Return)%bind_Return.
    destruct (index_results results_a !! k) as [ra'|] eqn:Ea; [|done].
    destruct (index_results results_b !! k) as [rb'|] eqn:Eb; [|done].
    injection Hra as ->. injection Hrb as ->.
    split; [|by eauto]. rewrite (compare_key _ _ _ _ Hc).
    by apply index_results_key in Ea as [-> _]. }
  assert (map (λ c, (cmp_model_id c, cmp_method c)) comparisons = sorted_keys common) as ->.
  { clear -H'. induction H' as [|k c l cs [-> _] _ IH]; [done|]. simpl. by rewrite IH. }
  destruct (sorted_keys_spec common) as [Hperm Hsorted].
  split_and!.
  - done.
  - intros k. rewrite Hperm, elem_of_elements. unfold common.
    by rewrite elem_of_intersection, !index_results_dom.
  - clear -H'. induction H' as [|k c l cs [-> Hc] _ IH]; constructor; done.
  - intros l1 r l2 ->. apply index_results_last.
  - intros l1 r l2 ->. apply index_results_last.
Qed.

Definition result_for (model method status : string) (objective : float) : SolveResult :=
  {| model_id := model; method := method; solver := "glpk"; status := L status;
     objective_value := Some objective; fluxes := None; solve_time_ms := 1.5;
     error := None |}.

Lemma compare_result_sets_pairs_witness :
  ∃ comparisons,
    compare_result_sets elements
      [result_for "iJO1366" "fba" "optimal" 0.98; result_for "e_coli_core" "pfba" "optimal" 518;
       result_for "e_coli_core" "fba" "optimal" 0.5; result_for "e_coli_core" "fba" "optimal" 0.87]
      [result_for "e_coli_core" "fba" "optimal" 0.87; result_for "iJO1366" "fba" "optimal" 0.98;
       result_for "iML1515" "fba" "optimal" 0.88]
    = Return comparisons
    ∧ map (λ c, (cmp_model_id c, cmp_method c)) comparisons
      = [("e_coli_core", "fba"); ("iJO1366", "fba")]%string
    ∧ map passed comparisons = [true; true]
    ∧ StronglySorted (λ k1 k2, key_ltb k1 k2 = true)
        (map (λ c, (cmp_model_id c, cmp_method c)) comparisons).
Proof.
  destruct (compare_result_sets elements _ _) as [cs|e|] eqn:H; [|by vm_compute in H..].
  exists cs. split; [done|].
  pose proof (compare_result_sets_pairs elements _ _ _ H) as (Hs & _).
  vm_compute in H. injection H as <-. by split_and!.
Defined.
(** *** [generate_summary] *)

(** The statistics of one column of the summary; [None] where the summary
    has [None]. *)
Record Stats : Type := {
  mean : option float;
  std : option float;
  largest : option float;
  smallest : option float
}.

(** The dict that [generate_summary] returns, without its time stamp. *)
Record Summary : Type := {
  total_comparisons : Z;
  passed_count : Z;
  failed_count : Z;
  pass_rate : float;
  objective_diff : Stats;
  flux_l2_norms : Stats
}.

Section Summaries.
(** [np.mean] and [np.std] belong to NumPy. *)
Variables np_mean np_std : list float → float.

(** [x if values else None] *)
Definition if_any {A} (values : list float) (x : A) : option A :=
  match values with [] => None | _ => Some x end.

(** [generate_summary]: [None] stands for the empty dict; the key [min] of
    [flux_l2_norm] does not exist. *)
Definition generate_summary (comparisons : list ComparisonResult) : outcome (option Summary) :=
  match comparisons with
  | [] => Return None
  | _ =>
      let total := Z.of_nat (length comparisons) in
      let passed := Z.of_nat (length (filter (λ c, passed c = true) comparisons)) in
      let failed := total - passed in
      let obj_diffs := omap obj_diff comparisons in
      let flux_l2s := omap flux_l2_norm comparisons in
      bind (if 0 <? total then true_div passed total else Return 0%float) (λ rate,
      Return (Some {|
        total_comparisons := total;
        passed_count := passed;
        failed_count := failed;
        pass_rate := rate;
        objective_diff :=
          {| mean := if_any obj_diffs (np_mean obj_diffs);
             std := if_any obj_diffs (np_std obj_diffs);
             largest := py_max obj_diffs;
             smallest := py_min obj_diffs |};
        flux_l2_norms :=
          {| mean := if_any flux_l2s (np_mean flux_l2s);
             std := if_any flux_l2s (np_std flux_l2s);
             largest := py_max flux_l2s;
             smallest := None |}
      |}))
  end.

Lemma compare_passed walk a b c :
  compare walk a b = Return c → passed c = true →
  ∃ d, obj_diff c = Some d ∧ PrimFloat.ltb d OBJECTIVE_TOLERANCE = true.
Proof.
  intros Hc Hp.
  destruct (decide (status a = L "optimal")) as [Ha|Ha];
    [destruct (decide (status b = L "optimal")) as [Hb|Hb]|].
  - destruct (compare_optimal walk a b c Ha Hb Hc) as (_ & _ & Hd & _ & Hp' & _).
    eexists. split; [exact Hd|]. by rewrite <- Hp'.
  - destruct (compare_non_optimal walk a b (or_intror Hb)) as (c' & Hc' & Hf & _).
    congruence.
  - destruct (compare_non_optimal walk a b (or_introl Ha)) as (c' & Hc' & Hf & _).
    congruence.
Qed.

Lemma filter_all {A} (P : A → Prop) `{∀ x, Decision (P x)} (l : list A) :
  length (filter P l) = length l → Forall P l.
Proof.
  induction l as [|x l IH]; [constructor|]. rewrite filter_cons.
  destruct (decide (P x)) as [Hx|Hx]; simpl.
  - intros [= Hl]. constructor; [done | by apply IH].
  - intros Hl. pose proof (length_filter P l). lia.
Qed.

(** The counts of the summary add up: [passed + failed] is the number of
    comparisons, and neither is negative.  The statistics of the objective
    difference are there exactly when some comparison has an [obj_diff].
    And when every comparison came out of [compare] and none failed, the
    largest objective difference of the summary is below [1e-6]. *)
Theorem summary_counts (walk : gset string → list string)
    (comparisons : list ComparisonResult) (summary : Summary) :
  generate_summary comparisons = Return (Some summary) →
  total_comparisons summary = Z.of_nat (length comparisons)
  ∧ passed_count summary + failed_count summary = total_comparisons summary
  ∧ 0 ≤ passed_count summary ∧ 0 ≤ failed_count summary
  ∧ (largest (objective_diff summary) = None ↔
     Forall (λ c, obj_diff c = None) comparisons)
  ∧ (mean (objective_diff summary) = None ↔ largest (objective_diff summary) = None)
  ∧ (Forall (λ c, ∃ a b, compare walk a b = Return c) comparisons →
     failed_count summary = 0 →
     ∃ worst, largest (objective_diff summary) = Some worst
              ∧ PrimFloat.ltb worst OBJECTIVE_TOLERANCE = true).
Proof.
  unfold generate_summary. destruct comparisons as [|c0 cs] eqn:Ecs; [done|].
  assert (comparisons ≠ []) as Hne by by rewrite Ecs.
  rewrite <- Ecs. clear Ecs.
  intros (rate & _ & [= <-])%bind_Return.
  cbn [total_comparisons passed_count failed_count objective_diff largest mean].
  pose proof (length_filter (λ c, passed c = true) comparisons) as Hle.
  assert (py_max (omap obj_diff comparisons) = None ↔
          Forall (λ c, obj_diff c = None) comparisons) as Hnone.
  { clear. induction comparisons as [|c l IH]; [by split; [constructor|]|].
    simpl. destruct (obj_diff c) as [d|] eqn:E.
    - split; [done|]. intros [H _]%Forall_cons_1. congruence.
    - rewrite IH. split; [by constructor | by intros [_ ?]%Forall_cons_1]. }
  split_and!; [done|lia|lia|lia|done| |].
  - unfold if_any. destruct (omap obj_diff comparisons); [done|]. split; done.
  - intros Hfrom Hfailed.
    assert (Forall (λ c, passed c = true) comparisons) as Hall.
    { apply (filter_all (λ c, passed c = true)). lia. }
    assert (Forall (λ d, PrimFloat.ltb d OBJECTIVE_TOLERANCE = true)
              (omap obj_diff comparisons)) as Hsmall.
    { apply Forall_forall. intros d (c & Hc & Hd)%list_elem_of_omap.
      rewrite Forall_forall in Hfrom, Hall.
      destruct (Hfrom c Hc) as (a & b & Hab).
      destruct (compare_passed walk a b c Hab (Hall c Hc)) as (d' & Hd' & Hlt). congruence. }
    destruct (py_max (omap obj_diff comparisons)) as [worst|] eqn:Ew.
    + exists worst. split; [done|]. apply py_max_elem in Ew.
      rewrite Forall_forall in Hsmall. by apply Hsmall.
    + exfalso. clear Ew. destruct Hnone as [Ew _]. specialize (Ew eq_refl).
      rewrite Forall_forall in Ew, Hfrom, Hall.
      destruct comparisons as [|c l]; [done|].
      assert (c ∈ c :: l) as Hc by left.
      destruct (Hfrom c Hc) as (a & b & Hab).
      destruct (compare_passed walk a b c Hab (Hall c Hc)) as (d' & Hd' & _).
      rewrite (Ew c Hc) in Hd'. done.
Qed.

End Summaries.
Lemma summary_counts_witness :
  ∃ comparisons summary,
    compare_result_sets elements
      [result_for "iJO1366" "fba" "optimal" 0.98; result_for "e_coli_core" "fba" "optimal" 0.87]
      [result_for "e_coli_core" "fba" "optimal" 0.87; result_for "iJO1366" "fba" "optimal" 0.98]
    = Return comparisons
    ∧ generate_summary (λ _, 0%float) (λ _, 0%float) comparisons = Return (Some summary)
    ∧ total_comparisons summary = 2
    ∧ passed_count summary + failed_count summary = 2
    ∧ largest (objective_diff summary) = Some 0%float.
Proof.
  destruct (compare_result_sets elements _ _) as [cs|e|] eqn:H; [|by vm_compute in H..].
  exists cs.
  destruct (generate_summary (λ _, 0%float) (λ _, 0%float) cs) as [[summary|]| |] eqn:Hs;
    [|vm_compute in H; injection H as <-; by vm_compute in Hs..].
  exists summary. split; [done|]. split; [done|].
  destruct (summary_counts (λ _, 0%float) (λ _, 0%float) elements cs summary Hs)
    as (Ht & Hpf & _).
  vm_compute in H. injection H as <-. vm_compute in Hs. injection Hs as <-.
  by split_and!.
Defined.
(** *** [COBRApyBenchmark]: the solves and [run_benchmark] *)

(** [int(text)] in base 10: white space around, one sign, digits with
    single underscores between them; at most 4300 digits.  [None] stands
    for the [ValueError] the builtin raises. *)
Definition int_of_str (s : str) : option Z :=
  s1 ← to_ascii s;
  let (neg, r) := parse_sign (strip_c s1) in
  if forallb (λ c, is_digit c || is_char "_" c) r && underscores_ok "_" r
     && (length (drop_underscores r) <=? 4300)%nat
  then let n := digits_to_Z (drop_underscores r) in Some (if neg then - n else n)
  else None.

(** [str(n)] for an int [n]. *)
Definition str_of_int (n : Z) : str :=
  if n <? 0 then "-"%char :: digits_of_Z (- n) else digits_of_Z n.

(** [a / b] on ints: the binary64 number nearest to the quotient. *)
Definition int_true_div (a b : Z) : outcome float :=
  if b =? 0 then Raise (OtherError "division by zero")
  else
    let neg := xorb (a <? 0) (b <? 0) in
    if a =? 0 then Return (SF2Prim (S754_zero neg))
    else
      match round_ratio (Z.abs a) (Z.abs b) with
      | S754_infinity _ =>
          Raise (OtherError "integer division result too large for a float")
      | x => Return (SF2Prim (with_sign neg x))
      end.

(** What COBRApy's [Solution] gives to the benchmark. *)
Record Solution : Type := {
  sol_status : string;
  sol_objective_value : option float;
  sol_fluxes : gmap string float
}.

(** COBRApy, the model files of the catalog and the clock, as
    [COBRApyBenchmark] uses them.  [World] is the state they work on: the
    loaded models with their solver interfaces, the cache directory, the
    time.  [CobraModel] is a reference to a [cobra.Model]. *)
Class Cobrapy : Type := {
  World : Type;
  CobraModel : Type;
  (** [time.perf_counter()] *)
  perf_counter : World → float * World;
  (** [self.catalog.download_model(model_id, format="json")] and
      [load_json_model(str(filepath))] *)
  load_json_model : string → World → outcome CobraModel * World;
  (** [model.id] *)
  get_id : CobraModel → World → string;
  (** [[rxn.id for rxn in model.reactions]] *)
  reaction_ids : CobraModel → World → list string;
  (** [model.solver = solver] *)
  set_solver : CobraModel → string → World → outcome unit * World;
  (** [model.optimize()] *)
  optimize : CobraModel → World → outcome Solution * World;
  (** [cobra.flux_analysis.pfba(model)] *)
  pfba : CobraModel → World → outcome Solution * World;
  (** [flux_variability_analysis(model, fraction_of_optimum=fraction,
      loopless=False)]: the minimum and the maximum by reaction id (the
      index of the data frame has no id twice) *)
  flux_variability_analysis :
    CobraModel → float → World → outcome (gmap string (float * float)) * World
}.

Section Harness.
Context `{Cobrapy}.

(** A piece of the benchmark: it works on the world and returns, raises,
    or does not come back. *)
Definition M (A : Type) : Type := World → outcome A * World.

Definition ret {A} (a : A) : M A := λ w, (Return a, w).

Definition lift {A} (o : outcome A) : M A := λ w, (o, w).

Definition read {A} (f : World → A) : M A := λ w, (Return (f w), w).

Definition clock : M float := λ w, let (t, w') := perf_counter w in (Return t, w').

Definition and_then {A B} (m : M A) (k : A → M B) : M B :=
  λ w, match m w with
       | (Return a, w') => k a w'
       | (Raise e, w') => (Raise e, w')
       | (Diverge, w') => (Diverge, w')
       end.

(** [try: body  except Exception as e: handler(e)] *)
Definition try_except {A} (body : M A) (handler : exn → M A) : M A :=
  λ w, match body w with
       | (Raise e, w') => handler e w'
       | r => r
       end.

Local Notation "'do' x <- m ; k" := (and_then m (λ x, k))
  (at level 10, x name, m at level 100, k at level 200,
   format "'[v' 'do'  x  <-  m ; '/' k ']'").

(** A [for] loop that appends what each round gives. *)
Fixpoint for_each {A B} (l : list A) (round : A → M (list B)) : M (list B) :=
  match l with
  | [] => ret []
  | x :: l' =>
      do first <- round x;
      do rest <- for_each l' round;
      ret (first ++ rest)
  end.

(** [{rxn.id: float(solution.fluxes[rxn.id]) for rxn in model.reactions}],
    filled in the order of the reactions. *)
Definition scalar_fluxes (ids : list string) (solution : Solution)
    : outcome (gmap string flux) :=
  fold_left (λ acc id,
               bind acc (λ fluxes,
               bind (of_option (KeyError id) (sol_fluxes solution !! id)) (λ val,
               Return (<[id := Scalar val]> fluxes))))
            ids (Return ∅).

(** [float(obj_val)]: a [TypeError] for [None]. *)
Definition float_of_objective (solution : Solution) : outcome float :=
  of_option (OtherError "float() argument must be a string or a real number, not 'NoneType'")
            (sol_objective_value solution).

(** The result of the [except Exception as e:] branches. *)
Definition error_result (model_id method solver : string) (e : exn) : SolveResult :=
  {| model_id := model_id; method := method; solver := "cobrapy-" +:+ solver;
     status := L "error"; objective_value := None; fluxes := None;
     solve_time_ms := 0; error := Some (exn_str e) |}.

Definition solve_fba (model : CobraModel) (solver : string) : M SolveResult :=
  do model_id <- read (get_id model);
  try_except
    (do _ <- set_solver model solver;
     do start <- clock;
     do solution <- optimize model;
     do stop <- clock;
     let elapsed_ms := ((stop - start) * 1000)%float in
     if String.eqb (sol_status solution) "optimal" then
       do ids <- read (reaction_ids model);
       do fluxes <- lift (scalar_fluxes ids solution);
       do obj_val <- lift (float_of_objective solution);
       ret {| model_id := model_id; method := "fba"; solver := "cobrapy-" +:+ solver;
              status := L "optimal"; objective_value := Some obj_val;
              fluxes := Some fluxes; solve_time_ms := elapsed_ms; error := None |}
     else
       ret {| model_id := model_id; method := "fba"; solver := "cobrapy-" +:+ solver;
              status := L (sol_status solution); objective_value := None;
              fluxes := None; solve_time_ms := elapsed_ms; error := None |})
    (λ e, ret (error_result model_id "fba" solver e)).

Definition solve_pfba (model : CobraModel) (solver : string) : M SolveResult :=
  do model_id <- read (get_id model);
  try_except
    (do _ <- set_solver model solver;
     do start <- clock;
     do solution <- pfba model;
     do stop <- clock;
     let elapsed_ms := ((stop - start) * 1000)%float in
     do ids <- read (reaction_ids model);
     do fluxes <- lift (scalar_fluxes ids solution);
     do obj_val <- lift (float_of_objective solution);
     ret {| model_id := model_id; method := "pfba"; solver := "cobrapy-" +:+ solver;
            status := L "optimal"; objective_value := Some obj_val;
            fluxes := Some fluxes; solve_time_ms := elapsed_ms; error := None |})
    (λ e, ret (error_result model_id "pfba" solver e)).

(** [f"fva_{int(fraction*100)}"] *)
Definition fva_method (fraction : float) : outcome string :=
  bind (int_of_float (fraction * 100)%float) (λ percent,
  Return ("fva_" +:+ key (str_of_int percent))).

(** The label is worked out where a result is built: in the [try], and
    once more in the [except] branch, where nothing catches what it
    raises. *)
Definition solve_fva (model : CobraModel) (fraction : float) (solver : string)
    : M SolveResult :=
  do model_id <- read (get_id model);
  try_except
    (do _ <- set_solver model solver;
     do start <- clock;
     do fva_result <- flux_variability_analysis model fraction;
     do stop <- clock;
     let elapsed_ms := ((stop - start) * 1000)%float in
     let fluxes := (λ range : float * float, Range range.1 range.2) <$> fva_result in
     do method <- lift (fva_method fraction);
     ret {| model_id := model_id; method := method; solver := "cobrapy-" +:+ solver;
            status := L "optimal"; objective_value := None;
            fluxes := Some fluxes; solve_time_ms := elapsed_ms; error := None |})
    (λ e,
     do method <- lift (fva_method fraction);
     ret (error_result model_id method solver e)).

(** [load_model]: [None] when the download or the parser raises. *)
Definition load_model (model_id : string) : M (option CobraModel) :=
  try_except (do model <- load_json_model model_id; ret (Some model))
             (λ _, ret None).

(** [int(method.split("_")[1]) / 100 if "_" in method else 0.9] *)
Definition fva_fraction (method : str) : outcome float :=
  if contains (L "_") method then
    bind (item (split (L "_") method) 1) (λ text,
    bind (of_option (ValueError "invalid literal for int() with base 10") (int_of_str text))
      (λ percent,
    int_true_div percent 100))
  else Return 0.9%float.

(** One round of the innermost loop of [run_benchmark]: the results it
    appends, none for a method that is not known. *)
Definition run_method (model : CobraModel) (method : str) (solver : string)
    : M (list SolveResult) :=
  if bool_decide (method = L "fba") then
    do result <- solve_fba model solver; ret [result]
  else if bool_decide (method = L "pfba") then
    do result <- solve_pfba model solver; ret [result]
  else if startswith (L "fva") method then
    do fraction <- lift (fva_fraction method);
    do result <- solve_fva model fraction solver; ret [result]
  else ret [].

Definition run_benchmark (models : list ModelInfo) (methods : list str)
    (solvers : list string) : M (list SolveResult) :=
  for_each models (λ model_info,
    do loaded <- load_model (bigg_id model_info);
    match loaded with
    | None => ret []
    | Some model =>
        for_each methods (λ method,
          for_each solvers (λ solver, run_method model method solver))
    end).

End Harness.
(** *** What the solves of [COBRApyBenchmark] return *)

(** All entries are numbers, as FBA and pFBA give them. *)
Definition scalars (fl : gmap string flux) : Prop :=
  map_Forall (λ _ f, ∃ v, f = Scalar v) fl.

(** All entries are [min]/[max] dicts, as FVA gives them. *)
Definition ranges (fl : gmap string flux) : Prop :=
  map_Forall (λ _ f, ∃ lo hi, f = Range lo hi) fl.

Lemma scalar_fluxes_spec ids solution fl :
  scalar_fluxes ids solution = Return fl →
  scalars fl ∧ dom fl = list_to_set ids
  ∧ ∀ id, id ∈ ids → ∃ v, sol_fluxes solution !! id = Some v ∧ fl !! id = Some (Scalar v).
Proof.
  unfold scalar_fluxes. revert fl. induction ids as [|id ids IH] using rev_ind; intros fl.
  - simpl. intros [= <-]. split_and!; [apply map_Forall_empty | by rewrite dom_empty_L |].
    intros id Hin. by apply not_elem_of_nil in Hin.
  - rewrite fold_left_app. cbn [fold_left].
    intros (fl' & Hfl' & (v & Hv & [= <-])%bind_Return)%bind_Return.
    destruct (IH _ Hfl') as (Hs & Hd & Hin).
    destruct (sol_fluxes solution !! id) as [v'|] eqn:E; [|done]. injection Hv as ->.
    split_and!.
    + apply map_Forall_insert_2; [by eexists|done].
    + rewrite dom_insert_L, Hd, list_to_set_app_L. simpl.
      by rewrite (right_id_L ∅ (∪)), (comm_L (∪)).
    + intros id' [Hid'|Hid'%list_elem_of_singleton]%elem_of_app.
      * destruct (decide (id' = id)) as [->|Hne].
        -- exists v. by rewrite lookup_insert_eq.
        -- rewrite lookup_insert_ne by done. by apply Hin.
      * subst id'. exists v. by rewrite lookup_insert_eq.
Qed.

Lemma L_inj s1 s2 : L s1 = L s2 → s1 = s2.
Proof.
  unfold L. intros E.
  by rewrite <- (string_of_list_ascii_of_string s1), E, string_of_list_ascii_of_string.
Qed.

Section HarnessFacts.
Context `{Cobrapy}.

(** The operations of COBRApy come back: they return or raise. *)
Definition comes_back : Prop :=
  (∀ id w, (load_json_model id w).1 ≠ Diverge)
  ∧ (∀ model solver w, (set_solver model solver w).1 ≠ Diverge)
  ∧ (∀ model w, (optimize model w).1 ≠ Diverge)
  ∧ (∀ model w, (pfba model w).1 ≠ Diverge)
  ∧ (∀ model fraction w, (flux_variability_analysis model fraction w).1 ≠ Diverge).

(** What [solve_fba] and [solve_pfba] promise about a result for the
    method [m]. *)
Definition scalar_result (m : string) (model_id solver : string) (r : SolveResult) : Prop :=
  Benchmark.model_id r = model_id ∧ method r = m
  ∧ Benchmark.solver r = "cobrapy-" +:+ solver
  ∧ (status r = L "optimal" →
       error r = None
       ∧ ∃ obj fl, objective_value r = Some obj ∧ fluxes r = Some fl ∧ scalars fl)
  ∧ (status r ≠ L "optimal" → objective_value r = None ∧ fluxes r = None)
  ∧ (error r ≠ None → status r = L "error" ∧ solve_time_ms r = 0%float).

Ltac run_step :=
  match goal with
  | |- context [set_solver ?m ?s ?w] => destruct (set_solver m s w) as [[[]|?|] ?] eqn:?
  | |- context [perf_counter ?w] => destruct (perf_counter w) as [? ?] eqn:?
  | |- context [optimize ?m ?w] => destruct (optimize m w) as [[?|?|] ?] eqn:?
  | |- context [pfba ?m ?w] => destruct (pfba m w) as [[?|?|] ?] eqn:?
  | |- context [flux_variability_analysis ?m ?f ?w] =>
      destruct (flux_variability_analysis m f w) as [[?|?|] ?] eqn:?
  | |- context [scalar_fluxes ?ids ?s] => destruct (scalar_fluxes ids s) as [?|?|] eqn:?
  | |- context [float_of_objective ?s] => destruct (float_of_objective s) as [?|?|] eqn:?
  | |- context [fva_method ?f] => destruct (fva_method f) as [?|?|] eqn:?
  | |- context [String.eqb ?a ?b] => destruct (String.eqb a b) eqn:?
  end; cbn [fst snd].

Lemma error_result_scalar m model_id solver e :
  scalar_result m model_id solver (error_result model_id m solver e).
Proof. unfold scalar_result, error_result. cbn. by split_and!. Qed.

Ltac shape :=
  unfold scalar_result; cbn; split_and!; try done;
  [> intros E; apply (L_inj _ "optimal") in E;
     match goal with H : String.eqb _ _ = false |- _ => apply String.eqb_neq in H end;
     done ..].

Lemma solve_fba_outcome model solver w :
  (solve_fba model solver w).1 = Diverge
  ∨ ∃ r, (solve_fba model solver w).1 = Return r ∧ scalar_result "fba" (get_id model w) solver r.
Proof.
  unfold solve_fba, and_then, try_except, read, clock, lift, ret. cbn [fst snd].
  repeat run_step; try (by left); right; (eexists; split; [done|]);
    try (by apply error_result_scalar); try shape.
  match goal with H : scalar_fluxes _ _ = Return _ |- _ =>
    apply scalar_fluxes_spec in H as (Hs & _) end.
  unfold scalar_result; cbn. split_and!; try done. eauto 6.
Qed.

Lemma solve_pfba_outcome model solver w :
  (solve_pfba model solver w).1 = Diverge
  ∨ ∃ r, (solve_pfba model solver w).1 = Return r
         ∧ scalar_result "pfba" (get_id model w) solver r
         ∧ (status r = L "optimal" ∨ status r = L "error").
Proof.
  unfold solve_pfba, and_then, try_except, read, clock, lift, ret. cbn [fst snd].
  repeat run_step; try (by left); right; (eexists; split; [done|]);
    try (split; [by apply error_result_scalar | by right]).
  match goal with H : scalar_fluxes _ _ = Return _ |- _ =>
    apply scalar_fluxes_spec in H as (Hs & _) end.
  split; [|by left]. unfold scalar_result; cbn. split_and!; try done. eauto 6.
Qed.




Lemma fva_method_outcome fraction :
  (∃ p, fva_method fraction = Return ("fva_" +:+ p)) ∨ ∃ e, fva_method fraction = Raise e.
Proof.
  unfold fva_method, int_of_float. destruct (Prim2SF _); cbn; eauto.
Qed.

Lemma solve_fva_outcome model fraction solver w :
  (solve_fva model fraction solver w).1 = Diverge
  ∨ (∃ e, fva_method fraction = Raise e ∧ (solve_fva model fraction solver w).1 = Raise e)
  ∨ ∃ r, (solve_fva model fraction solver w).1 = Return r
         ∧ fva_method fraction = Return (method r)
         ∧ Benchmark.model_id r = get_id model w
         ∧ Benchmark.solver r = "cobrapy-" +:+ solver
         ∧ objective_value r = None
         ∧ (status r = L "optimal" ∧ error r = None ∧ (∃ fl, fluxes r = Some fl ∧ ranges fl)
            ∨ status r = L "error" ∧ error r ≠ None ∧ fluxes r = None
              ∧ solve_time_ms r = 0%float).
Proof.
  unfold solve_fva, and_then, try_except, read, clock, lift, ret. cbn [fst snd].
  destruct (fva_method_outcome fraction) as [[p Hp]|[e He]].
  - rewrite Hp. repeat run_step; try (by left); right; right;
      (eexists; split; [done|]); cbn; split_and!; try done;
      try (right; by split_and!).
    left. split_and!; try done. eexists. split; [done|].
    intros id fx. rewrite lookup_fmap. destruct (_ !! id) as [[lo hi]|]; [|done].
    intros [= <-]. by eexists _, _.
  - rewrite He. repeat run_step; try (by left); right; left; by exists e.
Qed.

End HarnessFacts.
(** *** The loops of [run_benchmark] *)

Section LoopFacts.
Context `{Cobrapy}.

Lemma for_each_cons {A B} (x : A) l (round : A → M (list B)) w :
  for_each (x :: l) round w
  = match round x w with
    | (Return first, w1) =>
        match for_each l round w1 with
        | (Return rest, w2) => (Return (first ++ rest), w2)
        | (Raise e, w2) => (Raise e, w2)
        | (Diverge, w2) => (Diverge, w2)
        end
    | (Raise e, w1) => (Raise e, w1)
    | (Diverge, w1) => (Diverge, w1)
    end.
Proof.
  cbn [for_each]. unfold and_then, ret.
  destruct (round x w) as [[first|e|] w1]; [|done..].
  by destruct (for_each l round w1) as [[rest|e|] w2].
Qed.

Lemma for_each_Forall {A B} (P : B → Prop) (l : list A) (round : A → M (list B)) :
  (∀ x w rs w', x ∈ l → round x w = (Return rs, w') → Forall P rs) →
  ∀ w rs w', for_each l round w = (Return rs, w') → Forall P rs.
Proof.
  induction l as [|x l IH]; intros Hround w rs w'.
  - intros [= <- _]. constructor.
  - rewrite for_each_cons. destruct (round x w) as [[first|e|] w1] eqn:E1; [|done..].
    destruct (for_each l round w1) as [[rest|e|] w2] eqn:E2; [|done..].
    intros [= <- _]. apply Forall_app. split.
    + eapply Hround; [by left|done].
    + eapply IH; [|done]. intros y wy rsy wy' Hy. apply Hround. by right.
Qed.

Lemma for_each_no_raise {A B} (l : list A) (round : A → M (list B)) :
  (∀ x w e, x ∈ l → (round x w).1 ≠ Raise e) →
  ∀ w e, (for_each l round w).1 ≠ Raise e.
Proof.
  induction l as [|x l IH]; intros Hround w e; [done|].
  rewrite for_each_cons. destruct (round x w) as [[first|e'|] w1] eqn:E1; [| |done].
  - specialize (IH (λ y wy ey Hy, Hround y wy ey (list_elem_of_further _ _ _ Hy)) w1 e).
    by destruct (for_each l round w1) as [[rest|e'|] w2].
  - exfalso. apply (Hround x w e'); [by left|]. by rewrite E1.
Qed.

Lemma for_each_comes_back {A B} (l : list A) (round : A → M (list B)) :
  (∀ x w, x ∈ l → (round x w).1 ≠ Diverge) →
  ∀ w, (for_each l round w).1 ≠ Diverge.
Proof.
  induction l as [|x l IH]; intros Hround w; [done|].
  rewrite for_each_cons. destruct (round x w) as [[first|e'|] w1] eqn:E1; [|done|].
  - specialize (IH (λ y wy Hy, Hround y wy (list_elem_of_further _ _ _ Hy)) w1).
    by destruct (for_each l round w1) as [[rest|e'|] w2].
  - exfalso. apply (Hround x w); [by left|]. by rewrite E1.
Qed.

Lemma for_each_length {A B} (n : nat) (l : list A) (round : A → M (list B)) :
  (∀ x w rs w', x ∈ l → round x w = (Return rs, w') → length rs = n) →
  ∀ w rs w', for_each l round w = (Return rs, w') → length rs = (length l * n)%nat.
Proof.
  induction l as [|x l IH]; intros Hround w rs w'.
  - by intros [= <- _].
  - rewrite for_each_cons. destruct (round x w) as [[first|e|] w1] eqn:E1; [|done..].
    destruct (for_each l round w1) as [[rest|e|] w2] eqn:E2; [|done..].
    intros [= <- _]. rewrite length_app. cbn [length].
    rewrite (Hround x w first w1) by (done || by left).
    rewrite (IH (λ y wy rsy wy' Hy, Hround y wy rsy wy' (list_elem_of_further _ _ _ Hy))
               w1 rest w2 E2). lia.
Qed.

Lemma for_each_le {A B} (n : nat) (l : list A) (round : A → M (list B)) :
  (∀ x w rs w', x ∈ l → round x w = (Return rs, w') → (length rs ≤ n)%nat) →
  ∀ w rs w', for_each l round w = (Return rs, w') → (length rs ≤ length l * n)%nat.
Proof.
  induction l as [|x l IH]; intros Hround w rs w'.
  - intros [= <- _]. done.
  - rewrite for_each_cons. destruct (round x w) as [[first|e|] w1] eqn:E1; [|done..].
    destruct (for_each l round w1) as [[rest|e|] w2] eqn:E2; [|done..].
    intros [= <- _]. rewrite length_app. cbn [length].
    pose proof (Hround x w first w1 (list_elem_of_here _ _) E1).
    pose proof (IH (λ y wy rsy wy' Hy, Hround y wy rsy wy' (list_elem_of_further _ _ _ Hy))
                  w1 rest w2 E2). lia.
Qed.

Lemma for_each_filter {A B} (keep : A → bool) (l : list A) (round : A → M (list B)) :
  (∀ x w, keep x = false → round x w = (Return [], w)) →
  ∀ w, for_each l round w = for_each (filter (λ x, keep x = true) l) round w.
Proof.
  intros Hskip. induction l as [|x l IH]; intros w; [done|].
  rewrite filter_cons. destruct (keep x) eqn:E.
  - rewrite decide_True by done. rewrite !for_each_cons.
    destruct (round x w) as [[first|e|] w1]; [|done..]. by rewrite IH.
  - rewrite decide_False by done. rewrite for_each_cons, Hskip by done. rewrite <- IH.
    by destruct (for_each l round w) as [[rest|e|] w2].
Qed.

Lemma for_each_ext {A B} (l : list A) (round1 round2 : A → M (list B)) :
  (∀ x w, x ∈ l → round1 x w = round2 x w) →
  ∀ w, for_each l round1 w = for_each l round2 w.
Proof.
  induction l as [|x l IH]; intros Hext w; [done|].
  rewrite !for_each_cons, Hext by by left.
  destruct (round2 x w) as [[first|e|] w1]; [|done..].
  by rewrite IH by (intros; apply Hext; by right).
Qed.

End LoopFacts.
Section RunFacts.
Context `{Cobrapy}.

(** The methods that [run_benchmark] has a branch for. *)
Definition known (method : str) : bool :=
  bool_decide (method = L "fba") || bool_decide (method = L "pfba")
  || startswith (L "fva") method.

Lemma run_method_unknown model method solver w :
  known method = false → run_method model method solver w = (Return [], w).
Proof.
  unfold known, run_method. intros [[H1 H2]%orb_false_elim H3]%orb_false_elim.
  by rewrite H1, H2, H3.
Qed.

Lemma run_method_fba model solver w :
  run_method model (L "fba") solver w
  = match solve_fba model solver w with
    | (Return r, w') => (Return [r], w')
    | (Raise e, w') => (Raise e, w')
    | (Diverge, w') => (Diverge, w')
    end.
Proof.
  unfold run_method. rewrite bool_decide_eq_true_2 by done. unfold and_then, ret.
  by destruct (solve_fba model solver w) as [[r|e|] w'].
Qed.

Lemma run_method_pfba model solver w :
  run_method model (L "pfba") solver w
  = match solve_pfba model solver w with
    | (Return r, w') => (Return [r], w')
    | (Raise e, w') => (Raise e, w')
    | (Diverge, w') => (Diverge, w')
    end.
Proof.
  unfold run_method. rewrite bool_decide_eq_false_2 by done.
  rewrite bool_decide_eq_true_2 by done. unfold and_then, ret.
  by destruct (solve_pfba model solver w) as [[r|e|] w'].
Qed.

Lemma run_method_scalar model method solver w :
  method = L "fba" ∨ method = L "pfba" →
  (∀ e, (run_method model method solver w).1 ≠ Raise e)
  ∧ ∀ rs w', run_method model method solver w = (Return rs, w') →
      ∃ r, rs = [r] ∧ scalar_result (key method) (get_id model w) solver r.
Proof.
  intros [->| ->].
  - rewrite run_method_fba. pose proof (solve_fba_outcome model solver w) as Ho.
    destruct (solve_fba model solver w) as [[r|e|] w1]; cbn in *.
    + destruct Ho as [|(r' & [= <-] & Hr)]; [done|]. split; [done|].
      intros rs w' [= <- _]. eauto.
    + by destruct Ho as [|(r' & ? & _)].
    + done.
  - rewrite run_method_pfba. pose proof (solve_pfba_outcome model solver w) as Ho.
    destruct (solve_pfba model solver w) as [[r|e|] w1]; cbn in *.
    + destruct Ho as [|(r' & [= <-] & Hr & _)]; [done|]. split; [done|].
      intros rs w' [= <- _]. eauto.
    + by destruct Ho as [|(r' & ? & _)].
    + done.
Qed.


End RunFacts.



Lemma scalar_fluxes_comes_back ids solution : scalar_fluxes ids solution ≠ Diverge.
Proof.
  unfold scalar_fluxes. induction ids as [|id ids IH] using rev_ind; [done|].
  rewrite fold_left_app. cbn [fold_left].
  destruct (fold_left _ ids _) as [fl|e|]; [|done..]. cbn.
  by destruct (sol_fluxes solution !! id).
Qed.

(** *** Properties of the benchmark runs *)

Section RunLaws.
Context `{Cobrapy}.

Lemma solve_fba_comes_back model solver w :
  comes_back → (solve_fba model solver w).1 ≠ Diverge.
Proof.
  intros (_ & Hs & Ho & _).
  unfold solve_fba, and_then, try_except, read, clock, lift, ret. cbn [fst snd].
  pose proof (Hs model solver w) as Hs'.
  destruct (set_solver model solver w) as [[[]|?|] w0]; [|done..].
  destruct (perf_counter w0) as [t0 w1]. pose proof (Ho model w1) as Ho'.
  destruct (optimize model w1) as [[sol|?|] w2]; [|done..].
  destruct (perf_counter w2) as [t1 w3].
  destruct (String.eqb _ _); [|done]. cbn [fst snd].
  unfold float_of_objective.
  pose proof (scalar_fluxes_comes_back (reaction_ids model w3) sol) as Hc.
  destruct (scalar_fluxes _ _); [|by cbn..]. cbn. by destruct (sol_objective_value sol).
Qed.

Lemma solve_pfba_comes_back model solver w :
  comes_back → (solve_pfba model solver w).1 ≠ Diverge.
Proof.
  intros (_ & Hs & _ & Hp & _).
  unfold solve_pfba, and_then, try_except, read, clock, lift, ret. cbn [fst snd].
  pose proof (Hs model solver w) as Hs'.
  destruct (set_solver model solver w) as [[[]|?|] w0]; [|done..].
  destruct (perf_counter w0) as [t0 w1]. pose proof (Hp model w1) as Hp'.
  destruct (pfba model w1) as [[sol|?|] w2]; [|done..].
  destruct (perf_counter w2) as [t1 w3]. cbn [fst snd].
  unfold float_of_objective.
  pose proof (scalar_fluxes_comes_back (reaction_ids model w3) sol) as Hc.
  destruct (scalar_fluxes _ _); [|by cbn..]. cbn. by destruct (sol_objective_value sol).
Qed.


(** The [try]/[except] of [solve_fva] does not cover the method label: for
    a fraction such as NaN or an infinity, for which [int(fraction*100)]
    raises, [solve_fva] raises that exception instead of returning an error
    result. *)
Theorem solve_fva_raises_without_label (model : CobraModel) (fraction : float)
    (solver : string) (w : World) (e : exn) :
  comes_back →
  int_of_float (fraction * 100)%float = Raise e →
  (solve_fva model fraction solver w).1 = Raise e.
Proof.
  intros (_ & Hs & _ & _ & Hv) He.
  assert (fva_method fraction = Raise e) as Hl by (unfold fva_method; by rewrite He).
  unfold solve_fva, and_then, try_except, read, clock, lift, ret. cbn [fst snd].
  rewrite Hl. pose proof (Hs model solver w) as Hs'.
  destruct (set_solver model solver w) as [[[]|?|] w0]; [|done..].
  destruct (perf_counter w0) as [t0 w1]. pose proof (Hv model fraction w1) as Hv'.
  destruct (flux_variability_analysis model fraction w1) as [[res|?|] w2]; [|done..].
  by destruct (perf_counter w2) as [t1 w3].
Qed.

End RunLaws.
Section BenchmarkRuns.
Context `{Cobrapy}.

Lemma load_model_outcome id w :
  (∃ model w', load_json_model id w = (Return model, w')
               ∧ load_model id w = (Return (Some model), w'))
  ∨ (∃ e w', load_json_model id w = (Raise e, w') ∧ load_model id w = (Return None, w'))
  ∨ (∃ w', load_json_model id w = (Diverge, w') ∧ load_model id w = (Diverge, w')).
Proof.
  unfold load_model, try_except, and_then, ret.
  destruct (load_json_model id w) as [[model|e|] w']; eauto 10.
Qed.

(** The part of [run_benchmark] that works on one model. *)
Definition run_model (methods : list str) (solvers : list string) (model_info : ModelInfo)
    : M (list SolveResult) :=
  and_then (load_model (bigg_id model_info)) (λ loaded,
    match loaded with
    | None => ret []
    | Some model =>
        for_each methods (λ method,
          for_each solvers (λ solver, run_method model method solver))
    end).

Lemma run_benchmark_models models methods solvers :
  run_benchmark models methods solvers = for_each models (run_model methods solvers).
Proof. reflexivity. Qed.

Lemma run_model_loaded methods solvers info w model w' :
  load_json_model (bigg_id info) w = (Return model, w') →
  run_model methods solvers info w
  = for_each methods (λ method,
      for_each solvers (λ solver, run_method model method solver)) w'.
Proof.
  intros Hl. unfold run_model, and_then.
  destruct (load_model_outcome (bigg_id info) w)
    as [(m & w1 & Hl' & ->)|[(e & w1 & Hl' & _)|(w1 & Hl' & _)]]; [|congruence..].
  rewrite Hl in Hl'. by injection Hl' as <- <-.
Qed.

Lemma run_model_not_loaded methods solvers info w e w' :
  load_json_model (bigg_id info) w = (Raise e, w') →
  run_model methods solvers info w = (Return [], w').
Proof.
  intros Hl. unfold run_model, and_then.
  destruct (load_model_outcome (bigg_id info) w)
    as [(m & w1 & Hl' & _)|[(e' & w1 & Hl' & ->)|(w1 & Hl' & _)]]; [congruence| |congruence].
  rewrite Hl in Hl'. by injection Hl' as <- <-.
Qed.

Lemma solvers_loop_unknown model method solvers w :
  known method = false →
  for_each solvers (λ solver, run_method model method solver) w = (Return [], w).
Proof.
  intros Hm. induction solvers as [|solver solvers IH]; [done|].
  by rewrite for_each_cons, run_method_unknown, IH.
Qed.

(** A method that [run_benchmark] has no branch for (anything but [fba],
    [pfba] and the strings that start with [fva]) is passed over: the run
    gives the same results, and leaves COBRApy in the same state, as the
    run without these methods. *)
Theorem run_benchmark_skips_unknown_methods (models : list ModelInfo)
    (methods : list str) (solvers : list string) (w : World) :
  run_benchmark models methods solvers w
  = run_benchmark models (filter (λ method, known method = true) methods) solvers w.
Proof.
  rewrite !run_benchmark_models. apply for_each_ext. intros info w0 _.
  unfold run_model, and_then.
  destruct (load_model (bigg_id info) w0) as [[[model|]|e|] w1]; try done.
  apply (for_each_filter known). intros method w2 Hm. by apply solvers_loop_unknown.
Qed.




End BenchmarkRuns.
Section DefaultMethods.
Context `{Cobrapy}.

Lemma run_method_comes_back model method solver w :
  comes_back → method = L "fba" ∨ method = L "pfba" →
  (run_method model method solver w).1 ≠ Diverge.
Proof.
  intros Hback [->| ->].
  - rewrite run_method_fba. pose proof (solve_fba_comes_back model solver w Hback).
    by destruct (solve_fba model solver w) as [[r|e|] w1].
  - rewrite run_method_pfba. pose proof (solve_pfba_comes_back model solver w Hback).
    by destruct (solve_pfba model solver w) as [[r|e|] w1].
Qed.

(** With the methods [fba] and [pfba] (the default) [run_benchmark] never
    raises, and it returns when the calls of COBRApy come back.  It gives
    at most one result per model, method and solver, and exactly one when
    every model can be loaded; each result has its method from the list,
    the label ["cobrapy-" + solver] of a solver from the list, and the
    shape that [solve_fba] and [solve_pfba] give. *)
Theorem run_benchmark_default_methods (models : list ModelInfo) (methods : list str)
    (solvers : list string) (w : World) :
  Forall (λ method, method = L "fba" ∨ method = L "pfba") methods →
  (∀ e, (run_benchmark models methods solvers w).1 ≠ Raise e)
  ∧ (comes_back → (run_benchmark models methods solvers w).1 ≠ Diverge)
  ∧ ∀ results w', run_benchmark models methods solvers w = (Return results, w') →
      (length results ≤ length models * (length methods * length solvers))%nat
      ∧ ((∀ id w0, ∃ model w1, load_json_model id w0 = (Return model, w1)) →
         length results = (length models * (length methods * length solvers))%nat)
      ∧ Forall (λ r, ∃ method id solver,
                  method ∈ methods ∧ solver ∈ solvers
                  ∧ scalar_result (key method) id solver r) results.
Proof.
  intros Hm. rewrite Forall_forall in Hm. rewrite run_benchmark_models.
  assert (∀ model method w0 rs w1, method ∈ methods →
    for_each solvers (λ solver, run_method model method solver) w0 = (Return rs, w1) →
    length rs = (length solvers * 1)%nat) as Hlen.
  { intros model method w0 rs w1 Hin. apply for_each_length.
    intros solver w2 rs2 w3 _ Hr.
    destruct (run_method_scalar model method solver w2 (Hm _ Hin)) as [_ Hs].
    by destruct (Hs _ _ Hr) as (r & -> & _). }
  assert (∀ model w0 rs w1,
    for_each methods (λ method,
      for_each solvers (λ solver, run_method model method solver)) w0 = (Return rs, w1) →
    length rs = (length methods * (length solvers * 1))%nat) as Hlen2.
  { intros model w0 rs w1. apply for_each_length. intros method w2 rs2 w3 Hin.
    by apply Hlen. }
  split_and!.
  - apply for_each_no_raise. intros info w0 e _. unfold run_model, and_then.
    destruct (load_model_outcome (bigg_id info) w0)
      as [(m & w1 & _ & ->)|[(e' & w1 & _ & ->)|(w1 & _ & ->)]]; [|done..].
    apply for_each_no_raise. intros method w2 e2 Hin.
    apply for_each_no_raise. intros solver w3 e3 _.
    by destruct (run_method_scalar m method solver w3 (Hm _ Hin)) as [Hn _].
  - intros Hback. apply for_each_comes_back. intros info w0 _. unfold run_model, and_then.
    pose proof Hback as (Hload & _). specialize (Hload (bigg_id info) w0).
    destruct (load_model_outcome (bigg_id info) w0)
      as [(m & w1 & _ & ->)|[(e' & w1 & _ & ->)|(w1 & Hd & _)]]; [|done|by rewrite Hd in Hload].
    apply for_each_comes_back. intros method w2 Hin.
    apply for_each_comes_back. intros solver w3 _.
    apply run_method_comes_back; [done|by apply Hm].
  - intros results w' Hr. split_and!.
    + eapply for_each_le; [|exact Hr]. intros info w0 rs w1 _ Hrs.
      unfold run_model, and_then in Hrs.
      destruct (load_model (bigg_id info) w0) as [[[model|]|e|] w2]; [| |done..].
      * apply Hlen2 in Hrs. lia.
      * injection Hrs as <- _. cbn. lia.
    + intros Hloads.
      eapply (for_each_length (length methods * length solvers)%nat); [|exact Hr].
      intros info w0 rs w1 _ Hrs.
      destruct (Hloads (bigg_id info) w0) as (model & w2 & Hl).
      rewrite (run_model_loaded _ _ _ _ _ _ Hl) in Hrs. apply Hlen2 in Hrs. lia.
    + eapply for_each_Forall; [|exact Hr]. intros info w0 rs w1 _ Hrs.
      unfold run_model, and_then in Hrs.
      destruct (load_model (bigg_id info) w0) as [[[model|]|e|] w2]; [| |done..].
      * eapply for_each_Forall; [|exact Hrs]. intros method w3 rs3 w4 Hin.
        apply for_each_Forall. intros solver w5 rs5 w6 Hs Hrun.
        destruct (run_method_scalar model method solver w5 (Hm _ Hin)) as [_ Hsc].
        destruct (Hsc _ _ Hrun) as (r & -> & Hres). repeat constructor. eauto 8.
      * injection Hrs as <- _. constructor.
Qed.

End DefaultMethods.
(** *** The method label of an FVA result *)

(** The percentage that [solve_fva] writes into the label when
    [run_benchmark] is asked for [fva_<n>]. *)
Definition fva_percent_label (n : Z) : Z :=
  if (n =? 29) || (n =? 57) || (n =? 58) then n - 1 else n.

Definition fva_label_check (n : Z) : bool :=
  match fva_fraction (L "fva_" ++ str_of_int n) with
  | Return fraction =>
      match fva_method fraction with
      | Return label => String.eqb label ("fva_" +:+ key (str_of_int (fva_percent_label n)))
      | _ => false
      end
  | _ => false
  end.

Lemma fva_label_checks : forallb fva_label_check (range 101) = true.
Proof. by vm_compute. Qed.

Lemma fva_label_pure n :
  0 ≤ n ≤ 100 →
  ∃ fraction, fva_fraction (L "fva_" ++ str_of_int n) = Return fraction
    ∧ fva_method fraction = Return ("fva_" +:+ key (str_of_int (fva_percent_label n))).
Proof.
  intros Hn. pose proof fva_label_checks as Hall. rewrite forallb_forall in Hall.
  assert (fva_label_check n = true) as Hc.
  { apply Hall. unfold range. apply in_map_iff. exists (Z.to_nat n). split; [lia|].
    apply in_seq. lia. }
  unfold fva_label_check in Hc.
  destruct (fva_fraction _) as [fraction| |]; [|done..]. exists fraction. split; [done|].
  destruct (fva_method fraction) as [label| |]; [|done..].
  by apply String.eqb_eq in Hc as ->.
Qed.

Section FvaLabel.
Context `{Cobrapy}.

(** For a whole percentage [n] from 0 to 100 the method [fva_<n>] is
    accepted by [run_benchmark], and the result that comes back is
    labelled [fva_<n>] again, except for 29, 57 and 58: there
    [int(n / 100 * 100)] is [n - 1], so the result of [fva_29] is labelled
    [fva_28], that of [fva_57] [fva_56] and that of [fva_58] [fva_57]. *)
Theorem fva_label_round_trip (n : Z) (model : CobraModel) (solver : string) (w : World) :
  0 ≤ n ≤ 100 →
  let label := "fva_" +:+ key (str_of_int (if (n =? 29) || (n =? 57) || (n =? 58)
                                            then n - 1 else n)) in
  (∃ fraction, fva_fraction (L "fva_" ++ str_of_int n) = Return fraction
               ∧ fva_method fraction = Return label)
  ∧ ∀ results w', run_method model (L "fva_" ++ str_of_int n) solver w = (Return results, w') →
      ∃ r, results = [r] ∧ method r = label.
Proof.
  intros Hn label. destruct (fva_label_pure n Hn) as (fraction & Hf & Hl).
  split; [by exists fraction|]. intros results w'. unfold run_method.
  rewrite !bool_decide_eq_false_2 by done.
  change (startswith (L "fva") (L "fva_" ++ str_of_int n)) with true. cbn match.
  unfold and_then, lift, ret. rewrite Hf.
  pose proof (solve_fva_outcome model fraction solver w) as Ho.
  destruct (solve_fva model fraction solver w) as [[r|e|] w1]; [|done..].
  intros [= <- _]. exists r. split; [done|].
  destruct Ho as [Ho|[(e & _ & Ho)|(r' & [= <-] & Hm & _)]]; [done..|].
  unfold fva_percent_label in Hl. rewrite Hl in Hm. by injection Hm as <-.
Qed.

End FvaLabel.
(** *** A small COBRApy to run the benchmark on *)

Definition toy_solution : Solution :=
  {| sol_status := "optimal"; sol_objective_value := Some 0.87%float;
     sol_fluxes := {[ "R1"%string := 0.87%float ]} |}.

(** Every model has the one reaction [R1]; the model [missing] cannot be
    loaded. *)
Definition toy_cobrapy : Cobrapy := {|
  World := unit;
  CobraModel := string;
  perf_counter w := (0%float, w);
  load_json_model id w :=
    (if String.eqb id "missing" then Raise (OtherError "404 Client Error") else Return id, w);
  get_id model w := model;
  reaction_ids model w := ["R1"%string];
  set_solver model solver w := (Return (), w);
  optimize model w := (Return toy_solution, w);
  pfba model w := (Return toy_solution, w);
  flux_variability_analysis model fraction w :=
    (Return {[ "R1"%string := (0%float, 1%float) ]}, w)
|}.

Definition toy_info (id : string) : ModelInfo :=
  {| bigg_id := id; organism := ""; metabolite_count := 1; reaction_count := 1;
     gene_count := 0 |}.

Lemma toy_comes_back : @comes_back toy_cobrapy.
Proof.
  unfold comes_back. cbn. split_and!; try done.
  intros id w. by destruct (String.eqb id "missing").
Qed.

Lemma solve_fva_raises_without_label_witness :
  (@solve_fva toy_cobrapy "e_coli_core" nan "glpk" tt).1
  = Raise (ValueError "cannot convert float NaN to integer").
Proof.
  apply (@solve_fva_raises_without_label toy_cobrapy).
  - exact toy_comes_back.
  - reflexivity.
Defined.


Lemma run_benchmark_default_methods_witness :
  ∃ results,
    @run_benchmark toy_cobrapy [toy_info "e_coli_core"; toy_info "missing"]
      [L "fba"; L "pfba"] ["glpk"%string] tt = (Return results, tt)
    ∧ (length results ≤ 2 * (2 * 1))%nat.
Proof.
  destruct (@run_benchmark toy_cobrapy [toy_info "e_coli_core"; toy_info "missing"]
              [L "fba"; L "pfba"] ["glpk"%string] tt) as [[results|e|] []] eqn:Hr;
    [|by vm_compute in Hr..].
  exists results. split; [reflexivity|].
  assert (Forall (λ method, method = L "fba" ∨ method = L "pfba") [L "fba"; L "pfba"]) as Hm.
  { apply Forall_cons. split; [by left|]. apply Forall_cons. split; [by right|].
    apply Forall_nil_2. }
  destruct (@run_benchmark_default_methods toy_cobrapy
              [toy_info "e_coli_core"; toy_info "missing"] _ ["glpk"%string] tt Hm)
    as (_ & _ & Hres).
  exact (proj1 (Hres _ _ Hr)).
Defined.


Lemma fva_label_round_trip_witness :
  ∃ fraction, fva_fraction (L "fva_29") = Return fraction
              ∧ fva_method fraction = Return "fva_28"%string.
Proof.
  apply (@fva_label_round_trip toy_cobrapy 29 "e_coli_core"%string "glpk" tt). lia.
Defined.
(** *** [LaTeXReportGenerator]: the two tables *)

Definition newline : str := ["010"%char].

(** [sep.join(parts)] *)
Fixpoint join (sep : str) (parts : list str) : str :=
  match parts with
  | [] => []
  | [p] => p
  | p :: ps => p ++ sep ++ join sep ps
  end.

(** [l[:hi]] on a list: a negative bound counts from the end. *)
Definition slice_to_list {A} (l : list A) (hi : Z) : list A :=
  let n := Z.of_nat (length l) in
  take (Z.to_nat (Z.min n (Z.max 0 (if hi <? 0 then hi + n else hi)))) l.

Section Report.
(** [np.mean] and [np.std] belong to NumPy; [format(x, '.1f')] is left to
    Python. *)
Variables np_mean np_std : list float → float.
Variable format_1f : float → str.

(** [f"{x:.2e}"]: the format is not defined for [None]. *)
Definition format_2e (x : option float) : outcome str :=
  match x with
  | Some v => Return (format_e 2 v)
  | None => Raise (OtherError "unsupported format string passed to NoneType.__format__")
  end.

(** [s[column][field]] formatted with [.2e]; the empty dict has no
    column. *)
Definition summary_field (s : option Summary) (column : string)
    (field : Summary → option float) : outcome str :=
  bind (of_option (KeyError column) s) (λ summary, format_2e (field summary)).

(** [generate_summary_table]: the fields of the f-string are worked out
    from left to right. *)
Definition generate_summary_table (s : option Summary) : outcome str :=
  let total := match s with Some summary => total_comparisons summary | None => 0 end in
  let passed := match s with Some summary => passed_count summary | None => 0 end in
  let failed := match s with Some summary => failed_count summary | None => 0 end in
  let rate := match s with Some summary => (pass_rate summary * 100)%float
              | None => 0%float end in
  bind (summary_field s "objective_diff" (λ summary, mean (objective_diff summary))) (λ obj_mean,
  bind (summary_field s "objective_diff" (λ summary, largest (objective_diff summary))) (λ obj_max,
  bind (summary_field s "objective_diff" (λ summary, std (objective_diff summary))) (λ obj_std,
  bind (summary_field s "flux_l2_norm" (λ summary, mean (flux_l2_norms summary))) (λ l2_mean,
  bind (summary_field s "flux_l2_norm" (λ summary, largest (flux_l2_norms summary))) (λ l2_max,
  Return (join newline [
    [];
    L "\begin{table}[htbp]";
    L "\centering";
    L "\caption{Solver Validation Summary: MetabolicSuite (HiGHS WASM) vs COBRApy}";
    L "\label{tab:solver_validation}";
    L "\begin{tabular}{lrr}";
    L "\toprule";
    L "\textbf{Metric} & \textbf{Value} & \textbf{Pass Criterion} \\";
    L "\midrule";
    L "Total Models Tested & " ++ str_of_int total ++ L " & -- \\";
    L "Passed & " ++ str_of_int passed ++ L " & $|\Delta obj| < 10^{-6}$ \\";
    L "Failed & " ++ str_of_int failed ++ L " & -- \\";
    L "Pass Rate & " ++ format_1f rate ++ L "\% & $\geq 99\%$ \\";
    L "\midrule";
    L "Mean $|\Delta obj|$ & " ++ obj_mean ++ L " & -- \\";
    L "Max $|\Delta obj|$ & " ++ obj_max ++ L " & $< 10^{-6}$ \\";
    L "Std $|\Delta obj|$ & " ++ obj_std ++ L " & -- \\";
    L "\midrule";
    L "Mean $||\Delta v||_2$ & " ++ l2_mean ++ L " & -- \\";
    L "Max $||\Delta v||_2$ & " ++ l2_max ++ L " & -- \\";
    L "\bottomrule";
    L "\end{tabular}";
    L "\end{table}";
    []
  ])))))).

(** [f"{x:.2e}" if x else "--"]: [None] and the zeros are false. *)
Definition detail_cell (x : option float) : str :=
  match x with
  | Some v => if truthy_float v then format_e 2 v else L "--"
  | None => L "--"
  end.

(** One row of the detailed table. *)
Definition detail_row (c : ComparisonResult) : str :=
  L "  " ++ L (cmp_model_id c) ++ L " & " ++ L (cmp_method c) ++ L " & "
  ++ detail_cell (obj_diff c) ++ L " & " ++ detail_cell (flux_l2_norm c) ++ L " & "
  ++ format_1f (time_a_ms c) ++ L " & " ++ format_1f (time_b_ms c) ++ L " & "
  ++ (if passed c then L "\checkmark" else L "\texttimes") ++ L " \\".

Definition generate_detailed_table (comparisons : list ComparisonResult) (max_rows : Z)
    : str :=
  let rows := map detail_row (slice_to_list comparisons max_rows) in
  join newline [
    [];
    L "\begin{table}[htbp]";
    L "\centering";
    L "\caption{Detailed Solver Comparison Results (first " ++ str_of_int max_rows
      ++ L " models)}";
    L "\label{tab:solver_detailed}";
    L "\begin{tabular}{llrrrrc}";
    L "\toprule";
    L "\textbf{Model} & \textbf{Method} & \textbf{$|\Delta obj|$} &";
    L "\textbf{$||\Delta v||_2$} & \textbf{t$_{HiGHS}$} &";
    L "\textbf{t$_{COBRApy}$} & \textbf{Pass} \\";
    L "\midrule";
    join newline rows;
    L "\bottomrule";
    L "\end{tabular}";
    L "\end{table}";
    []
  ].


Lemma omap_nil_iff {A B} (f : A → option B) (l : list A) :
  omap f l = [] ↔ Forall (λ x, f x = None) l.
Proof.
  induction l as [|x l IH]; [by split; [constructor|]|]. simpl.
  destruct (f x) eqn:E.
  - split; [done|]. intros [H _]%Forall_cons_1. congruence.
  - rewrite IH. split; [by constructor | by intros [_ ?]%Forall_cons_1].
Qed.

Lemma omap_not_nil {A B} (f : A → option B) (l : list A) :
  omap f l ≠ [] ↔ ∃ x, x ∈ l ∧ f x ≠ None.
Proof.
  rewrite omap_nil_iff. split.
  - intros Hn. apply not_Forall_Exists in Hn; [|intros x; apply _].
    apply Exists_exists in Hn as (x & Hx & Hf). eauto.
  - intros (x & Hx & Hf) Hall. rewrite Forall_forall in Hall. by apply Hf, Hall.
Qed.

Lemma py_max_None values : py_max values = None ↔ values = [].
Proof. by destruct values. Qed.

(** The summary table can only be written when some comparison has an
    objective difference and some comparison has a flux norm.  For the
    summary of no comparisons at all, the empty dict, the table raises a
    [KeyError]; for a summary without objective differences (no pair of
    results was optimal on both sides) or without flux norms (no pair had
    fluxes on both sides) it raises a [TypeError], as [None] cannot be
    formatted with [.2e]. *)
Theorem summary_table_needs_data (comparisons : list ComparisonResult)
    (summary : option Summary) :
  generate_summary np_mean np_std comparisons = Return summary →
  ((∃ text, generate_summary_table summary = Return text)
   ↔ (∃ c, c ∈ comparisons ∧ obj_diff c ≠ None)
     ∧ (∃ c, c ∈ comparisons ∧ flux_l2_norm c ≠ None))
  ∧ (comparisons = [] →
     generate_summary_table summary = Raise (KeyError "objective_diff"))
  ∧ (comparisons ≠ [] →
     (∀ c, c ∈ comparisons → obj_diff c = None)
     ∨ (∀ c, c ∈ comparisons → flux_l2_norm c = None) →
     generate_summary_table summary
     = Raise (OtherError "unsupported format string passed to NoneType.__format__")).
Proof.
  unfold generate_summary. destruct comparisons as [|c0 cs] eqn:Ecs.
  { intros [= <-]. split_and!; [|done|done]. split; [by intros [text ?]|].
    by intros [(c & Hc%not_elem_of_nil & _) _]. }
  rewrite <- Ecs. assert (comparisons ≠ []) as Hne by by rewrite Ecs. clear Ecs.
  intros (rate & _ & [= <-])%bind_Return.
  rewrite <- !omap_not_nil.
  unfold generate_summary_table, summary_field.
  cbn [of_option bind objective_diff flux_l2_norms mean std largest].
  destruct (omap obj_diff comparisons) as [|d ds] eqn:Ed.
  { split_and!.
    - split; [by intros [text ?]|]. by intros [? _].
    - done.
    - done. }
  destruct (omap flux_l2_norm comparisons) as [|n ns] eqn:En.
  { split_and!.
    - split; [by intros [text ?]|]. by intros [_ ?].
    - done.
    - done. }
  split_and!.
  - split; [done|]. intros _. cbn. eauto.
  - done.
  - intros _ [Hall|Hall].
    + assert (omap obj_diff comparisons = []) as E; [|by rewrite E in Ed].
      apply omap_nil_iff, Forall_forall. done.
    + assert (omap flux_l2_norm comparisons = []) as E; [|by rewrite E in En].
      apply omap_nil_iff, Forall_forall. done.
Qed.


End Report.
Lemma summary_table_needs_data_witness :
  generate_summary_table (λ _, L "0.0") None = Raise (KeyError "objective_diff").
Proof.
  destruct (summary_table_needs_data (λ _, 0%float) (λ _, 0%float) (λ _, L "0.0") [] None
              eq_refl) as (_ & Hempty & _).
  exact (Hempty eq_refl).
Defined.

(** *** Objective values that are not numbers *)

Lemma or_zero_nan x : is_nan x = true → or_zero (Some x) = x.
Proof.
  intros Hx. unfold or_zero. destruct (PrimFloat.eqb x 0) eqn:E; [|done].
  apply eqb_true in E as (Hn & _). congruence.
Qed.

Lemma ltb_nan_l x y : is_nan x = true → PrimFloat.ltb x y = false.
Proof.
  intros Hx. destruct (PrimFloat.ltb x y) eqn:E; [|done].
  apply ltb_true in E as (Hn & _). congruence.
Qed.

(** A comparison never passes on an objective value that is NaN, and it
    does not pass either when both results have the same infinite
    objective value: the difference [inf - inf] is NaN, and NaN is not
    below the tolerance. *)
Theorem compare_fails_on_nan_and_infinity (walk : gset string → list string)
    (a b : SolveResult) (c : ComparisonResult) :
  status a = L "optimal" → status b = L "optimal" →
  compare walk a b = Return c →
  (∃ x, objective_value a = Some x ∧ is_nan x = true)
  ∨ (∃ x, objective_value b = Some x ∧ is_nan x = true)
  ∨ (∃ x, objective_value a = Some x ∧ objective_value b = Some x
          ∧ (x = infinity ∨ x = neg_infinity)) →
  passed c = false ∧ ∃ d, obj_diff c = Some d ∧ is_nan d = true.
Proof.
  intros Ha Hb Hc Hcases.
  destruct (compare_optimal walk a b c Ha Hb Hc) as (_ & _ & Hd & _ & Hp & _).
  assert (is_nan (abs (or_zero (objective_value a) - or_zero (objective_value b))) = true)
    as Hnan.
  { rewrite is_nan_abs. destruct Hcases as [(x & -> & Hx)|[(x & -> & Hx)|(x & -> & -> & Hx)]].
    - apply FloatLaws.nan_sub_l. by rewrite or_zero_nan.
    - apply FloatLaws.nan_sub_r. by rewrite or_zero_nan.
    - by destruct Hx as [-> | ->]. }
  split; [|eauto]. rewrite Hp. by apply ltb_nan_l.
Qed.

Lemma compare_fails_on_nan_and_infinity_witness :
  ∃ c, compare elements (result_of "optimal" (Some infinity) None)
         (result_of "optimal" (Some infinity) None) = Return c
       ∧ passed c = false.
Proof.
  destruct (compare elements (result_of "optimal" (Some infinity) None)
              (result_of "optimal" (Some infinity) None)) as [c|e|] eqn:Hc;
    [|by vm_compute in Hc..].
  exists c. split; [reflexivity|].
  destruct (compare_fails_on_nan_and_infinity elements
              (result_of "optimal" (Some infinity) None)
              (result_of "optimal" (Some infinity) None) c eq_refl eq_refl Hc) as [Hp _];
    [|exact Hp].
  right. right. exists infinity. split; [reflexivity|]. split; [reflexivity|by left].
Defined.

End BenchmarkLaws.
